(** * cn-oam: the catalog client and the page around it, embedded from the
      JavaScript sources.

    - [frontend/src/lib/catalog.js]  : [initCatalog], [searchCatalog],
      [getItem], [getCatalogStats] (DuckDB-WASM over a remote GeoParquet
      file);
    - [frontend/src/App.jsx]         : [runSearch], its debounce effect, the
      selection of a feature and the completion of an upload;
    - [frontend/src/components/UploadModal.jsx] : the drop zone, the form
      and its submission, [pollStatus];
    - [frontend/src/components/Sidebar.jsx]     : the filter controls;
    - [frontend/src/components/Map.jsx]         : the click on the map.

    Modelling conventions.
    - Strings are [string].  The case mappings of the browser
      ([String.prototype.toLowerCase]) and of the engine ([LOWER]) follow
      Unicode tables that are no part of the source: they are parameters
      ([Class Casing]) of which nothing is assumed.
    - DOUBLE columns and JavaScript numbers used in comparisons are finite
      doubles, represented by their exact rational value ([Q]); comparison of
      finite doubles is exact, so [Qle_bool] is the comparison of the code.
    - TIMESTAMP columns are integers (microseconds since the epoch, [Z]).
    - The SQL text assembled by [searchCatalog] is represented by the list of
      conditions it pushes, each carrying the parameter bound to its [?];
      the engine's evaluation of that text (WHERE, LIKE, ORDER BY, LIMIT) is
      modelled in [Module Sql].
    - Promises live in a heap indexed by allocation order. *)

From Stdlib Require Import ZArith QArith Ascii String List Bool Lia.
From Stdlib Require Import Sorting.Sorted Sorting.Permutation.
From Stdlib Require Import DecimalString.
From stdpp Require Import base option list gmap.
Import ListNotations.

Local Open Scope string_scope.
Local Open Scope list_scope.

(* ===================================================================== *)
(** * JavaScript values and helpers                                       *)
(* ===================================================================== *)

Module JS.

(** What a promise or an awaited call ends with. *)
Inductive outcome (A : Type) : Type :=
| Resolved (a : A)
| Rejected (e : string).
Arguments Resolved {A} a.
Arguments Rejected {A} e.

(** State of a promise object. *)
Inductive pstate : Type :=
| Pending
| Fulfilled
| Failed (e : string).

(** The values a feature property can hold. *)
Inductive value : Type :=
| VNull
| VNumber (n : Q)
| VBigInt (z : Z).

Definition is_number (v : value) : bool :=
  match v with VNumber _ => true | _ => false end.

Definition is_bigint (v : value) : bool :=
  match v with VBigInt _ => true | _ => false end.

(** Truthiness of a string: only the empty string is falsy. *)
Definition truthy_string (s : string) : bool :=
  negb (String.eqb s "").

(** Truthiness of a nullable number: [null] and [0] are falsy. *)
Definition truthy_number (n : option Q) : bool :=
  match n with
  | None => false
  | Some q => negb (Qeq_bool q 0)
  end.

(** [x || d] on a nullable string. *)
Definition or_default (x : option string) (d : string) : string :=
  match x with
  | Some s => if truthy_string s then s else d
  | None => d
  end.

(** [c.toLowerCase()] on one ASCII character. *)
Definition lower_ascii (c : ascii) : ascii :=
  let n := N_of_ascii c in
  if ((65 <=? n) && (n <=? 90))%N then ascii_of_N (n + 32) else c.

(** The letters A to Z of [s] lowered, every other character kept: what
    the flag [i] of a regular expression without the flag [u] does to the
    ASCII letters of a pattern, and what every lower-casing does to a
    text made of ASCII characters only. *)
Fixpoint fold_ascii (s : string) : string :=
  match s with
  | EmptyString => EmptyString
  | String c s' => String (lower_ascii c) (fold_ascii s')
  end.

(** The two lower-casings the search goes through: [toLowerCase] is
    [String.prototype.toLowerCase] of the browser, applied to the filter
    values, and [lower_text] is the engine's [LOWER] on a VARCHAR value,
    applied to the columns.  Both follow the Unicode tables of their
    libraries; nothing is assumed of either, nor that they agree. *)
Class Casing : Type := mkCasing {
  toLowerCase : string -> string;
  lower_text : string -> string
}.

(** [Number(z)] for a BigInt [z]: the nearest double, ties to even.  The
    result is always an integer; values of magnitude below [2^53] are
    exact.  (INT64 cells are far below the overflow threshold [2^1024].) *)
Definition Number_of_bigint (z : Z) : Z :=
  let a := Z.abs z in
  let e := (Z.log2 a - 52)%Z in
  if (e <=? 0)%Z then z
  else
    let q := Z.shiftr a e in
    let r := Z.land a (Z.ones e) in
    let half := Z.shiftl 1 (e - 1) in
    let q' := if (half <? r)%Z || ((r =? half)%Z && Z.odd q)
              then (q + 1)%Z else q in
    (Z.sgn z * Z.shiftl q' e)%Z.

End JS.

(* ===================================================================== *)
(** * The catalog table and the SQL fragment used by the client           *)
(* ===================================================================== *)

Module Sql.

(** An integer cell as DuckDB-WASM hands it over in [row.toJSON()]:
    INT32 columns arrive as numbers, INT64 columns as BigInt. *)
Inductive intcell : Type :=
| IntNull
| Int32 (z : Z)
| Int64 (z : Z).

(** One row of [catalog.parquet], restricted to the selected columns.  The
    bbox covering columns and [datetime] are taken to be non-NULL, as the
    geometry and the ordering of the search rely on them. *)
Record Row : Type := mkRow {
  id : string;
  title : option string;
  datetime : Z;
  gsd : option Q;
  platform_type : option string;
  producer_name : option string;
  license : option string;
  cog_href : option string;
  thumbnail_href : option string;
  file_size : intcell;
  width : intcell;
  height : intcell;
  bands : intcell;
  epsg : intcell;
  uploaded_by : option string;
  uploaded_at : option Z;
  bbox_xmin : Q;
  bbox_ymin : Q;
  bbox_xmax : Q;
  bbox_ymax : Q
}.

(** [LOWER(x)] on a nullable VARCHAR. *)
Definition LOWER {casing : JS.Casing} (x : option string) : option string :=
  option_map JS.lower_text x.

(** [text LIKE pattern]: [%] matches any run of characters, [_] matches
    exactly one character, every other character matches itself. *)
Fixpoint like (pattern text : list ascii) : bool :=
  match pattern with
  | [] => match text with [] => true | _ :: _ => false end
  | p :: pattern' =>
      if Ascii.eqb p "%"%char then
        (fix any_suffix (t : list ascii) : bool :=
           like pattern' t
           || match t with
              | [] => false
              | _ :: t' => any_suffix t'
              end) text
      else if Ascii.eqb p "_"%char then
        match text with
        | [] => false
        | _ :: text' => like pattern' text'
        end
      else
        match text with
        | [] => false
        | c :: text' => Ascii.eqb p c && like pattern' text'
        end
  end.

Definition LIKE (text pattern : string) : bool :=
  like (list_ascii_of_string pattern) (list_ascii_of_string text).

(** The conditions [searchCatalog] pushes, with the value bound to each
    placeholder. *)
Inductive cond : Type :=
| BboxOverlap (west east south north : Q)
    (* bbox.xmax >= ? AND bbox.xmin <= ? AND bbox.ymax >= ? AND bbox.ymin <= ? *)
| DatetimeGe (p : string)          (* datetime >= ? *)
| DatetimeLe (p : string)          (* datetime <= ? *)
| PlatformUavOrDrone
    (* (LOWER(platform_type) = 'uav' OR LOWER(platform_type) = 'drone') *)
| PlatformEq (p : string)          (* LOWER(platform_type) = ? *)
| LicenseLike (p : string)         (* LOWER(license) LIKE ? *)
| GsdLe (p : Q)                    (* gsd <= ? *)
| TitleLike (p : string).          (* LOWER(title) LIKE ? *)

(** SQL truth values: [None] is NULL. *)
Definition sql_or (a b : option bool) : option bool :=
  match a, b with
  | Some true, _ | _, Some true => Some true
  | Some false, Some false => Some false
  | _, _ => None
  end.

Definition sql_and (a b : option bool) : option bool :=
  match a, b with
  | Some false, _ | _, Some false => Some false
  | Some true, Some true => Some true
  | _, _ => None
  end.

Section Eval.
Context {casing : JS.Casing}.

(** The engine's reading of a VARCHAR parameter that is compared with the
    TIMESTAMP column: the instant the text stands for, or [None] when the
    engine refuses the text.  Which texts an engine accepts is its own
    matter, not the source's: the reading is a parameter. *)
Variable cast_timestamp : string -> option Z.

(** The statement fails when the engine refuses a parameter that is
    compared with the TIMESTAMP column. *)
Definition bindable (c : cond) : bool :=
  match c with
  | DatetimeGe p | DatetimeLe p =>
      match cast_timestamp p with Some _ => true | None => false end
  | _ => true
  end.

Definition eval_cond (r : Row) (c : cond) : option bool :=
  match c with
  | BboxOverlap west east south north =>
      Some (Qle_bool west (bbox_xmax r) && Qle_bool (bbox_xmin r) east
            && Qle_bool south (bbox_ymax r) && Qle_bool (bbox_ymin r) north)
  | DatetimeGe p =>
      option_map (fun t => (t <=? datetime r)%Z) (cast_timestamp p)
  | DatetimeLe p =>
      option_map (fun t => (datetime r <=? t)%Z) (cast_timestamp p)
  | PlatformUavOrDrone =>
      sql_or (option_map (fun s => String.eqb s "uav") (LOWER (platform_type r)))
             (option_map (fun s => String.eqb s "drone") (LOWER (platform_type r)))
  | PlatformEq p =>
      option_map (fun s => String.eqb s p) (LOWER (platform_type r))
  | LicenseLike p =>
      option_map (fun s => LIKE s p) (LOWER (license r))
  | GsdLe p =>
      option_map (fun g => Qle_bool g p) (gsd r)
  | TitleLike p =>
      option_map (fun s => LIKE s p) (LOWER (title r))
  end.

(** [c1 AND c2 AND ...]; the empty conjunction is no WHERE clause. *)
Definition eval_where (conds : list cond) (r : Row) : option bool :=
  fold_right (fun c acc => sql_and (eval_cond r c) acc) (Some true) conds.

(** WHERE keeps the rows on which the condition is TRUE. *)
Definition keeps (conds : list cond) (r : Row) : bool :=
  match eval_where conds r with Some true => true | _ => false end.
End Eval.

(** [ORDER BY datetime DESC].  The engine leaves the relative order of rows
    with equal [datetime] unspecified; this model keeps them in scan order
    (a stable insertion sort). *)
Fixpoint insert_desc (r : Row) (sorted : list Row) : list Row :=
  match sorted with
  | [] => [r]
  | x :: rest =>
      if (datetime x <=? datetime r)%Z then r :: x :: rest
      else x :: insert_desc r rest
  end.

Definition order_by_datetime_desc (rows : list Row) : list Row :=
  fold_right insert_desc [] rows.

(** [LIMIT n]. *)
Definition LIMIT (n : nat) (rows : list Row) : list Row := firstn n rows.

End Sql.

(* ===================================================================== *)
(** * frontend/src/lib/catalog.js                                         *)
(* ===================================================================== *)

Module Catalog.
Import JS Sql.

(** What lies outside the page: the outcome of bootstrapping DuckDB-WASM
    (bundle selection, worker, instantiate, connect), what
    [read_parquet(CATALOG_URL)] yields, the engine's timestamp cast, and
    what [Number(...)] makes of a HUGEINT cell: such a cell reaches
    JavaScript as an object of the Arrow library, whose conversion to a
    Number is that library's and may throw ([None]). *)
Record World : Type := mkWorld {
  setup : outcome unit;
  parquet : outcome (list Row);
  cast_timestamp : string -> option Z;
  number_of_hugeint : Z -> option Z
}.

(** Module-level state: [conn] (null or a connection), [initPromise]
    (null or a promise of the heap).  [launches] counts how many times the
    body of the async arrow function in [initCatalog] was started. *)
Record Runtime : Type := mkRuntime {
  conn : bool;
  initPromise : option nat;
  heap : list pstate;
  launches : nat
}.

Definition boot : Runtime :=
  {| conn := false; initPromise := None; heap := []; launches := 0 |}.

(** [initCatalog()] up to its [return]: hands back the stored promise, or
    starts the setup body, stores its promise and hands that back. *)
Definition initCatalog (rt : Runtime) : nat * Runtime :=
  match initPromise rt with
  | Some p => (p, rt)
  | None =>
      let p := length (heap rt) in
      (p, {| conn := conn rt;
             initPromise := Some p;
             heap := heap rt ++ [Pending];
             launches := S (launches rt) |})
  end.

(** The setup body started by [initCatalog] reaches its end: on success
    [conn] is assigned and the promise fulfils, on failure the promise
    rejects and [conn] stays as it was.  Promises settle once. *)
Definition finish_setup (o : outcome unit) (rt : Runtime) : Runtime :=
  match initPromise rt with
  | Some p =>
      match heap rt !! p with
      | Some Pending =>
          match o with
          | Resolved _ =>
              {| conn := true; initPromise := initPromise rt;
                 heap := <[p := Fulfilled]> (heap rt);
                 launches := launches rt |}
          | Rejected e =>
              {| conn := conn rt; initPromise := initPromise rt;
                 heap := <[p := Failed e]> (heap rt);
                 launches := launches rt |}
          end
      | _ => rt
      end
  | None => rt
  end.

(** What a caller holding promise [p] observes once it has settled. *)
Definition observe (rt : Runtime) (p : nat) : option (outcome unit) :=
  match heap rt !! p with
  | Some Fulfilled => Some (Resolved tt)
  | Some (Failed e) => Some (Rejected e)
  | _ => None
  end.

(** [if (!conn) await initCatalog();] run to completion in world [w]. *)
Definition ensure_conn (w : World) (rt : Runtime) : outcome unit * Runtime :=
  if conn rt then (Resolved tt, rt)
  else
    let '(p, rt1) := initCatalog rt in
    let rt2 := finish_setup (setup w) rt1 in
    match observe rt2 p with
    | Some o => (o, rt2)
    | None => (Rejected "initCatalog: promise never settles", rt2)
    end.

(** Arguments of [searchCatalog], with the defaults of its signature. *)
Record SearchParams : Type := mkParams {
  q_bbox : option (Q * Q * Q * Q);   (* [west, south, east, north] *)
  q_dateStart : string;
  q_dateEnd : string;
  q_platform : string;
  q_license : string;
  q_maxGsd : option Q;
  q_query : string;
  q_limit : nat
}.

Definition defaults : SearchParams :=
  {| q_bbox := None; q_dateStart := ""; q_dateEnd := ""; q_platform := "";
     q_license := ""; q_maxGsd := None; q_query := ""; q_limit := 200 |}.

(** The same arguments with another [bbox]. *)
Definition with_bbox (b : option (Q * Q * Q * Q)) (a : SearchParams)
  : SearchParams :=
  {| q_bbox := b; q_dateStart := q_dateStart a; q_dateEnd := q_dateEnd a;
     q_platform := q_platform a; q_license := q_license a;
     q_maxGsd := q_maxGsd a; q_query := q_query a; q_limit := q_limit a |}.

(** The [conditions]/[params] arrays built by [searchCatalog]. *)
Definition build_conditions {casing : Casing} (a : SearchParams) : list cond :=
  (match q_bbox a with
   | Some (west, south, east, north) => [BboxOverlap west east south north]
   | None => []
   end)
  ++ (if truthy_string (q_dateStart a) then [DatetimeGe (q_dateStart a)] else [])
  ++ (if truthy_string (q_dateEnd a)
      then [DatetimeLe (q_dateEnd a ++ "T23:59:59.999Z")] else [])
  ++ (if truthy_string (q_platform a) then
        if String.eqb (q_platform a) "uav" then [PlatformUavOrDrone]
        else [PlatformEq (toLowerCase (q_platform a))]
      else [])
  ++ (if truthy_string (q_license a)
      then [LicenseLike ("%" ++ toLowerCase (q_license a) ++ "%")] else [])
  ++ (if truthy_number (q_maxGsd a) then
        match q_maxGsd a with Some g => [GsdLe g] | None => [] end
      else [])
  ++ (if truthy_string (q_query a)
      then [TitleLike ("%" ++ toLowerCase (q_query a) ++ "%")] else []).

(** GeoJSON produced for one row. *)
Record Geometry : Type := mkGeometry {
  g_type : string;
  coordinates : list (list (Q * Q))
}.

(** The properties of a feature.  The three time properties name the
    instant held by the TIMESTAMP cell, written as the cell has it, in
    microseconds; in the browser [row.toJSON()] hands that instant over
    as a Number of milliseconds, and so it does with the [earliest] and
    [latest] of the statistics.  The recoding is the same for every cell
    and keeps the order of instants; these values are compared with each
    other only. *)
Record Properties : Type := mkProperties {
  p_id : string;
  p_title : string;
  p_datetime : Z;
  p_date : Z;
  p_gsd : option Q;
  p_platform : string;
  p_platform_type : option string;
  p_producer_name : string;
  p_provider : string;
  p_license : string;
  p_cog_href : option string;
  p_thumbnail : option string;
  p_thumbnail_href : option string;
  p_file_size : value;
  p_width : value;
  p_height : value;
  p_bands : value;
  p_epsg : value;
  p_uploaded_by : option string;
  p_uploaded_at : option Z
}.

Record Feature : Type := mkFeature {
  f_type : string;
  geometry : Geometry;
  properties : Properties
}.

(** [row.toJSON()] on an integer cell. *)
Definition cell_value (c : intcell) : value :=
  match c with
  | IntNull => VNull
  | Int32 z => VNumber (inject_Z z)
  | Int64 z => VBigInt z
  end.

(** [const num = (v) => (typeof v === 'bigint' ? Number(v) : v)]. *)
Definition num (v : value) : value :=
  match v with
  | VBigInt z => VNumber (inject_Z (Number_of_bigint z))
  | _ => v
  end.

(** The arrow function mapped over [rows]. *)
Definition toFeature (row : Row) : Feature :=
  {| f_type := "Feature";
     geometry :=
       {| g_type := "Polygon";
          coordinates :=
            [[ (bbox_xmin row, bbox_ymin row);
               (bbox_xmax row, bbox_ymin row);
               (bbox_xmax row, bbox_ymax row);
               (bbox_xmin row, bbox_ymax row);
               (bbox_xmin row, bbox_ymin row) ]] |};
     properties :=
       {| p_id := id row;
          p_title := or_default (title row) "Untitled Image";
          p_datetime := datetime row;
          p_date := datetime row;
          p_gsd := gsd row;
          p_platform := or_default (platform_type row) "unknown";
          p_platform_type := platform_type row;
          p_producer_name := or_default (producer_name row) "Unknown";
          p_provider := or_default (producer_name row) "Unknown";
          p_license := or_default (license row) "Unknown";
          p_cog_href := cog_href row;
          p_thumbnail := thumbnail_href row;
          p_thumbnail_href := thumbnail_href row;
          p_file_size := num (cell_value (file_size row));
          p_width := num (cell_value (width row));
          p_height := num (cell_value (height row));
          p_bands := num (cell_value (bands row));
          p_epsg := num (cell_value (epsg row));
          p_uploaded_by := uploaded_by row;
          p_uploaded_at := uploaded_at row |} |}.

(** The rows the prepared statement yields: the engine rejects the query
    when the file cannot be read or a timestamp parameter does not cast;
    otherwise WHERE, ORDER BY datetime DESC, LIMIT. *)
Definition run_query {casing : Casing} (w : World) (a : SearchParams)
  : outcome (list Row) :=
  let conds := build_conditions a in
  match parquet w with
  | Rejected e => Rejected e
  | Resolved table =>
      if forallb (bindable (cast_timestamp w)) conds then
        Resolved (LIMIT (q_limit a)
                    (order_by_datetime_desc
                       (List.filter (keeps (cast_timestamp w) conds) table)))
      else Rejected "Conversion Error: invalid timestamp"
  end.

(** [searchCatalog(params)] run to completion. *)
Definition searchCatalog {casing : Casing} (w : World) (a : SearchParams)
    (rt : Runtime) : outcome (list Feature) * Runtime :=
  match ensure_conn w rt with
  | (Rejected e, rt') => (Rejected e, rt')
  | (Resolved _, rt') =>
      match run_query w a with
      | Rejected e => (Rejected e, rt')
      | Resolved rows => (Resolved (map toFeature rows), rt')
      end
  end.

(** The object returned by [getCatalogStats]. *)
Record Stats : Type := mkStats {
  totalImages : Z;
  earliest : option Z;
  latest : option Z;
  platformCount : Z;
  totalSizeBytes : Z
}.

Definition zero_stats : Stats :=
  {| totalImages := 0; earliest := None; latest := None;
     platformCount := 0; totalSizeBytes := 0 |}.

(** The aggregate row of the statistics query, as the engine computes it. *)
Definition cell_int (c : intcell) : option Z :=
  match c with IntNull => None | Int32 z | Int64 z => Some z end.

Definition minimum (l : list Z) : option Z :=
  match l with [] => None | x :: xs => Some (fold_right Z.min x xs) end.

Definition maximum (l : list Z) : option Z :=
  match l with [] => None | x :: xs => Some (fold_right Z.max x xs) end.

Fixpoint distinct (l : list string) : list string :=
  match l with
  | [] => []
  | x :: xs => if existsb (String.eqb x) xs then distinct xs else x :: distinct xs
  end.

(** [SUM(x)]: NULL when there is no value to add, a HUGEINT otherwise. *)
Definition SUM (l : list Z) : option Z :=
  match l with
  | [] => None
  | _ :: _ => Some (fold_right Z.add 0%Z l)
  end.

(** [Number(row.total_size_bytes)]: [Number(null)] is 0; the conversion of
    a sum is the Arrow library's. *)
Definition Number_of_sum (w : World) (sum : option Z) : option Z :=
  match sum with
  | None => Some 0%Z
  | Some z => number_of_hugeint w z
  end.

(** The object made of the aggregate row, unless a conversion throws. *)
Definition aggregate (w : World) (table : list Row) : option Stats :=
  match Number_of_sum w
          (SUM (omap (fun r => cell_int (file_size r)) table)) with
  | Some size =>
      Some {| totalImages := Number_of_bigint (Z.of_nat (length table));
              earliest := minimum (map datetime table);
              latest := maximum (map datetime table);
              platformCount :=
                Number_of_bigint
                  (Z.of_nat (length (distinct (omap platform_type table))));
              totalSizeBytes := size |}
  | None => None
  end.

(** [getCatalogStats()] run to completion: the connection is ensured before
    the [try]; the query and the conversions of its row sit inside it, and
    whatever is thrown there is answered with the zeroed object. *)
Definition getCatalogStats (w : World) (rt : Runtime)
  : outcome Stats * Runtime :=
  match ensure_conn w rt with
  | (Rejected e, rt') => (Rejected e, rt')
  | (Resolved _, rt') =>
      match parquet w with
      | Resolved table =>
          match aggregate w table with
          | Some stats => (Resolved stats, rt')
          | None => (Resolved zero_stats, rt')
          end
      | Rejected _ => (Resolved zero_stats, rt')
      end
  end.

End Catalog.

(* ===================================================================== *)
(** * frontend/src/App.jsx: runSearch and the debounced search effect     *)
(* ===================================================================== *)

Module App.
Import JS Sql Catalog.

Definition Bbox : Type := (Q * Q * Q * Q)%type.

(** The [filters] state. *)
Record Filters : Type := mkFilters {
  dateStart : string;
  dateEnd : string;
  platform : string;
  license : string
}.

Definition no_filters : Filters :=
  {| dateStart := ""; dateEnd := ""; platform := ""; license := "" |}.

(** The argument object [runSearch] passes to [searchCatalog]. *)
Definition search_args (bbox : Bbox) (f : Filters) : SearchParams :=
  {| q_bbox := Some bbox;
     q_dateStart := dateStart f;
     q_dateEnd := dateEnd f;
     q_platform := platform f;
     q_license := license f;
     q_maxGsd := q_maxGsd defaults;
     q_query := q_query defaults;
     q_limit := q_limit defaults |}.

(** Component state that the search path reads or writes.  [searchDebounce]
    is the armed timer, if any, with the arguments its callback closed
    over.  [inflight], [issued] and [uploads] are bookkeeping of the
    model, the code keeps no such numbers: [issued] counts the [runSearch]
    calls that reached their [await], [inflight] maps the number of each
    suspended call to what its [searchCatalog] will hand back, and
    [uploads] lists, for each upload started in the modal, what the
    [onUploadComplete] of that moment closed over: the viewport, the
    filters and the [catalogReady] of its [runSearch].  (The interval
    started by [pollStatus] keeps the [onUploadComplete] of the render in
    which [handleUpload] was called, not the one of later renders.) *)
Record State : Type := mkState {
  catalogReady : bool;
  features : list Feature;
  isSearching : bool;
  viewportBbox : option Bbox;
  filters : Filters;
  searchDebounce : option (Bbox * Filters);
  inflight : gmap nat (outcome (list Feature));
  issued : nat;
  runtime : Runtime;
  uploads : list (option Bbox * Filters * bool)
}.

Definition initial : State :=
  {| catalogReady := false; features := []; isSearching := false;
     viewportBbox := None; filters := no_filters; searchDebounce := None;
     inflight := ∅; issued := 0; runtime := boot;
     uploads := [] |}.

(** [runSearch(bbox, currentFilters)] up to its [await], for the
    [runSearch] of a render in which [catalogReady] was [ready]. *)
Definition runSearch_call {casing : Casing} (w : World) (ready : bool)
    (bbox : option Bbox) (f : Filters) (s : State) : State :=
  match bbox with
  | None => s
  | Some b =>
      if negb ready then s
      else
        let '(res, rt') := searchCatalog w (search_args b f) (runtime s) in
        {| catalogReady := catalogReady s;
           features := features s;
           isSearching := true;
           viewportBbox := viewportBbox s;
           filters := filters s;
           searchDebounce := searchDebounce s;
           inflight := <[issued s := res]> (inflight s);
           issued := S (issued s);
           runtime := rt'; uploads := uploads s |}
  end.

(** The continuation of call number [k] after its [await]:
    [setFeatures(results)] on success, a console warning on failure, then
    [setIsSearching(false)]. *)
Definition runSearch_resume (k : nat) (s : State) : State :=
  match inflight s !! k with
  | None => s
  | Some res =>
      {| catalogReady := catalogReady s;
         features := match res with
                     | Resolved results => results
                     | Rejected _ => features s
                     end;
         isSearching := false;
         viewportBbox := viewportBbox s;
         filters := filters s;
         searchDebounce := searchDebounce s;
         inflight := delete k (inflight s);
         issued := issued s;
         runtime := runtime s; uploads := uploads s |}
  end.

(** The effect on [viewportBbox, filters, runSearch]: the cleanup of the
    previous run clears its timer, then a new 300 ms timer is armed unless
    there is no viewport yet. *)
Definition arm (s : State) : State :=
  {| catalogReady := catalogReady s;
     features := features s;
     isSearching := isSearching s;
     viewportBbox := viewportBbox s;
     filters := filters s;
     searchDebounce :=
       match viewportBbox s with
       | Some b => Some (b, filters s)
       | None => None
       end;
     inflight := inflight s;
     issued := issued s;
     runtime := runtime s; uploads := uploads s |}.

Inductive event : Type :=
| MapMoveEnd (exactBounds : Bbox)     (* handleMapMoveEnd: setViewportBbox *)
| FilterChange (f : Filters)          (* handleFilterChange: setFilters *)
| InitSettles                         (* initCatalog() of the mount effect settles *)
| TimerFires                          (* the debounce timeout elapses *)
| UploadStarts                        (* handleUpload of the modal is called *)
| UploadComplete (u : nat)            (* onUploadComplete of upload u *)
| SearchSettles (k : nat).            (* searchCatalog of call k settles *)

Definition step {casing : Casing} (w : World) (s : State) (e : event) : State :=
  match e with
  | MapMoveEnd b =>
      arm {| catalogReady := catalogReady s; features := features s;
             isSearching := isSearching s; viewportBbox := Some b;
             filters := filters s; searchDebounce := searchDebounce s;
             inflight := inflight s; issued := issued s;
             runtime := runtime s; uploads := uploads s |}
  | FilterChange f =>
      arm {| catalogReady := catalogReady s; features := features s;
             isSearching := isSearching s; viewportBbox := viewportBbox s;
             filters := f; searchDebounce := searchDebounce s;
             inflight := inflight s; issued := issued s;
             runtime := runtime s; uploads := uploads s |}
  | InitSettles =>
      let '(p, rt1) := initCatalog (runtime s) in
      let rt2 := finish_setup (setup w) rt1 in
      match observe rt2 p with
      | Some (Resolved _) =>
          (* setCatalogReady(true): runSearch changes, the effect re-runs *)
          arm {| catalogReady := true; features := features s;
                 isSearching := isSearching s;
                 viewportBbox := viewportBbox s;
                 filters := filters s; searchDebounce := searchDebounce s;
                 inflight := inflight s; issued := issued s;
                 runtime := rt2; uploads := uploads s |}
      | _ =>
          {| catalogReady := catalogReady s; features := features s;
             isSearching := isSearching s; viewportBbox := viewportBbox s;
             filters := filters s; searchDebounce := searchDebounce s;
             inflight := inflight s; issued := issued s;
             runtime := rt2; uploads := uploads s |}
      end
  | TimerFires =>
      match searchDebounce s with
      | None => s
      | Some (b, f) =>
          (* the effect re-arms the timer whenever [runSearch] changes, so
             the armed callback holds the current [runSearch] *)
          runSearch_call w (catalogReady s) (Some b) f
            {| catalogReady := catalogReady s; features := features s;
               isSearching := isSearching s; viewportBbox := viewportBbox s;
               filters := filters s; searchDebounce := None;
               inflight := inflight s; issued := issued s;
               runtime := runtime s; uploads := uploads s |}
      end
  | UploadStarts =>
      {| catalogReady := catalogReady s; features := features s;
         isSearching := isSearching s; viewportBbox := viewportBbox s;
         filters := filters s; searchDebounce := searchDebounce s;
         inflight := inflight s; issued := issued s;
         runtime := runtime s;
         uploads := uploads s
                    ++ [(viewportBbox s, filters s, catalogReady s)] |}
  | UploadComplete u =>
      (* if (viewportBbox) runSearch(viewportBbox, filters), all three as
         the closure of upload [u] holds them *)
      match uploads s !! u with
      | Some (bbox, f, ready) => runSearch_call w ready bbox f s
      | None => s
      end
  | SearchSettles k => runSearch_resume k s
  end.

Definition run {casing : Casing} (w : World) (s : State) (trace : list event)
  : State :=
  fold_left (step w) trace s.

Definition is_settle (e : event) : bool :=
  match e with SearchSettles _ => true | _ => false end.

(** No search settles with a result in the course of [trace], run from
    [s]: every search that settles there settles with an error (or is not
    in flight at all). *)
Fixpoint no_result {casing : Casing} (w : World) (s : State) (trace : list event)
  : Prop :=
  match trace with
  | [] => True
  | e :: rest =>
      match e with
      | SearchSettles k =>
          match inflight s !! k with
          | Some (Resolved _) => False
          | _ => True
          end
      | _ => True
      end
      /\ no_result w (step w s e) rest
  end.

End App.

(* ===================================================================== *)
(** * frontend/src/components/UploadModal.jsx: pollStatus                 *)
(* ===================================================================== *)

Module Upload.

(** The [status] state of the modal. *)
Inductive ui_status : Type :=
| Idle | Requesting | Uploading | Processing | Complete | Error.

(** The parsed body of [status.json]. *)
Record StatusDoc : Type := mkDoc {
  d_step : option string;
  d_status : option string;
  d_error : option string
}.

(** What one [fetch(statusUrl)] ends with: the fetch or [resp.json()]
    throws, the response is not ok, or the body parses. *)
Inductive response : Type :=
| Throws
| NotOk
| Ok (data : StatusDoc).

(** Modal state touched by polling.  [interval] is [pollRef.current] while
    the timer is armed; [fetches] counts the requests sent and
    [completions] the calls of [onUploadComplete]. *)
Record Modal : Type := mkModal {
  status : ui_status;
  error : string;
  processingStep : option string;
  interval : bool;
  pollCount : nat;
  fetches : nat;
  completions : nat
}.

Definition maxPolls : nat := 120.

Definition timeout_message : string :=
  "Processing timed out. The image may still be processing — check back later.".

(** [statusUrl] of [pollStatus(id)]. *)
Definition statusUrl (id : string) : string :=
  ("https://cn-oam.s3.amazonaws.com/uploads/" ++ id ++ "/status.json")%string.

(** The modal as [pollStatus] finds and leaves it when called from
    [handleUpload]: status ['processing'], no step shown, and the interval
    armed with [pollCount = 0]. *)
Definition armed : Modal :=
  {| status := Processing; error := ""; processingStep := None;
     interval := true; pollCount := 0; fetches := 0; completions := 0 |}.

Definition truthy (o : option string) : bool :=
  match o with Some s => JS.truthy_string s | None => false end.

(** [if (data.step) setProcessingStep(data.step)]. *)
Definition show_step (data : StatusDoc) (m : Modal) : option string :=
  if truthy (d_step data) then d_step data else processingStep m.

(** [data.status === s]. *)
Definition status_is (data : StatusDoc) (s : string) : bool :=
  match d_status data with
  | Some x => String.eqb x s
  | None => false
  end.

(** One firing of the interval callback; [resp] is what the status URL
    answers at that moment, consulted only if the callback gets as far as
    fetching.  A request is taken to be answered before the next firing,
    three seconds later. *)
Definition tick (resp : response) (m : Modal) : Modal :=
  if negb (interval m) then m
  else
    let count := S (pollCount m) in
    if Nat.ltb maxPolls count then
      {| status := Error; error := timeout_message;
         processingStep := processingStep m; interval := false;
         pollCount := count; fetches := fetches m;
         completions := completions m |}
    else
      match resp with
      | Ok data =>
          if status_is data "complete" then
            {| status := Complete; error := error m;
               processingStep := Some "done"; interval := false;
               pollCount := count; fetches := S (fetches m);
               completions := S (completions m) |}
          else if status_is data "error" then
            {| status := Error;
               error := JS.or_default (d_error data) "Processing failed";
               processingStep := show_step data m; interval := false;
               pollCount := count; fetches := S (fetches m);
               completions := completions m |}
          else
            {| status := status m; error := error m;
               processingStep := show_step data m; interval := interval m;
               pollCount := count; fetches := S (fetches m);
               completions := completions m |}
      | Throws | NotOk =>
          {| status := status m; error := error m;
             processingStep := processingStep m; interval := interval m;
             pollCount := count; fetches := S (fetches m);
             completions := completions m |}
      end.

(** [pollStatus(id)] followed by the first [n] firings of its interval;
    [server url i] is what [url] answers at firing [i] (counted from 0). *)
Fixpoint pollStatus (id : string) (server : string -> nat -> response)
    (n : nat) : Modal :=
  match n with
  | O => armed
  | S k => tick (server (statusUrl id) k) (pollStatus id server k)
  end.

(** A status document that ends polling. *)
Definition terminal (resp : response) : bool :=
  match resp with
  | Ok data => status_is data "complete" || status_is data "error"
  | _ => false
  end.

(** A status URL that never has anything to report, and one on which the
    pipeline reports success at firing 130. *)
Definition silent (url : string) (i : nat) : response := Throws.

Definition late_success (url : string) (i : nat) : response :=
  if Nat.ltb i 130
  then Ok {| d_step := Some "converting"; d_status := Some "processing";
             d_error := None |}
  else Ok {| d_step := Some "done"; d_status := Some "complete";
             d_error := None |}.

End Upload.

(* ===================================================================== *)
(** * Callers of initCatalog, interleaved with the end of the setup       *)
(* ===================================================================== *)

Module Flight.
Import JS Catalog.

(** A caller invokes [initCatalog()], or the setup body that is under way
    ends with the given outcome. *)
Inductive event : Type :=
| CallInit
| SetupEnds (o : outcome unit).

(** The module state together with the promise handed to each caller, most
    recent first. *)
Record Obs : Type := mkObs {
  rt : Runtime;
  handed : list nat
}.

Definition start : Obs := {| rt := boot; handed := [] |}.

Definition step (s : Obs) (e : event) : Obs :=
  match e with
  | CallInit =>
      let '(p, rt') := initCatalog (rt s) in
      {| rt := rt'; handed := p :: handed s |}
  | SetupEnds o =>
      {| rt := finish_setup o (rt s); handed := handed s |}
  end.

Definition run (trace : list event) : Obs := fold_left step trace start.

Definition is_call (e : event) : bool :=
  match e with CallInit => true | SetupEnds _ => false end.

(** The shape of every reachable state: nothing has happened yet, or one
    setup was started, its promise is the only one, and every caller holds
    it. *)
Definition single_flight (s : Obs) : Prop :=
  match initPromise (rt s) with
  | None =>
      handed s = [] /\ heap (rt s) = [] /\ launches (rt s) = 0%nat
  | Some p =>
      p = 0%nat /\ length (heap (rt s)) = 1%nat
      /\ launches (rt s) = 1%nat /\ Forall (eq 0%nat) (handed s)
  end.

End Flight.

(* ===================================================================== *)
(** * The statements of the specification, in its own words               *)
(* ===================================================================== *)

Module Spec.
Import JS Sql Catalog.

(** [xmax >= west /\ xmin <= east /\ ymax >= south /\ ymin <= north]. *)
Definition overlaps (r : Row) (west south east north : Q) : Prop :=
  (west <= bbox_xmax r)%Q /\ (bbox_xmin r <= east)%Q
  /\ (south <= bbox_ymax r)%Q /\ (bbox_ymin r <= north)%Q.

(** Exact match up to letter case: the column, lowered by the engine, is
    the filter, lowered by the browser. *)
Definition exact_ci_match {casing : Casing} (filter : string)
    (column : option string) : Prop :=
  exists s, column = Some s /\ lower_text s = toLowerCase filter.

(** [x] occurs in [s] as a contiguous run of characters. *)
Definition substring (x s : string) : Prop :=
  exists pre post : list ascii,
    list_ascii_of_string s = pre ++ list_ascii_of_string x ++ post.

(** Neither of the two LIKE wildcards occurs in [s]. *)
Definition plain_char (c : ascii) : Prop := c <> "%"%char /\ c <> "_"%char.

Definition plain (s : string) : Prop :=
  Forall plain_char (list_ascii_of_string s).

(** Descending by datetime, ties by id ascending. *)
Definition before_with_tiebreak (f g : Feature) : Prop :=
  (p_datetime (properties g) < p_datetime (properties f))%Z
  \/ (p_datetime (properties f) = p_datetime (properties g)
      /\ String.leb (p_id (properties f)) (p_id (properties g)) = true).

Definition ordered_with_tiebreak (l : list Feature) : Prop :=
  StronglySorted before_with_tiebreak l.

(** Descending by datetime. *)
Definition datetime_desc (f g : Feature) : Prop :=
  (p_datetime (properties g) <= p_datetime (properties f))%Z.

Definition row_datetime_desc (x y : Row) : Prop :=
  (datetime y <= datetime x)%Z.

(** The same row with its footprint somewhere else. *)
Definition relocate (r : Row) (xmin ymin xmax ymax : Q) : Row :=
  {| id := id r; title := title r; datetime := datetime r; gsd := gsd r;
     platform_type := platform_type r; producer_name := producer_name r;
     license := license r; cog_href := cog_href r;
     thumbnail_href := thumbnail_href r; file_size := file_size r;
     width := width r; height := height r; bands := bands r; epsg := epsg r;
     uploaded_by := uploaded_by r; uploaded_at := uploaded_at r;
     bbox_xmin := xmin; bbox_ymin := ymin;
     bbox_xmax := xmax; bbox_ymax := ymax |}.

(** The five-point closed rectangle over a bbox. *)
Definition rectangle_ring (xmin ymin xmax ymax : Q) : list (Q * Q) :=
  [ (xmin, ymin); (xmax, ymin); (xmax, ymax); (xmin, ymax); (xmin, ymin) ].

(** A ring whose first point is also its last. *)
Definition closed (ring : list (Q * Q)) : Prop :=
  match ring with
  | [] => False
  | p :: _ => List.last ring p = p
  end.

(** The integer columns of a row and the properties made from them. *)
Definition int_cells (r : Row) : list intcell :=
  [ file_size r; width r; height r; bands r; epsg r ].

Definition int_properties (f : Feature) : list value :=
  [ p_file_size (properties f); p_width (properties f);
    p_height (properties f); p_bands (properties f);
    p_epsg (properties f) ].

(** A property made from an integer cell: a Number carrying the integer
    (exactly, up to [2^53] in magnitude), or [null] for a NULL cell. *)
Definition converted (c : intcell) (v : value) : Prop :=
  match c with
  | IntNull => v = VNull
  | Int32 z => v = VNumber (inject_Z z)
  | Int64 z =>
      exists n, v = VNumber (inject_Z n)
                /\ ((Z.abs z <= 2 ^ 53)%Z -> n = z)
  end.

(** What the WHERE clause of [searchCatalog] amounts to, row by row: each
    supplied filter must hold; an absent filter constrains nothing.  Text
    is compared after lowering, the column by the engine and the filter by
    the browser. *)
Record matches {casing : Casing} (cast : string -> option Z) (a : SearchParams)
    (r : Row) : Prop := mkMatches {
  m_bbox :
    forall west south east north,
      q_bbox a = Some (west, south, east, north) ->
      overlaps r west south east north;
  m_dateStart :
    q_dateStart a <> "" ->
    exists t, cast (q_dateStart a) = Some t /\ (t <= datetime r)%Z;
  m_dateEnd :
    q_dateEnd a <> "" ->
    exists t, cast (q_dateEnd a ++ "T23:59:59.999Z")%string = Some t
              /\ (datetime r <= t)%Z;
  m_platform :
    q_platform a <> "" ->
    exists s, platform_type r = Some s
              /\ (if String.eqb (q_platform a) "uav"
                  then lower_text s = "uav" \/ lower_text s = "drone"
                  else lower_text s = toLowerCase (q_platform a));
  m_license :
    q_license a <> "" ->
    exists s, license r = Some s
              /\ substring (toLowerCase (q_license a)) (lower_text s);
  m_maxGsd :
    forall g, q_maxGsd a = Some g -> ~ (g == 0)%Q ->
    exists x, gsd r = Some x /\ (x <= g)%Q;
  m_query :
    q_query a <> "" ->
    exists s, title r = Some s
              /\ substring (toLowerCase (q_query a)) (lower_text s)
}.

End Spec.

(* ===================================================================== *)
(** * Sample catalogs                                                     *)
(* ===================================================================== *)

Module Samples.
Import JS Sql Catalog.

(** The samples are written in ASCII characters, on which the browser and
    the engine both lower the letters A to Z and nothing else. *)
#[export] Instance ascii_casing : Casing :=
  {| toLowerCase := fold_ascii; lower_text := fold_ascii |}.

(** An Arrow library that converts every sum as [Number] converts a
    BigInt. *)
Definition exact_sum (z : Z) : option Z := Some (Number_of_bigint z).

Definition blank (i : string) (t : Z) (xmin ymin xmax ymax : Q) : Row :=
  {| id := i; title := None; datetime := t; gsd := None;
     platform_type := None; producer_name := None; license := None;
     cog_href := None; thumbnail_href := None;
     file_size := IntNull; width := IntNull; height := IntNull;
     bands := IntNull; epsg := IntNull;
     uploaded_by := None; uploaded_at := None;
     bbox_xmin := xmin; bbox_ymin := ymin;
     bbox_xmax := xmax; bbox_ymax := ymax |}.

(** 2024-06-01T12:00:00Z and 2024-06-02T12:00:00Z in microseconds. *)
Definition june1 : Z := 1717243200000000.
Definition june2 : Z := 1717329600000000.

Definition rowA : Row :=
  {| id := "A"; title := Some "Harbour survey"; datetime := june1;
     gsd := Some (5 # 100);
     platform_type := Some "Drone"; producer_name := Some "HOT";
     license := Some "CC-BY-SA 4.0";
     cog_href := Some "s3://cn-oam/imagery/A.tif";
     thumbnail_href := Some "s3://cn-oam/thumbnails/A.webp";
     file_size := Int64 1048576; width := Int32 4096; height := Int32 4096;
     bands := Int32 3; epsg := Int32 3857;
     uploaded_by := Some "u1"; uploaded_at := Some june2;
     bbox_xmin := -5; bbox_ymin := -5; bbox_xmax := 5; bbox_ymax := 5 |}.

Definition rowB : Row := blank "B" june2 20 20 30 30.

(** Two rows taken at the same instant, stored with id [b] before id [a]. *)
Definition row_b : Row := blank "b" june1 0 0 1 1.
Definition row_a : Row := blank "a" june1 0 0 1 1.

(** A footprint covering a wide area. *)
Definition rowWide : Row := blank "W" june1 (-40) (-40) 40 40.

(** An engine cast that knows two timestamps. *)
Definition cast (s : string) : option Z :=
  if String.eqb s "2024-06-01" then Some 1717200000000000%Z
  else if String.eqb s "2024-06-01T23:59:59.999Z" then Some 1717286399999000%Z
  else None.

Definition world (table : list Row) : World :=
  {| setup := Resolved tt; parquet := Resolved table; cast_timestamp := cast;
     number_of_hugeint := exact_sum |}.

(** The page cannot start DuckDB-WASM. *)
Definition no_engine : World :=
  {| setup := Rejected "WebAssembly is not available";
     parquet := Resolved []; cast_timestamp := cast;
     number_of_hugeint := exact_sum |}.

(** The engine runs but the catalog file is not there. *)
Definition no_catalog : World :=
  {| setup := Resolved tt;
     parquet := Rejected "HTTP 404 (Not Found)"; cast_timestamp := cast;
     number_of_hugeint := exact_sum |}.

Definition scenarioA_bbox : Q * Q * Q * Q := (-10, -10, 10, 10)%Q.

(** A second viewport, around row B. *)
Definition far_bbox : Q * Q * Q * Q := (15, 15, 35, 35)%Q.

(** The page starts, the map settles on the first viewport and its search
    is issued, then the map moves to the second viewport and that search
    is issued too. *)
Definition two_searches : list App.event :=
  [ App.InitSettles;
    App.MapMoveEnd scenarioA_bbox; App.TimerFires;
    App.MapMoveEnd far_bbox; App.TimerFires ].

(** Filters with a start date that the engine of the samples cannot
    cast, and a run in which the search for the first viewport is followed
    by a search with these filters, which fails. *)
Definition bad_dates : App.Filters :=
  {| App.dateStart := "yesterday"; App.dateEnd := ""; App.platform := "";
     App.license := "" |}.

Definition failing_second : list App.event :=
  [ App.InitSettles;
    App.MapMoveEnd scenarioA_bbox; App.TimerFires;
    App.FilterChange bad_dates; App.TimerFires ].

(** An Arrow library whose conversion of a sum throws. *)
Definition throwing_sum (z : Z) : option Z := None.

Definition broken_arrow (table : list Row) : World :=
  {| setup := Resolved tt; parquet := Resolved table; cast_timestamp := cast;
     number_of_hugeint := throwing_sum |}.

(** Scenario A plus a licence filter, a platform filter, a limit of one,
    and a day range with a text filter. *)
Definition by_license : SearchParams :=
  {| q_bbox := Some scenarioA_bbox; q_dateStart := ""; q_dateEnd := "";
     q_platform := ""; q_license := "CC-BY"; q_maxGsd := None;
     q_query := ""; q_limit := 200 |}.

Definition by_platform : SearchParams :=
  {| q_bbox := Some scenarioA_bbox; q_dateStart := ""; q_dateEnd := "";
     q_platform := "uav"; q_license := ""; q_maxGsd := None;
     q_query := ""; q_limit := 200 |}.

Definition first_only : SearchParams :=
  {| q_bbox := Some scenarioA_bbox; q_dateStart := ""; q_dateEnd := "";
     q_platform := ""; q_license := ""; q_maxGsd := None;
     q_query := ""; q_limit := 1 |}.

Definition one_day : SearchParams :=
  {| q_bbox := Some scenarioA_bbox; q_dateStart := "2024-06-01";
     q_dateEnd := "2024-06-01"; q_platform := "uav"; q_license := "cc-by";
     q_maxGsd := Some (1 # 10); q_query := "harbour"; q_limit := 200 |}.

End Samples.

(* ===================================================================== *)
(** * frontend/src/lib/catalog.js: getItem, and calls in sequence          *)
(* ===================================================================== *)

Module Api.
Import JS Sql Catalog.

(** The same arguments with another [maxGsd]. *)
Definition with_maxGsd (g : option Q) (a : SearchParams) : SearchParams :=
  {| q_bbox := q_bbox a; q_dateStart := q_dateStart a;
     q_dateEnd := q_dateEnd a; q_platform := q_platform a;
     q_license := q_license a; q_maxGsd := g; q_query := q_query a;
     q_limit := q_limit a |}.

(** A single quote inside [id] ends the SQL string literal of [getItem]
    early. *)
Definition has_quote (id : string) : bool :=
  existsb (Ascii.eqb "'"%char) (list_ascii_of_string id).

Section Item.
Context {casing : Casing}.

(** What the engine makes of the statement of [getItem] when the id carries
    a quote and the text is no longer [... WHERE id = '<id>' LIMIT 1]. *)
Variable tampered : list Row -> string -> outcome (option Row).

(** [getItem(id)] run to completion: [null] when no row comes back, the
    first row otherwise.  Nothing is caught. *)
Definition getItem (w : World) (id : string) (rt : Runtime)
  : outcome (option Row) * Runtime :=
  match ensure_conn w rt with
  | (Rejected e, rt') => (Rejected e, rt')
  | (Resolved _, rt') =>
      match parquet w with
      | Rejected e => (Rejected e, rt')
      | Resolved table =>
          if has_quote id then (tampered table id, rt')
          else
            (Resolved (List.find (fun r => String.eqb (Sql.id r) id) table),
             rt')
      end
  end.

(** The three exported queries, called one after the other, each run to
    completion before the next. *)
Inductive call : Type :=
| Search (a : SearchParams)
| Stats
| Item (id : string).

Inductive reply : Type :=
| Features (l : list Feature)
| Statistics (s : Catalog.Stats)
| Found (r : option Row)
| Thrown (e : string).

Definition perform (w : World) (c : call) (rt : Runtime) : reply * Runtime :=
  match c with
  | Search a =>
      match searchCatalog w a rt with
      | (Resolved l, rt') => (Features l, rt')
      | (Rejected e, rt') => (Thrown e, rt')
      end
  | Stats =>
      match getCatalogStats w rt with
      | (Resolved s, rt') => (Statistics s, rt')
      | (Rejected e, rt') => (Thrown e, rt')
      end
  | Item id =>
      match getItem w id rt with
      | (Resolved r, rt') => (Found r, rt')
      | (Rejected e, rt') => (Thrown e, rt')
      end
  end.

Fixpoint session (w : World) (calls : list call) (rt : Runtime)
  : list reply * Runtime :=
  match calls with
  | [] => ([], rt)
  | c :: rest =>
      let '(r, rt1) := perform w c rt in
      let '(rs, rt2) := session w rest rt1 in
      (r :: rs, rt2)
  end.
End Item.

End Api.

(* ===================================================================== *)
(** * frontend/src/App.jsx: the address bar                               *)
(* ===================================================================== *)

(** [URLSearchParams]: an ordered list of name-value pairs.  The address
    bar is represented by the list itself: [params.toString()] written with
    [replaceState] and read again with [new URLSearchParams(...)] gives the
    same pairs. *)
Module Url.

Definition Params : Type := list (string * string).

(** [params.get(name)]: the value of the first pair with that name. *)
Fixpoint get (name : string) (p : Params) : option string :=
  match p with
  | [] => None
  | (k, v) :: rest => if String.eqb k name then Some v else get name rest
  end.

(** [params.delete(name)]: every pair with that name goes. *)
Definition delete (name : string) (p : Params) : Params :=
  List.filter (fun kv => negb (String.eqb (fst kv) name)) p.

(** [params.set(name, value)]: the first pair with that name takes the
    value and the others go; without such a pair one is appended. *)
Fixpoint set (name value : string) (p : Params) : Params :=
  match p with
  | [] => [(name, value)]
  | (k, v) :: rest =>
      if String.eqb k name then (k, value) :: delete name rest
      else (k, v) :: set name value rest
  end.

End Url.

Module Page.
Import JS Catalog App.

(** The initial value of the [filters] state: [params.get(key) || '']. *)
Definition initial_filters (url : Url.Params) : Filters :=
  {| dateStart := or_default (Url.get "dateStart" url) "";
     dateEnd := or_default (Url.get "dateEnd" url) "";
     platform := or_default (Url.get "platform" url) "";
     license := or_default (Url.get "license" url) "" |}.

(** [if (value) params.set(key, value); else params.delete(key);]. *)
Definition put (key value : string) (url : Url.Params) : Url.Params :=
  if truthy_string value then Url.set key value url else Url.delete key url.

(** What [handleFilterChange(newFilters)] writes to the address bar. *)
Definition handleFilterChange (f : Filters) (url : Url.Params) : Url.Params :=
  put "license" (license f)
    (put "platform" (platform f)
       (put "dateEnd" (dateEnd f)
          (put "dateStart" (dateStart f) url))).

(** [updateUrlSelection(feature)]. *)
Definition updateUrlSelection (feature : option Feature) (url : Url.Params)
  : Url.Params :=
  match feature with
  | Some f => Url.set "selected_id" (p_id (properties f)) url
  | None => Url.delete "selected_id" url
  end.

(** The selection and the flag [initialUrlSelectionDone]. *)
Record Selection : Type := mkSelection {
  selectedFeature : option Feature;
  initialUrlSelectionDone : bool
}.

(** [handleSelectFeature(feature)]: the state and the address bar. *)
Definition handleSelectFeature (feature : option Feature)
    (st : Selection * Url.Params) : Selection * Url.Params :=
  ({| selectedFeature := feature;
      initialUrlSelectionDone := initialUrlSelectionDone (fst st) |},
   updateUrlSelection feature (snd st)).

(** The effect on [features] that restores the selection named in the
    address bar, once. *)
Definition restore_selection (url : Url.Params) (features : list Feature)
    (st : Selection) : Selection :=
  match features with
  | [] => st
  | _ :: _ =>
      if initialUrlSelectionDone st then st
      else
        {| selectedFeature :=
             match Url.get "selected_id" url with
             | Some i =>
                 if truthy_string i then
                   match List.find
                           (fun f => String.eqb (p_id (properties f)) i)
                           features with
                   | Some f => Some f
                   | None => selectedFeature st
                   end
                 else selectedFeature st
             | None => selectedFeature st
             end;
           initialUrlSelectionDone := true |}
  end.

(** The selection of a freshly loaded page. *)
Definition fresh : Selection :=
  {| selectedFeature := None; initialUrlSelectionDone := false |}.

(** Viewport and filter changes, as opposed to timers and results. *)
Definition is_change (e : event) : bool :=
  match e with MapMoveEnd _ | FilterChange _ => true | _ => false end.





(** The page of a browser that cannot start the engine. *)
Definition never_ready (e : string) (s : State) : Prop :=
  catalogReady s = false /\ features s = [] /\ isSearching s = false
  /\ issued s = 0%nat /\ inflight s = ∅
  /\ (runtime s = boot
      \/ runtime s = {| conn := false; initPromise := Some 0%nat;
                        heap := [Failed e]; launches := 1 |})
  /\ Forall (fun u => snd u = false) (uploads s).

End Page.

(* ===================================================================== *)
(** * frontend/src/components/UploadModal.jsx: the form                   *)
(* ===================================================================== *)

Module UploadForm.
Import JS Upload.

(** The keys of [PROCESSING_STEPS], in order. *)
Definition PROCESSING_STEPS : list (string * string) :=
  [ ("downloading", "Downloading image");
    ("validating", "Validating image");
    ("converting", "Converting to COG");
    ("thumbnail", "Generating thumbnail");
    ("uploading", "Uploading results");
    ("cataloging", "Updating catalog");
    ("done", "Complete") ].

(** [steps.findIndex(s => s.key === key)], counting from [i]. *)
Fixpoint findIndex (key : string) (steps : list (string * string)) (i : Z)
  : Z :=
  match steps with
  | [] => (-1)%Z
  | s :: rest =>
      if String.eqb (fst s) key then i else findIndex key rest (i + 1)%Z
  end.

Definition currentStepIndex (processingStep : option string) : Z :=
  match processingStep with
  | Some key =>
      if truthy_string key then findIndex key PROCESSING_STEPS 0%Z
      else (-1)%Z
  | None => (-1)%Z
  end.

(** The three flags computed for step number [i] of the list. *)
Definition isActive (processingStep : option string) (i : nat) : bool :=
  match nth_error PROCESSING_STEPS i, processingStep with
  | Some s, Some key => String.eqb (fst s) key
  | _, _ => false
  end.

Definition isDone (processingStep : option string) (i : nat) : bool :=
  (Z.of_nat i <? currentStepIndex processingStep)%Z.

Definition isPending (processingStep : option string) (i : nat) : bool :=
  (currentStepIndex processingStep <? Z.of_nat i)%Z.

(** [dragCountRef] and [isDragging]. *)
Record Drag : Type := mkDrag {
  dragCount : Z;
  isDragging : bool
}.

Inductive drag_event : Type :=
| DragEnter
| DragLeave
| Drop.

Definition drag_step (d : Drag) (e : drag_event) : Drag :=
  match e with
  | DragEnter => {| dragCount := dragCount d + 1; isDragging := true |}
  | DragLeave =>
      {| dragCount := dragCount d - 1;
         isDragging := if (dragCount d - 1 =? 0)%Z then false
                       else isDragging d |}
  | Drop => {| dragCount := 0; isDragging := false |}
  end.

Definition drag_run (events : list drag_event) : Drag :=
  fold_left drag_step events {| dragCount := 0; isDragging := false |}.

(** Every leave follows an enter that it closes: the count of the elements
    the pointer is over never goes below zero. *)
Fixpoint nested (count : Z) (events : list drag_event) : bool :=
  match events with
  | [] => true
  | DragEnter :: rest => nested (count + 1) rest
  | DragLeave :: rest => (0 <? count)%Z && nested (count - 1) rest
  | Drop :: rest => nested 0 rest
  end.

(** Does [text] start with [pattern], letters compared without case? *)
Fixpoint starts_ci (pattern text : list ascii) : bool :=
  match pattern, text with
  | [], _ => true
  | _ :: _, [] => false
  | p :: pattern', c :: text' =>
      Ascii.eqb (lower_ascii c) p && starts_ci pattern' text'
  end.

(** The length of what [/\.tiff?$/i] matches in [name], zero for no match:
    the expression is anchored at the end, so the name is read backwards. *)
Definition tiff_extension (name : string) : nat :=
  let backwards := rev (list_ascii_of_string name) in
  if starts_ci (rev (list_ascii_of_string ".tiff")) backwards then 5
  else if starts_ci (rev (list_ascii_of_string ".tif")) backwards then 4
  else 0.

(** [name.match(/\.tiff?$/i)] as a truth value. *)
Definition is_tiff (name : string) : bool :=
  negb (Nat.eqb (tiff_extension name) 0).

(** [name.replace(/\.tiff?$/i, '')]. *)
Definition strip_tiff (name : string) : string :=
  string_of_list_ascii
    (firstn (length (list_ascii_of_string name) - tiff_extension name)
       (list_ascii_of_string name)).

(** The part of the form that choosing a file touches. *)
Record Picker : Type := mkPicker {
  file : option string;
  title : string;
  pick_error : string;
  drag : Drag
}.

(** [handleDrop], [dropped] being the names of [e.dataTransfer.files]. *)
Definition handleDrop (dropped : list string) (st : Picker) : Picker :=
  match dropped with
  | [] =>
      {| file := file st; title := title st; pick_error := pick_error st;
         drag := drag_step (drag st) Drop |}
  | f :: _ =>
      if is_tiff f then
        {| file := Some f;
           title := if truthy_string (title st) then title st
                    else strip_tiff f;
           pick_error := pick_error st;
           drag := drag_step (drag st) Drop |}
      else
        {| file := file st; title := title st;
           pick_error := "Please select a GeoTIFF file (.tif or .tiff)";
           drag := drag_step (drag st) Drop |}
  end.

(** [handleFileSelect], [chosen] being the name of [e.target.files[0]]. *)
Definition handleFileSelect (chosen : option string) (st : Picker) : Picker :=
  match chosen with
  | None => st
  | Some f =>
      {| file := Some f;
         title := if truthy_string (title st) then title st
                  else strip_tiff f;
         pick_error := "";
         drag := drag st |}
  end.

(** [s.trim()] for a string of ASCII characters, whose white space is
    tab, line feed, vertical tab, form feed, carriage return and space. *)
Definition is_space (c : ascii) : bool :=
  let n := N_of_ascii c in
  ((n =? 32) || ((9 <=? n) && (n <=? 13)))%N.

Fixpoint drop_spaces (l : list ascii) : list ascii :=
  match l with
  | [] => []
  | c :: rest => if is_space c then drop_spaces rest else l
  end.

Definition trim_ascii (s : string) : string :=
  string_of_list_ascii
    (rev (drop_spaces (rev (drop_spaces (list_ascii_of_string s))))).

(** What the upload API answers to the request for a presigned URL, and
    what the PUT of the file ends with. *)
Inductive auth_response : Type :=
| AuthThrows (message : string)
| AuthNotOk (status : nat) (body_error : option string)
| AuthOk (upload_id presigned_url : string).

Inductive put_response : Type :=
| PutLoaded (status : nat)
| PutNetworkError.

Inductive request : Type :=
| GetUpload (api title platform license apiKey : string)
| PutFile (presigned_url file : string).

(** The fields of the form and what [handleUpload] writes. *)
Record Form : Type := mkForm {
  f_file : option string;
  f_title : string;
  f_platform : string;
  f_license : string;
  f_apiKey : string;
  f_status : ui_status;
  f_error : string;
  f_uploadId : option string;
  f_processingStep : option string;
  f_polling : option string;     (* the id [pollStatus] was called with *)
  f_sent : list request
}.

Definition with_outcome (fm : Form) (st : ui_status) (err : string)
    (uid : option string) (step : option string) (poll : option string)
    (sent : list request) : Form :=
  {| f_file := f_file fm; f_title := f_title fm; f_platform := f_platform fm;
     f_license := f_license fm; f_apiKey := f_apiKey fm;
     f_status := st; f_error := err; f_uploadId := uid;
     f_processingStep := step; f_polling := poll; f_sent := sent |}.

Definition decimal (n : nat) : string :=
  NilEmpty.string_of_uint (Nat.to_uint n).

Section Submit.

(** [String.prototype.trim]. *)
Variable trim : string -> string.

(** [handleUpload()] run up to the call of [pollStatus], [api] being
    [UPLOAD_API_URL]; [auth] is what the request for a presigned URL ends
    with and [put] what the transfer of the file ends with, each consulted
    only if the function gets that far. *)
Definition handleUpload (api : string) (auth : auth_response)
    (put : put_response) (fm : Form) : Form :=
  match f_file fm with
  | None =>
      with_outcome fm (f_status fm) "Please fill in all required fields"
        (f_uploadId fm) (f_processingStep fm) (f_polling fm) (f_sent fm)
  | Some name =>
      if negb (truthy_string (trim (f_title fm)))
         || negb (truthy_string (trim (f_apiKey fm)))
      then
        with_outcome fm (f_status fm) "Please fill in all required fields"
          (f_uploadId fm) (f_processingStep fm) (f_polling fm) (f_sent fm)
      else if negb (truthy_string api) then
        with_outcome fm (f_status fm) "Upload API URL not configured"
          (f_uploadId fm) (f_processingStep fm) (f_polling fm) (f_sent fm)
      else
        let get := GetUpload api (trim (f_title fm)) (f_platform fm)
                     (f_license fm) (f_apiKey fm) in
        match auth with
        | AuthThrows message =>
            with_outcome fm Error message (f_uploadId fm)
              (f_processingStep fm) (f_polling fm) (f_sent fm ++ [get])
        | AuthNotOk status body_error =>
            with_outcome fm Error
              (match body_error with
               | Some e =>
                   if truthy_string e then e
                   else ("Auth failed (" ++ decimal status ++ ")")%string
               | None => ("Auth failed (" ++ decimal status ++ ")")%string
               end)
              (f_uploadId fm) (f_processingStep fm) (f_polling fm)
              (f_sent fm ++ [get])
        | AuthOk upload_id presigned_url =>
            let sent := f_sent fm ++ [get; PutFile presigned_url name] in
            match put with
            | PutLoaded status =>
                if (200 <=? status)%nat && (status <? 300)%nat then
                  with_outcome fm Processing "" (Some upload_id) None
                    (Some upload_id) sent
                else
                  with_outcome fm Error
                    ("Upload failed (" ++ decimal status ++ ")")%string
                    (Some upload_id) (f_processingStep fm) (f_polling fm)
                    sent
            | PutNetworkError =>
                with_outcome fm Error "Upload failed — network error"
                  (Some upload_id) (f_processingStep fm) (f_polling fm) sent
            end
        end
  end.

End Submit.

End UploadForm.

(* ===================================================================== *)
(** * UploadModal.jsx: pollStatus when requests overlap                   *)
(* ===================================================================== *)

(** The callback given to [setInterval] is [async]: a firing runs it up to
    [await fetch(statusUrl)], and the rest of it runs when that request is
    answered, whatever has happened in between.  Nothing after the [await]
    asks whether the interval is still armed, and nothing keeps the
    interval from firing while a request is under way. *)
Module Polling.
Import JS Upload.

(** The modal, and the number of requests whose answer has been handled
    (bookkeeping of the model). *)
Record State : Type := mkState {
  modal : Modal;
  answered : nat
}.

Definition start : State := {| modal := armed; answered := 0 |}.

(** Requests sent and not yet answered. *)
Definition pending (s : State) : nat := (fetches (modal s) - answered s)%nat.

(** A firing of the interval, up to the [await]: a cleared interval does
    not fire; the count goes up; past [maxPolls] the interval is cleared
    and the time-out reported, otherwise a request is sent. *)
Definition fire (m : Modal) : Modal :=
  if negb (interval m) then m
  else
    let count := S (pollCount m) in
    if Nat.ltb maxPolls count then
      {| status := Error; error := timeout_message;
         processingStep := processingStep m; interval := false;
         pollCount := count; fetches := fetches m;
         completions := completions m |}
    else
      {| status := status m; error := error m;
         processingStep := processingStep m; interval := interval m;
         pollCount := count; fetches := S (fetches m);
         completions := completions m |}.

(** The callback from the [await] on, [resp] being the answer. *)
Definition resume (resp : response) (m : Modal) : Modal :=
  match resp with
  | Ok data =>
      if status_is data "complete" then
        {| status := Complete; error := error m;
           processingStep := Some "done"; interval := false;
           pollCount := pollCount m; fetches := fetches m;
           completions := S (completions m) |}
      else if status_is data "error" then
        {| status := Error;
           error := or_default (d_error data) "Processing failed";
           processingStep := show_step data m; interval := false;
           pollCount := pollCount m; fetches := fetches m;
           completions := completions m |}
      else
        {| status := status m; error := error m;
           processingStep := show_step data m; interval := interval m;
           pollCount := pollCount m; fetches := fetches m;
           completions := completions m |}
  | Throws | NotOk => m
  end.

(** The interval fires, or one of the requests under way is answered. *)
Inductive event : Type :=
| Fires
| Answers (resp : response).

Definition step (s : State) (e : event) : State :=
  match e with
  | Fires => {| modal := fire (modal s); answered := answered s |}
  | Answers resp =>
      if Nat.ltb (answered s) (fetches (modal s)) then
        {| modal := resume resp (modal s); answered := S (answered s) |}
      else s
  end.

Definition run (trace : list event) : State := fold_left step trace start.

(** Every request is answered before the interval fires again: no firing
    of [trace], run from [s], finds a request under way. *)
Fixpoint in_turn (s : State) (trace : list event) : Prop :=
  match trace with
  | [] => True
  | e :: rest =>
      match e with
      | Fires => pending s = 0%nat
      | Answers _ => True
      end
      /\ in_turn (step s e) rest
  end.

(** The first [n] firings, each answered at once, firing [i] by
    [answers i]. *)
Fixpoint turns (answers : nat -> response) (n : nat) : list event :=
  match n with
  | O => []
  | S k => turns answers k ++ [Fires; Answers (answers k)]
  end.

(** The answers that report status ['complete']. *)
Definition reports_complete (e : event) : bool :=
  match e with
  | Answers (Ok data) => status_is data "complete"
  | _ => false
  end.

(** What holds of every run, requests overlapping or not. *)
Definition sound (s : State) : Prop :=
  (fetches (modal s) <= pollCount (modal s))%nat
  /\ (fetches (modal s) <= maxPolls)%nat
  /\ (answered s <= fetches (modal s))%nat
  /\ (completions (modal s) <= answered s)%nat
  /\ (interval (modal s) = true <-> status (modal s) = Processing).

(** The shape of the modal when requests are answered in turn. *)
Definition orderly (s : State) : Prop :=
  (interval (modal s) = true /\ status (modal s) = Processing
   /\ completions (modal s) = 0%nat /\ (pending s <= 1)%nat)
  \/ (interval (modal s) = false /\ status (modal s) = Error
      /\ completions (modal s) = 0%nat /\ pending s = 0%nat)
  \/ (interval (modal s) = false /\ status (modal s) = Complete
      /\ completions (modal s) = 1%nat
      /\ processingStep (modal s) = Some "done" /\ pending s = 0%nat).

(** A status document of a finished pipeline. *)
Definition finished : response :=
  Ok {| d_step := Some "done"; d_status := Some "complete";
        d_error := None |}.

End Polling.

(* ===================================================================== *)
(** * The sidebar and the map (Sidebar.jsx, Map.jsx)                      *)
(* ===================================================================== *)

Module Sidebar.
Import JS Catalog.

Definition ITEMS_PER_PAGE : Z := 10.

(** [features.findIndex(f => f.properties.id === id)], counting from [i]. *)
Fixpoint findIndex (id : string) (features : list Feature) (i : Z) : Z :=
  match features with
  | [] => (-1)%Z
  | f :: rest =>
      if String.eqb (p_id (properties f)) id then i
      else findIndex id rest (i + 1)%Z
  end.

(** [l.slice(0, count)]: a negative [count] is taken from the end. *)
Definition slice0 {A : Type} (l : list A) (count : Z) : list A :=
  firstn
    (Z.to_nat (if (count <? 0)%Z then (Z.of_nat (length l) + count)%Z
               else count))
    l.

(** [features.map(f => f.properties.id).join(',')]. *)
Definition joined_ids (features : list Feature) : string :=
  String.concat "," (map (fun f => p_id (properties f)) features).

(** The state of the component: [visibleCount] and
    [prevFeatureIdsRef.current]. *)
Record State : Type := mkState {
  visibleCount : Z;
  prevFeatureIds : string
}.

Definition initial : State :=
  {| visibleCount := ITEMS_PER_PAGE; prevFeatureIds := "" |}.

(** The first effect: a changed list of ids cuts the list back. *)
Definition ids_effect (features : list Feature) (st : State) : State :=
  let ids := joined_ids features in
  if negb (String.eqb ids (prevFeatureIds st)) then
    {| visibleCount := ITEMS_PER_PAGE; prevFeatureIds := ids |}
  else st.

(** The second effect: the list grows to reach the selected feature. *)
Definition selection_effect (features : list Feature)
    (selectedFeature : option Feature) (st : State) : State :=
  match selectedFeature with
  | Some sel =>
      let index := findIndex (p_id (properties sel)) features 0%Z in
      if (visibleCount st <=? index)%Z then
        {| visibleCount := (index + 5)%Z;
           prevFeatureIds := prevFeatureIds st |}
      else st
  | None => st
  end.

Definition handleLoadMore (features : list Feature) (st : State) : State :=
  {| visibleCount := Z.min (visibleCount st + ITEMS_PER_PAGE)
                       (Z.of_nat (length features));
     prevFeatureIds := prevFeatureIds st |}.

Definition visibleFeatures (features : list Feature) (st : State)
  : list Feature :=
  slice0 features (visibleCount st).

(** The [isSelected] flag passed to a card. *)
Definition isSelected (selectedFeature : option Feature) (f : Feature)
  : bool :=
  match selectedFeature with
  | Some sel => String.eqb (p_id (properties sel)) (p_id (properties f))
  | None => false
  end.

(** What can happen to the component state: either effect runs with the
    props of some render, or Load More is clicked. *)
Inductive action : Type :=
| IdsEffect (features : list Feature)
| SelectionEffect (features : list Feature) (selectedFeature : option Feature)
| LoadMore (features : list Feature).

Definition act (st : State) (a : action) : State :=
  match a with
  | IdsEffect features => ids_effect features st
  | SelectionEffect features sel => selection_effect features sel st
  | LoadMore features => handleLoadMore features st
  end.

Definition run (actions : list action) : State := fold_left act actions initial.

End Sidebar.

Module MapView.
Import JS Catalog.

(** A feature the map reports under the pointer, with its
    [properties.id], which may be missing. *)
Record Hit : Type := mkHit {
  h_layer : string;
  h_id : option string
}.

(** What a click offers for selection: the full feature of the current
    search result, or the rendered feature itself when the result no
    longer holds its id. *)
Inductive candidate : Type :=
| FromResults (f : Feature)
| Rendered (h : Hit).

Definition candidate_id (c : candidate) : option string :=
  match c with
  | FromResults f => Some (p_id (properties f))
  | Rendered h => h_id h
  end.

(** [uniqueMap.has(id)] on a map kept in insertion order. *)
Definition has (id : string) (uniqueMap : list (string * candidate)) : bool :=
  existsb (fun kv => String.eqb (fst kv) id) uniqueMap.

(** The de-duplication loop of the click handler. *)
Fixpoint dedupe (features : list Feature) (hits : list Hit)
    (uniqueMap : list (string * candidate)) : list (string * candidate) :=
  match hits with
  | [] => uniqueMap
  | h :: rest =>
      match h_id h with
      | Some id =>
          if truthy_string id && negb (has id uniqueMap) then
            let fullFeature :=
              match List.find
                      (fun f => String.eqb (p_id (properties f)) id) features
              with
              | Some f => FromResults f
              | None => Rendered h
              end in
            dedupe features rest (uniqueMap ++ [(id, fullFeature)])
          else dedupe features rest uniqueMap
      | None => dedupe features rest uniqueMap
      end
  end.

Definition uniqueFeatures (features : list Feature) (hits : list Hit)
  : list candidate :=
  map snd (dedupe features hits []).

(** What the click handler ends with. *)
Inductive clicked : Type :=
| Select (c : candidate)
| Popup (items : list candidate)
| Deselect.

Definition click (features : list Feature) (hits : list Hit) : clicked :=
  match uniqueFeatures features hits with
  | [] => Deselect
  | [c] => Select c
  | items => Popup items
  end.

(** What the loop maintains of [uniqueMap]: no key twice, no empty key,
    every value carrying the id it is stored under, and coming from the
    search result or from the hits. *)
Definition tidy (features : list Feature) (hits : list Hit)
    (uniqueMap : list (string * candidate)) : Prop :=
  List.NoDup (map fst uniqueMap)
  /\ List.Forall
       (fun kv =>
          candidate_id (snd kv) = Some (fst kv) /\ fst kv <> ""
          /\ match snd kv with
             | FromResults f => In f features
             | Rendered h =>
                 In h hits
                 /\ forall f, In f features ->
                      p_id (properties f) <> fst kv
             end)
       uniqueMap.

End MapView.

(* ===================================================================== *)
(** * More sample data                                                    *)
(* ===================================================================== *)

Module Samples2.
Import JS Sql Catalog Api Samples.

(** An engine that refuses every tampered statement. *)
Definition refuse (table : list Row) (id : string) : outcome (option Row) :=
  Rejected "Parser Error".

(** A filled-in upload form. *)
Definition filled : UploadForm.Form :=
  {| UploadForm.f_file := Some "harbour.TIF";
     UploadForm.f_title := "  Harbour survey ";
     UploadForm.f_platform := "UAV"; UploadForm.f_license := "CC-BY 4.0";
     UploadForm.f_apiKey := "k-123"; UploadForm.f_status := Upload.Idle;
     UploadForm.f_error := ""; UploadForm.f_uploadId := None;
     UploadForm.f_processingStep := None; UploadForm.f_polling := None;
     UploadForm.f_sent := [] |}.

(** A viewport inside that of scenario A. *)
Definition inner_bbox : Q * Q * Q * Q := (-6, -6, 6, 6)%Q.

End Samples2.

(* ===================================================================== *)
(** * Facts about strings and LIKE                                        *)
(* ===================================================================== *)

Module TextFacts.
Import JS Sql Spec.

Lemma chars_app (s1 s2 : string) :
  list_ascii_of_string (s1 ++ s2)%string
  = list_ascii_of_string s1 ++ list_ascii_of_string s2.
Proof.
  induction s1 as [|c s1 IH]; simpl; [reflexivity | now rewrite IH].
Qed.

Lemma like_percent_unfold (p t : list ascii) :
  like ("%"%char :: p) t
  = like p t || match t with [] => false | _ :: t' => like ("%"%char :: p) t' end.
Proof. destruct t; reflexivity. Qed.

Lemma like_percent_iff (p t : list ascii) :
  like ("%"%char :: p) t = true
  <-> exists pre suf, t = pre ++ suf /\ like p suf = true.
Proof.
  induction t as [|c t IH]; rewrite like_percent_unfold.
  - rewrite orb_false_r. split.
    + intros H. now exists [], [].
    + intros (pre & suf & E & H).
      symmetry in E. apply app_eq_nil in E as [-> ->]. exact H.
  - rewrite orb_true_iff, IH. split.
    + intros [H | (pre & suf & -> & H)].
      * now exists [], (c :: t).
      * now exists (c :: pre), suf.
    + intros (pre & suf & E & H). destruct pre as [|d pre]; simpl in E.
      * left. now subst suf.
      * right. injection E as -> ->. now exists pre, suf.
Qed.

Lemma like_percent_only (t : list ascii) : like ["%"%char] t = true.
Proof.
  apply like_percent_iff. exists t, []. split; [now rewrite app_nil_r | reflexivity].
Qed.

Lemma like_plain_cons (c : ascii) (p t : list ascii) :
  plain_char c ->
  like (c :: p) t
  = match t with [] => false | d :: t' => Ascii.eqb c d && like p t' end.
Proof.
  intros [Hp Hu]. simpl.
  destruct (Ascii.eqb_spec c "%"%char) as [->|_]; [congruence|].
  destruct (Ascii.eqb_spec c "_"%char) as [->|_]; [congruence|].
  reflexivity.
Qed.

Lemma like_plain_prefix (x p t : list ascii) :
  Forall plain_char x ->
  like (x ++ p) t = true <-> exists t', t = x ++ t' /\ like p t' = true.
Proof.
  intros Hx. revert t. induction Hx as [|c x Hc Hx IH]; intros t; simpl app.
  - split; [intros H; now exists t | now intros (t' & -> & H)].
  - rewrite like_plain_cons by exact Hc. destruct t as [|d t].
    + split; [discriminate | now intros (t' & E & _)].
    + rewrite andb_true_iff, IH. split.
      * intros [E (t' & -> & H)]. apply Ascii.eqb_eq in E as ->. now exists t'.
      * intros (t' & E & H). injection E as -> ->.
        split; [apply Ascii.eqb_refl | now exists t'].
Qed.

(** With no wildcard inside [x], the pattern [%x%] is containment of [x]. *)
Lemma like_contains (x t : list ascii) :
  Forall plain_char x ->
  like ("%"%char :: x ++ ["%"%char]) t = true
  <-> exists pre post, t = pre ++ x ++ post.
Proof.
  intros Hx. rewrite like_percent_iff. split.
  - intros (pre & suf & -> & H).
    apply (like_plain_prefix x _ suf Hx) in H as (post & -> & _).
    now exists pre, post.
  - intros (pre & post & ->). exists pre, (x ++ post). split; [reflexivity|].
    apply (like_plain_prefix x _ _ Hx). exists post. split; [reflexivity|].
    apply like_percent_only.
Qed.

Lemma LIKE_contains (text x : string) :
  plain x ->
  LIKE text ("%" ++ x ++ "%")%string = true <-> substring x text.
Proof.
  intros Hx. unfold LIKE, substring.
  change ("%" ++ x ++ "%")%string with (String "%"%char (x ++ "%")%string).
  cbn [list_ascii_of_string]. rewrite chars_app.
  change (list_ascii_of_string "%") with ["%"%char].
  now apply like_contains.
Qed.

End TextFacts.

(* ===================================================================== *)
(** * Facts about the query: WHERE, ORDER BY, LIMIT                       *)
(* ===================================================================== *)

Module QueryFacts.
Import JS Sql Catalog Spec TextFacts.

Lemma insert_desc_perm (r : Row) (l : list Row) :
  Permutation (r :: l) (insert_desc r l).
Proof.
  induction l as [|x l IH]; simpl; [reflexivity|].
  destruct (datetime x <=? datetime r)%Z; [reflexivity|].
  rewrite perm_swap. now constructor.
Qed.

Lemma order_by_perm (l : list Row) :
  Permutation l (order_by_datetime_desc l).
Proof.
  induction l as [|x l IH]; simpl; [reflexivity|].
  rewrite <- insert_desc_perm. now constructor.
Qed.

Lemma insert_desc_sorted (r : Row) (l : list Row) :
  StronglySorted row_datetime_desc l ->
  StronglySorted row_datetime_desc (insert_desc r l).
Proof.
  induction 1 as [|x l Hl IH Hx]; simpl.
  - repeat constructor.
  - destruct (Z.leb_spec (datetime x) (datetime r)) as [Hle | Hgt].
    + constructor; [now constructor|].
      constructor; [exact Hle|].
      eapply List.Forall_impl; [|exact Hx]. unfold row_datetime_desc. simpl. lia.
    + constructor; [exact IH|].
      rewrite <- (insert_desc_perm r l). constructor; [|exact Hx].
      unfold row_datetime_desc. lia.
Qed.

Lemma order_by_sorted (l : list Row) :
  StronglySorted row_datetime_desc (order_by_datetime_desc l).
Proof.
  induction l as [|x l IH]; simpl; [constructor | now apply insert_desc_sorted].
Qed.

Lemma firstn_In {A} (n : nat) (l : list A) (x : A) :
  In x (firstn n l) -> In x l.
Proof.
  revert n. induction l as [|y l IH]; intros [|n]; simpl; try tauto.
  intros [-> | H]; [now left | right; eauto].
Qed.

Lemma firstn_sorted {A} (R : A -> A -> Prop) (n : nat) (l : list A) :
  StronglySorted R l -> StronglySorted R (firstn n l).
Proof.
  intros H. revert n. induction H as [|x l Hl IH Hx]; intros [|n]; simpl;
    try constructor; [apply IH|].
  rewrite List.Forall_forall in *. intros y Hy. apply Hx.
  eapply firstn_In; eauto.
Qed.

Lemma map_sorted {A B} (f : A -> B) (R : A -> A -> Prop) (S : B -> B -> Prop)
    (l : list A) :
  (forall x y, R x y -> S (f x) (f y)) ->
  StronglySorted R l -> StronglySorted S (map f l).
Proof.
  intros HRS. induction 1 as [|x l Hl IH Hx]; simpl; constructor; [exact IH|].
  rewrite List.Forall_forall in *. intros y Hy.
  apply List.in_map_iff in Hy as (z & <- & Hz). now apply HRS, Hx.
Qed.

Lemma firstn_short {A} (n : nat) (l : list A) :
  (length (firstn n l) < n)%nat -> firstn n l = l.
Proof.
  intros H. apply firstn_all2. rewrite length_firstn in H. lia.
Qed.

(** In a sorted list, what [firstn] takes comes before what it leaves. *)
Lemma firstn_before_rest {A} (R : A -> A -> Prop) (n : nat) (l : list A)
    (x y : A) :
  StronglySorted R l -> In x (firstn n l) -> In y (skipn n l) -> R x y.
Proof.
  revert l. induction n as [|n IH]; intros l Hs Hx Hy; [destruct Hx|].
  destruct l as [|z l]; [destruct Hx|].
  apply StronglySorted_inv in Hs as [Hs Hz]. cbn in Hx, Hy.
  destruct Hx as [<- | Hx].
  - rewrite List.Forall_forall in Hz. apply Hz.
    rewrite <- (firstn_skipn n l). apply List.in_or_app. now right.
  - now apply (IH l).
Qed.

Lemma firstn_or_rest {A} (n : nat) (l : list A) (x : A) :
  In x l -> In x (firstn n l) \/ In x (skipn n l).
Proof.
  intros H. rewrite <- (firstn_skipn n l) in H.
  now apply List.in_app_or in H.
Qed.

Lemma rest_nonempty {A} (n : nat) (l : list A) (x : A) :
  In x (skipn n l) -> length (firstn n l) = n.
Proof.
  intros H. rewrite length_firstn.
  destruct (Nat.le_gt_cases (length l) n) as [Hle | Hgt]; [|lia].
  rewrite skipn_all2 in H by exact Hle. destruct H.
Qed.

Lemma sql_and_true (x y : option bool) :
  sql_and x y = Some true <-> x = Some true /\ y = Some true.
Proof. destruct x as [[]|], y as [[]|]; simpl; intuition congruence. Qed.

Lemma keeps_Forall {casing : Casing} cast (conds : list cond) (r : Row) :
  keeps cast conds r = true
  <-> Forall (fun c => eval_cond cast r c = Some true) conds.
Proof.
  unfold keeps.
  assert (E : eval_where cast conds r = Some true
              <-> Forall (fun c => eval_cond cast r c = Some true) conds).
  { induction conds as [|c conds IH]; simpl.
    - split; [constructor | reflexivity].
    - rewrite sql_and_true, IH. split.
      + intros [? ?]. now constructor.
      + intros H. inversion H; subst. now split. }
  rewrite <- E. destruct (eval_where cast conds r) as [[]|]; intuition congruence.
Qed.

Lemma keeps_cons {casing : Casing} cast (c : cond) (conds : list cond) (r : Row) :
  keeps cast (c :: conds) r
  = match eval_cond cast r c with Some true => true | _ => false end
    && keeps cast conds r.
Proof.
  unfold keeps; simpl.
  destruct (eval_cond cast r c) as [[]|], (eval_where cast conds r) as [[]|];
    reflexivity.
Qed.

Lemma truthy_string_iff (s : string) : truthy_string s = true <-> s <> "".
Proof.
  unfold truthy_string. destruct (String.eqb_spec s ""); simpl; intuition congruence.
Qed.

Lemma truthy_number_iff (n : option Q) :
  truthy_number n = true <-> exists g, n = Some g /\ ~ (g == 0)%Q.
Proof.
  destruct n as [g|]; simpl.
  - rewrite negb_true_iff. split.
    + intros H. exists g. split; [reflexivity|]. intros E.
      apply Qeq_bool_iff in E. congruence.
    + intros (g' & [= <-] & H). destruct (Qeq_bool g 0) eqn:E; [|reflexivity].
      apply Qeq_bool_iff in E. contradiction.
  - split; [discriminate | now intros (g & [=] & _)].
Qed.

End QueryFacts.

Module WhereFacts.
Import JS Sql Catalog Spec TextFacts QueryFacts.

Section Segments.
Context {casing : Casing}.
Variable cast : string -> option Z.
Variable r : Row.

Let holds (c : cond) : Prop := eval_cond cast r c = Some true.

Lemma Forall_one (c : cond) : Forall holds [c] <-> holds c.
Proof.
  split; [intros H; now inversion H | intros H; now repeat constructor].
Qed.

Lemma Forall_none : Forall holds [] <-> True.
Proof. split; [trivial | constructor]. Qed.

Lemma seg_bbox (b : option (Q * Q * Q * Q)) :
  Forall holds
    (match b with
     | Some (west, south, east, north) => [BboxOverlap west east south north]
     | None => []
     end)
  <-> (forall west south east north,
          b = Some (west, south, east, north) ->
          overlaps r west south east north).
Proof.
  destruct b as [[[[west south] east] north]|].
  - rewrite Forall_one. unfold holds, overlaps. simpl.
    split.
    + intros [= H] w s e n [= <- <- <- <-].
      rewrite !andb_true_iff, !Qle_bool_iff in H. tauto.
    + intros H. specialize (H _ _ _ _ eq_refl). f_equal.
      rewrite !andb_true_iff, !Qle_bool_iff. tauto.
  - rewrite Forall_none. split; [discriminate | trivial].
Qed.

Lemma seg_dateStart (d : string) :
  Forall holds (if truthy_string d then [DatetimeGe d] else [])
  <-> (d <> "" -> exists t, cast d = Some t /\ (t <= datetime r)%Z).
Proof.
  destruct (truthy_string d) eqn:E.
  - apply truthy_string_iff in E. rewrite Forall_one. unfold holds. simpl.
    destruct (cast d) as [t|]; simpl; split.
    + intros [= H] _. exists t. split; [reflexivity | now apply Z.leb_le].
    + intros H. destruct (H E) as (t' & [= <-] & Ht).
      f_equal. now apply Z.leb_le.
    + discriminate.
    + intros H. now destruct (H E) as (t' & [=] & _).
  - rewrite Forall_none. split; [|trivial]. intros _ H.
    apply truthy_string_iff in H. congruence.
Qed.

Lemma seg_dateEnd (d : string) :
  Forall holds
    (if truthy_string d then [DatetimeLe (d ++ "T23:59:59.999Z")%string] else [])
  <-> (d <> "" ->
       exists t, cast (d ++ "T23:59:59.999Z")%string = Some t
                 /\ (datetime r <= t)%Z).
Proof.
  destruct (truthy_string d) eqn:E.
  - apply truthy_string_iff in E. rewrite Forall_one. unfold holds. simpl.
    destruct (cast (d ++ "T23:59:59.999Z")%string) as [t|]; simpl; split.
    + intros [= H] _. exists t. split; [reflexivity | now apply Z.leb_le].
    + intros H. destruct (H E) as (t' & [= <-] & Ht).
      f_equal. now apply Z.leb_le.
    + discriminate.
    + intros H. now destruct (H E) as (t' & [=] & _).
  - rewrite Forall_none. split; [|trivial]. intros _ H.
    apply truthy_string_iff in H. congruence.
Qed.

Lemma seg_platform (p : string) :
  Forall holds
    (if truthy_string p then
       if String.eqb p "uav" then [PlatformUavOrDrone]
       else [PlatformEq (toLowerCase p)]
     else [])
  <-> (p <> "" ->
       exists s, platform_type r = Some s
                 /\ (if String.eqb p "uav"
                     then lower_text s = "uav" \/ lower_text s = "drone"
                     else lower_text s = toLowerCase p)).
Proof.
  destruct (truthy_string p) eqn:E.
  - apply truthy_string_iff in E.
    destruct (String.eqb p "uav"); rewrite Forall_one; unfold holds; simpl;
      destruct (platform_type r) as [s|]; simpl.
    + destruct (String.eqb_spec (lower_text s) "uav") as [Eu|Eu],
               (String.eqb_spec (lower_text s) "drone") as [Ed|Ed];
        simpl; split; try (intros _ _; exists s; split; [reflexivity | tauto]);
        try reflexivity; try discriminate.
      intros H. destruct (H E) as (s' & [= <-] & [? | ?]); contradiction.
    + split; [discriminate|]. intros H. now destruct (H E) as (s' & [=] & _).
    + destruct (String.eqb_spec (lower_text s) (toLowerCase p)) as [El|El];
        split; try (intros _ _; exists s; split; [reflexivity | assumption]);
        try reflexivity; try discriminate.
      intros H. destruct (H E) as (s' & [= <-] & ?); contradiction.
    + split; [discriminate|]. intros H. now destruct (H E) as (s' & [=] & _).
  - rewrite Forall_none. split; [|trivial]. intros _ H.
    apply truthy_string_iff in H. congruence.
Qed.

(** The two LIKE filters, on an arbitrary nullable column. *)
Lemma seg_like (mk : string -> cond) (column : option string) (x : string) :
  (forall p, eval_cond cast r (mk p)
             = option_map (fun s => LIKE s p) (LOWER column)) ->
  plain (toLowerCase x) ->
  Forall holds
    (if truthy_string x then [mk ("%" ++ toLowerCase x ++ "%")%string] else [])
  <-> (x <> "" ->
       exists s, column = Some s
                 /\ substring (toLowerCase x) (lower_text s)).
Proof.
  intros Hmk Hx.
  destruct (truthy_string x) eqn:E.
  - apply truthy_string_iff in E. rewrite Forall_one. unfold holds.
    rewrite Hmk. destruct column as [s|]; simpl.
    + split.
      * intros [= H] _. exists s. split; [reflexivity|].
        now apply LIKE_contains in H.
      * intros H. destruct (H E) as (s' & [= <-] & Hs). f_equal.
        now apply LIKE_contains.
    + split; [discriminate|]. intros H. now destruct (H E) as (s' & [=] & _).
  - rewrite Forall_none. split; [|trivial]. intros _ H.
    apply truthy_string_iff in H. congruence.
Qed.

Lemma seg_maxGsd (m : option Q) :
  Forall holds
    (if truthy_number m then
       match m with Some g => [GsdLe g] | None => [] end
     else [])
  <-> (forall g, m = Some g -> ~ (g == 0)%Q ->
         exists x, gsd r = Some x /\ (x <= g)%Q).
Proof.
  destruct (truthy_number m) eqn:E.
  - apply truthy_number_iff in E as (g & -> & Hg).
    rewrite Forall_one. unfold holds. simpl.
    destruct (gsd r) as [x|]; simpl; split.
    + intros [= H] g' [= <-] _. exists x. split; [reflexivity|].
      now apply Qle_bool_iff.
    + intros H. destruct (H g eq_refl Hg) as (x' & [= <-] & Hx).
      f_equal. now apply Qle_bool_iff.
    + discriminate.
    + intros H. now destruct (H g eq_refl Hg) as (x' & [=] & _).
  - rewrite Forall_none. split; [|trivial]. intros _ g -> Hg.
    assert (T : truthy_number (Some g) = true)
      by (apply truthy_number_iff; now exists g).
    congruence.
Qed.
End Segments.

(** The WHERE clause built by [searchCatalog] keeps exactly the rows that
    satisfy every supplied filter. *)
Lemma keeps_matches {casing : Casing} cast (a : SearchParams) (r : Row) :
  plain (toLowerCase (q_license a)) -> plain (toLowerCase (q_query a)) ->
  keeps cast (build_conditions a) r = true <-> matches cast a r.
Proof.
  intros Hl Hq. rewrite keeps_Forall. unfold build_conditions.
  rewrite !List.Forall_app.
  rewrite seg_bbox, seg_dateStart, seg_dateEnd, seg_platform, seg_maxGsd.
  rewrite (seg_like cast r LicenseLike (license r) (q_license a))
    by (reflexivity || assumption).
  rewrite (seg_like cast r TitleLike (title r) (q_query a))
    by (reflexivity || assumption).
  split.
  - intros (H1 & H2 & H3 & H4 & H5 & H6 & H7). now constructor.
  - intros [H1 H2 H3 H4 H5 H6 H7]. tauto.
Qed.

End WhereFacts.

(* ===================================================================== *)
(** * searchCatalog                                                       *)
(* ===================================================================== *)

Module SearchFacts.
Import JS Sql Catalog Spec TextFacts QueryFacts WhereFacts.

Section Results.
Context {casing : Casing}.

(** Shape of a successful search: the connection was obtained, the file
    was read, every timestamp parameter cast, and the features are the
    rows of the query in order. *)
Lemma searchCatalog_resolved (w : World) (a : SearchParams) (rt : Runtime)
    (feats : list Feature) :
  fst (searchCatalog w a rt) = Resolved feats ->
  exists table,
    parquet w = Resolved table
    /\ feats = map toFeature
                 (LIMIT (q_limit a)
                    (order_by_datetime_desc
                       (List.filter
                          (keeps (cast_timestamp w) (build_conditions a))
                          table))).
Proof.
  unfold searchCatalog, run_query.
  destruct (ensure_conn w rt) as [[u|e] rt']; simpl; [|discriminate].
  destruct (parquet w) as [table|e]; simpl; [|discriminate].
  destruct (forallb _ _); simpl; [|discriminate].
  intros [= <-]. now exists table.
Qed.

Lemma searchCatalog_connected (w : World) (a : SearchParams) (rt : Runtime) :
  fst (ensure_conn w rt) = Resolved tt ->
  fst (searchCatalog w a rt)
  = match run_query w a with
    | Rejected e => Rejected e
    | Resolved rows => Resolved (map toFeature rows)
    end.
Proof.
  unfold searchCatalog.
  destruct (ensure_conn w rt) as [[u|e] rt']; simpl; [|discriminate].
  intros _. now destruct (run_query w a).
Qed.

Lemma In_query_rows cast (conds : list cond) (n : nat) (table : list Row)
    (r : Row) :
  In r (LIMIT n (order_by_datetime_desc (List.filter (keeps cast conds) table))) ->
  In r table /\ keeps cast conds r = true.
Proof.
  intros H. apply firstn_In in H.
  apply (Permutation_in _ (Permutation_sym (order_by_perm _))) in H.
  now apply List.filter_In in H.
Qed.

End Results.

End SearchFacts.

(* ===================================================================== *)
(** * Properties of the catalog search                                    *)
(* ===================================================================== *)

Section SearchProperties.
Import JS Sql Catalog Spec TextFacts QueryFacts WhereFacts SearchFacts.

(** C1 (as the code has it).  For every search that executes, with no LIKE
    wildcard in the lowered licence and text filters: every returned
    feature is made from a row of the catalog, whose id it carries, and
    that row satisfies every supplied filter (bbox overlap when a bbox is
    given; [datetime] from the start date up to the last millisecond of
    the end date, both ends included; platform equal after lowering, with
    ["uav"] also accepting ["drone"]; licence and title containing the
    filter text after lowering; [gsd] at most [maxGsd]); no returned
    feature fails the overlap test; when fewer than [limit] features come
    back, every row satisfying the filters is among them; and a row
    satisfying the filters is left out only when [limit] features are
    returned, none of them made from an earlier row: rows are cut after
    ordering. *)
Theorem search_returns_matching_rows {casing : Casing}
    (w : World) (a : SearchParams) (rt : Runtime)
    (table : list Row) (feats : list Feature) :
  plain (toLowerCase (q_license a)) -> plain (toLowerCase (q_query a)) ->
  parquet w = Resolved table ->
  fst (searchCatalog w a rt) = Resolved feats ->
  (forall f, In f feats ->
     exists r, In r table /\ f = toFeature r
               /\ p_id (properties f) = id r
               /\ matches (cast_timestamp w) a r)
  /\ (forall west south east north f,
        q_bbox a = Some (west, south, east, north) -> In f feats ->
        exists r, In r table /\ f = toFeature r
                  /\ overlaps r west south east north)
  /\ ((length feats < q_limit a)%nat ->
      forall r, In r table -> matches (cast_timestamp w) a r ->
                In (toFeature r) feats)
  /\ (forall r, In r table -> matches (cast_timestamp w) a r ->
                ~ In (toFeature r) feats ->
                length feats = q_limit a
                /\ forall f, In f feats ->
                     exists r', In r' table /\ f = toFeature r'
                                /\ p_id (properties f) = id r'
                                /\ (datetime r <= datetime r')%Z).
Proof.
  intros Hl Hq Ht Hs.
  destruct (searchCatalog_resolved w a rt feats Hs) as (table' & Ht' & ->).
  rewrite Ht in Ht'. injection Ht' as <-.
  assert (Sound : forall f,
    In f (map toFeature
            (LIMIT (q_limit a)
               (order_by_datetime_desc
                  (List.filter (keeps (cast_timestamp w) (build_conditions a))
                     table)))) ->
    exists r, In r table /\ f = toFeature r /\ p_id (properties f) = id r
              /\ matches (cast_timestamp w) a r).
  { intros f Hf. apply List.in_map_iff in Hf as (r & <- & Hr).
    apply In_query_rows in Hr as [Hin Hk].
    exists r. split; [exact Hin|]. split; [reflexivity|].
    split; [reflexivity|]. now apply keeps_matches. }
  assert (All : forall r, In r table -> matches (cast_timestamp w) a r ->
    In r (order_by_datetime_desc
            (List.filter (keeps (cast_timestamp w) (build_conditions a))
               table))).
  { intros r Hin Hm. apply (Permutation_in _ (order_by_perm _)).
    apply List.filter_In. split; [exact Hin|]. now apply keeps_matches. }
  split; [exact Sound|]. split; [|split].
  - intros west south east north f Hb Hf.
    destruct (Sound f Hf) as (r & Hin & -> & _ & Hm).
    exists r. split; [exact Hin|]. split; [reflexivity|].
    now apply (m_bbox _ _ _ Hm).
  - rewrite length_map. intros Hlen r Hin Hm.
    unfold LIMIT in *. rewrite (firstn_short _ _ Hlen).
    apply List.in_map. now apply All.
  - intros r Hin Hm Hout. unfold LIMIT in *.
    set (sorted := order_by_datetime_desc
                     (List.filter
                        (keeps (cast_timestamp w) (build_conditions a))
                        table)) in *.
    destruct (firstn_or_rest (q_limit a) sorted r (All r Hin Hm))
      as [Hf | Hr].
    + exfalso. apply Hout. now apply List.in_map.
    + split.
      * rewrite length_map. now apply (rest_nonempty _ sorted r).
      * intros f Hf. apply List.in_map_iff in Hf as (r' & <- & Hr').
        exists r'. split; [now apply (In_query_rows _ _ _ _ _ Hr')|].
        split; [reflexivity|]. split; [reflexivity|].
        apply (firstn_before_rest row_datetime_desc (q_limit a) sorted r' r);
          [apply order_by_sorted | exact Hr' | exact Hr].
Qed.

End SearchProperties.

Section SearchInstances.
Import JS Sql Catalog Spec Samples.

Lemma plain_cc_by : plain "cc-by".
Proof.
  unfold plain; simpl.
  repeat (constructor; [split; discriminate|]). constructor.
Qed.

Lemma plain_harbour : plain "harbour".
Proof.
  unfold plain; simpl.
  repeat (constructor; [split; discriminate|]). constructor.
Qed.

(** The search theorem at work: one day, platform [uav], licence [cc-by],
    [gsd] up to 0.1 and the text [harbour] over rows A and B. *)
Lemma search_returns_matching_rows_witness :
  fst (searchCatalog (world [rowA; rowB]) one_day boot)
  = Resolved [toFeature rowA]
  /\ (forall f, In f [toFeature rowA] ->
        exists r, In r [rowA; rowB] /\ f = toFeature r
                  /\ p_id (properties f) = id r
                  /\ matches Samples.cast one_day r)
  /\ (forall west south east north f,
        q_bbox one_day = Some (west, south, east, north) ->
        In f [toFeature rowA] ->
        exists r, In r [rowA; rowB] /\ f = toFeature r
                  /\ overlaps r west south east north)
  /\ ((length [toFeature rowA] < q_limit one_day)%nat ->
      forall r, In r [rowA; rowB] -> matches Samples.cast one_day r ->
                In (toFeature r) [toFeature rowA])
  /\ (forall r, In r [rowA; rowB] -> matches Samples.cast one_day r ->
                ~ In (toFeature r) [toFeature rowA] ->
                length [toFeature rowA] = q_limit one_day
                /\ forall f, In f [toFeature rowA] ->
                     exists r', In r' [rowA; rowB] /\ f = toFeature r'
                                /\ p_id (properties f) = id r'
                                /\ (datetime r <= datetime r')%Z).
Proof.
  split; [vm_compute; reflexivity|].
  apply (search_returns_matching_rows (world [rowA; rowB]) one_day boot
           [rowA; rowB] [toFeature rowA]).
  - exact plain_cc_by.
  - exact plain_harbour.
  - reflexivity.
  - vm_compute; reflexivity.
Defined.

(** C1 as stated fails in three ways.  A licence filter is a containment
    test, not an exact match; the platform filter [uav] also returns
    [drone] rows; and a row passing every test is left out once [limit]
    rows are found. *)
Lemma search_is_not_exact_match :
  (fst (searchCatalog (world [rowA; rowB]) by_license boot)
   = Resolved [toFeature rowA]
   /\ ~ exact_ci_match (q_license by_license) (license rowA))
  /\ (fst (searchCatalog (world [rowA; rowB]) by_platform boot)
      = Resolved [toFeature rowA]
      /\ ~ exact_ci_match (q_platform by_platform) (platform_type rowA))
  /\ (fst (searchCatalog (world [rowA; rowWide]) first_only boot)
      = Resolved [toFeature rowA]
      /\ In rowWide [rowA; rowWide]
      /\ overlaps rowWide (-10) (-10) 10 10
      /\ toFeature rowWide <> toFeature rowA).
Proof.
  repeat split; try (vm_compute; reflexivity);
    try (intros (s & [= <-] & H); vm_compute in H; discriminate);
    try (vm_compute; discriminate).
  right; now left.
Qed.

End SearchInstances.

Section OrderProperties.
Import JS Sql Catalog Spec Samples QueryFacts SearchFacts.

(** C2 (as the code has it).  The features of every search that executes
    are ordered by [datetime], latest first.  (The statement sorts on
    [datetime] alone: [ORDER BY datetime DESC] names no second key.) *)
Theorem search_sorted_by_datetime_desc {casing : Casing}
    (w : World) (a : SearchParams) (rt : Runtime) (feats : list Feature) :
  fst (searchCatalog w a rt) = Resolved feats ->
  StronglySorted datetime_desc feats.
Proof.
  intros Hs. destruct (searchCatalog_resolved w a rt feats Hs) as (table & _ & ->).
  apply (map_sorted toFeature row_datetime_desc); [now intros x y H|].
  apply firstn_sorted, order_by_sorted.
Qed.

Lemma search_sorted_by_datetime_desc_witness :
  fst (searchCatalog (world [rowA; rowB; rowWide]) defaults boot)
  = Resolved [toFeature rowB; toFeature rowA; toFeature rowWide]
  /\ StronglySorted datetime_desc
       [toFeature rowB; toFeature rowA; toFeature rowWide].
Proof.
  split; [vm_compute; reflexivity|].
  apply (search_sorted_by_datetime_desc
           (world [rowA; rowB; rowWide]) defaults boot).
  vm_compute; reflexivity.
Defined.

(** C2 as stated fails: two rows of equal [datetime] come back in the
    order in which the file holds them, here id [b] before id [a]; the
    same two rows stored the other way round come back the other way
    round. *)
Lemma ties_are_not_broken_by_id :
  datetime row_b = datetime row_a
  /\ fst (searchCatalog (world [row_b; row_a])
            (with_bbox (Some scenarioA_bbox) defaults) boot)
     = Resolved [toFeature row_b; toFeature row_a]
  /\ ~ ordered_with_tiebreak [toFeature row_b; toFeature row_a]
  /\ fst (searchCatalog (world [row_a; row_b])
            (with_bbox (Some scenarioA_bbox) defaults) boot)
     = Resolved [toFeature row_a; toFeature row_b].
Proof.
  split; [reflexivity|]. split; [vm_compute; reflexivity|].
  split; [|vm_compute; reflexivity].
  intros H. inversion H as [|f l _ Hall]; subst.
  inversion Hall as [|g l' Hfg _]; subst.
  destruct Hfg as [Hlt | [_ Hle]].
  - vm_compute in Hlt. discriminate.
  - vm_compute in Hle. discriminate.
Qed.

End OrderProperties.

Section BboxProperties.
Import JS Sql Catalog Spec Samples QueryFacts SearchFacts.

Lemma bindable_ignores_bbox {casing : Casing} cast (b : option (Q * Q * Q * Q)) (a : SearchParams) :
  forallb (bindable cast) (build_conditions (with_bbox b a))
  = forallb (bindable cast) (build_conditions (with_bbox None a)).
Proof.
  unfold build_conditions, with_bbox; simpl.
  destruct b as [[[[west south] east] north]|]; reflexivity.
Qed.

Lemma keeps_with_bbox {casing : Casing} cast (west south east north : Q) (a : SearchParams)
    (r : Row) :
  keeps cast (build_conditions (with_bbox (Some (west, south, east, north)) a)) r
  = (Qle_bool west (bbox_xmax r) && Qle_bool (bbox_xmin r) east
     && Qle_bool south (bbox_ymax r) && Qle_bool (bbox_ymin r) north)
    && keeps cast (build_conditions (with_bbox None a)) r.
Proof.
  unfold build_conditions, with_bbox; cbn [q_bbox app].
  rewrite keeps_cons. cbn [eval_cond].
  now destruct (_ && _ && _ && _).
Qed.

Lemma keeps_without_bbox {casing : Casing} cast (a : SearchParams) (r : Row)
    (xmin ymin xmax ymax : Q) :
  keeps cast (build_conditions (with_bbox None a))
    (relocate r xmin ymin xmax ymax)
  = keeps cast (build_conditions (with_bbox None a)) r.
Proof.
  unfold build_conditions, with_bbox; cbn [q_bbox q_dateStart q_dateEnd
    q_platform q_license q_maxGsd q_query app].
  destruct (truthy_string (q_dateStart a)), (truthy_string (q_dateEnd a)),
    (truthy_string (q_platform a)), (String.eqb (q_platform a) "uav"),
    (truthy_string (q_license a)), (truthy_number (q_maxGsd a)),
    (q_maxGsd a), (truthy_string (q_query a)); reflexivity.
Qed.

(** C3 (as the code has it).  [bbox] is optional and is never checked.
    Whether a search fails, and with which error, does not depend on the
    bbox passed, be it absent, well formed or inverted; a bbox adds exactly
    the overlap test, on the bounds as given, to the conditions of the same
    search without bbox; and a search without bbox keeps or drops a row
    regardless of where its footprint lies. *)
Theorem bbox_is_optional_and_unchecked {casing : Casing}
    (w : World) (a : SearchParams) (rt : Runtime) :
  (forall (b1 b2 : option (Q * Q * Q * Q)) (e : string),
      fst (searchCatalog w (with_bbox b1 a) rt) = Rejected e
      <-> fst (searchCatalog w (with_bbox b2 a) rt) = Rejected e)
  /\ (forall west south east north r,
        keeps (cast_timestamp w)
          (build_conditions (with_bbox (Some (west, south, east, north)) a)) r
        = (Qle_bool west (bbox_xmax r) && Qle_bool (bbox_xmin r) east
           && Qle_bool south (bbox_ymax r) && Qle_bool (bbox_ymin r) north)
          && keeps (cast_timestamp w)
               (build_conditions (with_bbox None a)) r)
  /\ (forall r xmin ymin xmax ymax,
        keeps (cast_timestamp w) (build_conditions (with_bbox None a))
          (relocate r xmin ymin xmax ymax)
        = keeps (cast_timestamp w) (build_conditions (with_bbox None a)) r).
Proof.
  split; [|split; [intros; apply keeps_with_bbox
                  |intros; apply keeps_without_bbox]].
  assert (One : forall b e,
    fst (searchCatalog w (with_bbox b a) rt) = Rejected e
    <-> fst (searchCatalog w (with_bbox None a) rt) = Rejected e).
  { intros b e. unfold searchCatalog, run_query.
    destruct (ensure_conn w rt) as [[u|e'] rt']; simpl; [|reflexivity].
    destruct (parquet w) as [table|e']; simpl; [|reflexivity].
    rewrite (bindable_ignores_bbox _ b a).
    destruct (forallb _ _); simpl; [|reflexivity].
    split; discriminate. }
  intros b1 b2 e. now rewrite (One b1), (One b2).
Qed.

(** C3 as stated fails: a search without bbox, and a search whose bbox has
    west above east and south above north, both return features. *)
Lemma search_accepts_missing_and_inverted_bbox :
  fst (searchCatalog (world [rowA; rowWide]) defaults boot)
  = Resolved [toFeature rowA; toFeature rowWide]
  /\ q_bbox defaults = None
  /\ fst (searchCatalog (world [rowA; rowWide])
            (with_bbox (Some (10, 10, -10, -10)%Q) defaults) boot)
     = Resolved [toFeature rowWide].
Proof. repeat split; vm_compute; reflexivity. Qed.

(** C7.  With rows A (bbox [-5,-5,5,5]) and B (bbox [20,20,30,30]) as the
    whole catalog, in either order, and a working connection, the search
    for bbox [-10,-10,10,10] returns exactly one feature, that of A: a
    GeoJSON polygon feature that carries the id of A, whose ring is the
    closed rectangle over the bbox of A, and whose [gsd], platform type
    and links are those of A. *)
Theorem scenario_A_returns_only_A {casing : Casing}
    (w : World) (rt : Runtime) (table : list Row) (A B : Row) :
  fst (ensure_conn w rt) = Resolved tt ->
  parquet w = Resolved table ->
  Permutation [A; B] table ->
  (bbox_xmin A == -5 /\ bbox_ymin A == -5
   /\ bbox_xmax A == 5 /\ bbox_ymax A == 5)%Q ->
  (bbox_xmin B == 20 /\ bbox_ymin B == 20
   /\ bbox_xmax B == 30 /\ bbox_ymax B == 30)%Q ->
  exists f,
    fst (searchCatalog w (with_bbox (Some (-10, -10, 10, 10)%Q) defaults) rt)
    = Resolved [f]
    /\ f_type f = "Feature"
    /\ g_type (geometry f) = "Polygon"
    /\ coordinates (geometry f)
       = [[ (bbox_xmin A, bbox_ymin A); (bbox_xmax A, bbox_ymin A);
            (bbox_xmax A, bbox_ymax A); (bbox_xmin A, bbox_ymax A);
            (bbox_xmin A, bbox_ymin A) ]]
    /\ p_id (properties f) = id A
    /\ p_gsd (properties f) = gsd A
    /\ p_platform_type (properties f) = platform_type A
    /\ p_cog_href (properties f) = cog_href A
    /\ p_thumbnail_href (properties f) = thumbnail_href A.
Proof.
  intros Hc Ht Hp (A1 & A2 & A3 & A4) (B1 & B2 & B3 & B4).
  exists (toFeature A). split; [|now repeat split].
  rewrite (searchCatalog_connected _ _ _ Hc). unfold run_query. rewrite Ht.
  change (forallb _ _) with true. cbv iota.
  assert (KA : keeps (cast_timestamp w)
                 (build_conditions (with_bbox (Some (-10, -10, 10, 10)%Q) defaults)) A
               = true).
  { rewrite keeps_with_bbox. change (keeps _ _ A) with true.
    rewrite andb_true_r, !andb_true_iff, !Qle_bool_iff.
    rewrite A1, A2, A3, A4. repeat split; discriminate. }
  assert (KB : keeps (cast_timestamp w)
                 (build_conditions (with_bbox (Some (-10, -10, 10, 10)%Q) defaults)) B
               = false).
  { rewrite keeps_with_bbox. change (keeps _ _ B) with true.
    rewrite andb_true_r. apply not_true_is_false.
    rewrite !andb_true_iff, !Qle_bool_iff. rewrite B1.
    intros [[[_ H] _] _]. now apply H. }
  apply Permutation_length_2_inv in Hp as [-> | ->]; simpl;
    rewrite KA, KB; reflexivity.
Qed.

Lemma scenario_A_returns_only_A_witness :
  exists f,
    fst (searchCatalog (world [rowA; rowB])
           (with_bbox (Some (-10, -10, 10, 10)%Q) defaults) boot)
    = Resolved [f]
    /\ f_type f = "Feature"
    /\ g_type (geometry f) = "Polygon"
    /\ coordinates (geometry f)
       = [[ (-5, -5); (5, -5); (5, 5); (-5, 5); (-5, -5) ]]%Q
    /\ p_id (properties f) = "A"
    /\ p_gsd (properties f) = Some (5 # 100)
    /\ p_platform_type (properties f) = Some "Drone"
    /\ p_cog_href (properties f) = Some "s3://cn-oam/imagery/A.tif"
    /\ p_thumbnail_href (properties f)
       = Some "s3://cn-oam/thumbnails/A.webp".
Proof.
  apply (scenario_A_returns_only_A (world [rowA; rowB]) boot [rowA; rowB]
           rowA rowB).
  - reflexivity.
  - reflexivity.
  - apply Permutation_refl.
  - repeat split; reflexivity.
  - repeat split; reflexivity.
Defined.

End BboxProperties.

Section FeatureProperties.
Import JS Sql Catalog Spec Samples QueryFacts SearchFacts.

Lemma Number_of_bigint_exact (z : Z) :
  (Z.abs z <= 2 ^ 53)%Z -> Number_of_bigint z = z.
Proof.
  intros Hz. unfold Number_of_bigint.
  destruct (Z.leb_spec (Z.log2 (Z.abs z) - 52) 0) as [_ | He]; [reflexivity|].
  assert (Ha : (Z.abs z = 2 ^ 53)%Z).
  { destruct (Z.eq_dec (Z.abs z) (2 ^ 53)%Z) as [E | N]; [exact E | exfalso].
    assert (P : (0 < Z.abs z)%Z).
    { destruct (Z.abs z) as [|p|p] eqn:E; [simpl in He; lia | lia | lia]. }
    assert (L : (Z.log2 (Z.abs z) < 53)%Z)
      by (apply Z.log2_lt_pow2; lia).
    lia. }
  assert (Hcases : z = (2 ^ 53)%Z \/ z = (- 2 ^ 53)%Z) by lia.
  destruct Hcases as [-> | ->]; vm_compute; reflexivity.
Qed.

Lemma num_converted (c : intcell) : converted c (num (cell_value c)).
Proof.
  destruct c as [|z|z]; simpl; try reflexivity.
  exists (Number_of_bigint z). split; [reflexivity|].
  apply Number_of_bigint_exact.
Qed.

Lemma num_never_bigint (v : value) : is_bigint (num v) = false.
Proof. now destruct v. Qed.

Lemma num_number (c : intcell) :
  c <> IntNull -> is_number (num (cell_value c)) = true.
Proof. destruct c; simpl; congruence. Qed.

(** C10 (as the code has it).  Every feature returned by a search is made
    from a row of the catalog; its geometry is a Polygon whose single ring
    is the five-point rectangle over the row's bbox columns, first point
    equal to last; and each of [file_size], [width], [height], [bands],
    [epsg] is never a BigInt: it is a Number whenever the cell holds an
    integer, carrying that integer (BigInt cells converted by [Number]),
    and [null] for a NULL cell. *)
Theorem features_are_rectangles_with_plain_numbers {casing : Casing}
    (w : World) (a : SearchParams) (rt : Runtime)
    (feats : list Feature) (f : Feature) :
  fst (searchCatalog w a rt) = Resolved feats ->
  In f feats ->
  exists table row,
    parquet w = Resolved table /\ In row table
    /\ g_type (geometry f) = "Polygon"
    /\ coordinates (geometry f)
       = [ rectangle_ring (bbox_xmin row) (bbox_ymin row)
             (bbox_xmax row) (bbox_ymax row) ]
    /\ (forall ring, In ring (coordinates (geometry f)) ->
          length ring = 5%nat /\ closed ring)
    /\ Forall (fun v => is_bigint v = false) (int_properties f)
    /\ Forall2 (fun c v => converted c v /\ (c <> IntNull -> is_number v = true))
         (int_cells row) (int_properties f).
Proof.
  intros Hs Hf.
  destruct (searchCatalog_resolved w a rt feats Hs) as (table & Ht & ->).
  apply List.in_map_iff in Hf as (row & <- & Hrow).
  apply In_query_rows in Hrow as [Hin _].
  exists table, row. split; [exact Ht|]. split; [exact Hin|].
  split; [reflexivity|]. split; [reflexivity|]. split; [|split].
  - intros ring [<- | []]. split; reflexivity.
  - unfold int_properties; simpl. repeat constructor; apply num_never_bigint.
  - unfold int_properties, int_cells; simpl.
    repeat (constructor; [split; [apply num_converted | apply num_number]|]).
    constructor.
Qed.

Lemma features_are_rectangles_with_plain_numbers_witness :
  exists table row,
    parquet (world [rowA; rowB]) = Resolved table /\ In row table
    /\ g_type (geometry (toFeature rowA)) = "Polygon"
    /\ coordinates (geometry (toFeature rowA))
       = [ rectangle_ring (bbox_xmin row) (bbox_ymin row)
             (bbox_xmax row) (bbox_ymax row) ]
    /\ (forall ring, In ring (coordinates (geometry (toFeature rowA))) ->
          length ring = 5%nat /\ closed ring)
    /\ Forall (fun v => is_bigint v = false) (int_properties (toFeature rowA))
    /\ Forall2 (fun c v => converted c v /\ (c <> IntNull -> is_number v = true))
         (int_cells row) (int_properties (toFeature rowA)).
Proof.
  apply (features_are_rectangles_with_plain_numbers
           (world [rowA; rowB])
           (with_bbox (Some scenarioA_bbox) defaults) boot
           [toFeature rowA] (toFeature rowA)).
  - vm_compute; reflexivity.
  - now left.
Defined.

(** C10 as stated fails on one point: a NULL integer cell is handed on as
    [null], which is not a Number. *)
Lemma null_cell_stays_null :
  fst (searchCatalog (world [rowA; rowB])
         (with_bbox (Some far_bbox) defaults) boot)
  = Resolved [toFeature rowB]
  /\ width rowB = IntNull
  /\ p_width (properties (toFeature rowB)) = VNull
  /\ is_number (p_width (properties (toFeature rowB))) = false.
Proof. repeat split; vm_compute; reflexivity. Qed.

End FeatureProperties.

Section StatsProperties.
Import JS Sql Catalog Spec Samples.

(** C9 (as the code has it).  Once a connection is there, a failing
    statistics query never reaches the caller: [getCatalogStats] answers
    with the zeroed statistics.  The one error it lets through is a failed
    [initCatalog], awaited before the [try] block: it rejects exactly when
    obtaining the connection rejects, with that error. *)
Theorem stats_absorb_query_failure (w : World) (rt : Runtime) :
  (forall e, fst (ensure_conn w rt) = Resolved tt ->
             parquet w = Rejected e ->
             fst (getCatalogStats w rt) = Resolved zero_stats)
  /\ (forall e, fst (getCatalogStats w rt) = Rejected e
                <-> fst (ensure_conn w rt) = Rejected e).
Proof.
  unfold getCatalogStats.
  destruct (ensure_conn w rt) as [[u|e'] rt']; simpl; split.
  - intros e _ ->. reflexivity.
  - intros e. destruct (parquet w) as [table|]; simpl;
      [destruct (aggregate w table)|]; simpl; split; discriminate.
  - intros e H. discriminate H.
  - intros e. split; intros [= ->]; reflexivity.
Qed.

Lemma stats_absorb_query_failure_witness :
  fst (getCatalogStats no_catalog boot)
  = Resolved {| totalImages := 0; earliest := None; latest := None;
                platformCount := 0; totalSizeBytes := 0 |}.
Proof.
  apply (proj1 (stats_absorb_query_failure no_catalog boot)
           "HTTP 404 (Not Found)"); reflexivity.
Defined.

(** C9 as stated fails: when DuckDB-WASM cannot be started, the rejection
    of [initCatalog] comes out of [getCatalogStats]. *)
Lemma stats_propagate_init_failure :
  fst (getCatalogStats no_engine boot)
  = Rejected "WebAssembly is not available".
Proof. reflexivity. Qed.

End StatsProperties.

(* ===================================================================== *)
(** * initCatalog under interleaved callers                               *)
(* ===================================================================== *)

Module FlightFacts.
Import JS Catalog Flight.

Lemma step_single_flight (s : Obs) (e : event) :
  single_flight s -> single_flight (step s e).
Proof.
  unfold single_flight. destruct s as [[c ip h n] hs]; simpl.
  destruct e as [|o]; simpl.
  - unfold initCatalog; simpl. destruct ip as [p|]; simpl.
    + intros (-> & Hh & Hn & Hf). repeat split; try assumption.
      now constructor.
    + intros (-> & -> & ->). simpl. repeat split. now constructor.
  - unfold finish_setup; simpl. destruct ip as [p|]; simpl; [|trivial].
    destruct (h !! p) as [[| |e]|] eqn:E; simpl; try trivial.
    destruct o as [u|e]; simpl; intros (-> & Hh & Hn & Hf);
      rewrite length_insert; auto.
Qed.

Lemma fold_single_flight (trace : list event) (s : Obs) :
  single_flight s -> single_flight (fold_left step trace s).
Proof.
  revert s. induction trace as [|e trace IH]; intros s H; simpl;
    [exact H | apply IH, step_single_flight, H].
Qed.

Lemma run_single_flight (trace : list event) : single_flight (run trace).
Proof. apply fold_single_flight. now repeat split. Qed.

Lemma step_keeps_promise (s : Obs) (e : event) :
  initPromise (rt s) <> None -> initPromise (rt (step s e)) <> None.
Proof.
  destruct s as [[c ip h n] hs]; simpl. destruct e as [|o]; simpl.
  - unfold initCatalog; simpl. destruct ip; simpl; congruence.
  - unfold finish_setup; simpl. destruct ip as [p|]; [|congruence].
    destruct (h !! p) as [[| |e]|]; simpl; try congruence.
    destruct o; simpl; congruence.
Qed.

Lemma fold_keeps_promise (trace : list event) (s : Obs) :
  initPromise (rt s) <> None ->
  initPromise (rt (fold_left step trace s)) <> None.
Proof.
  revert s. induction trace as [|e trace IH]; intros s H; simpl;
    [exact H | apply IH, step_keeps_promise, H].
Qed.

Lemma call_sets_promise (s : Obs) : initPromise (rt (step s CallInit)) <> None.
Proof.
  destruct s as [[c ip h n] hs]; simpl. unfold initCatalog; simpl.
  destruct ip; simpl; congruence.
Qed.

Lemma fold_call_sets_promise (trace : list event) (s : Obs) :
  existsb is_call trace = true ->
  initPromise (rt (fold_left step trace s)) <> None.
Proof.
  revert s. induction trace as [|e trace IH]; intros s; simpl; [discriminate|].
  destruct e as [|o]; simpl.
  - intros _. apply fold_keeps_promise, call_sets_promise.
  - apply IH.
Qed.

(** Calls alone leave a started setup as it is. *)
Lemma calls_keep_runtime (trace : list event) (s : Obs) :
  forallb is_call trace = true ->
  initPromise (rt s) <> None ->
  rt (fold_left step trace s) = rt s.
Proof.
  revert s. induction trace as [|e trace IH]; intros s Hall Hs;
    [reflexivity|].
  destruct e as [|o]; simpl in Hall; [|discriminate].
  cbn [fold_left].
  assert (E : rt (step s CallInit) = rt s).
  { destruct s as [[c ip h n] hs]; simpl in *. unfold initCatalog; simpl.
    destruct ip; simpl; congruence. }
  rewrite IH; [exact E | exact Hall | rewrite E; exact Hs].
Qed.

(** A settled promise stays as it settled. *)
Lemma settled_step (s : Obs) (e : event) (p : nat) (st : pstate) :
  initPromise (rt s) = Some p -> heap (rt s) !! p = Some st -> st <> Pending ->
  rt (step s e) = rt s.
Proof.
  destruct s as [[c ip h n] hs]; simpl. intros -> Hh Hst.
  destruct e as [|o]; simpl; [reflexivity|].
  unfold finish_setup; simpl. rewrite Hh. destruct st; congruence.
Qed.

Lemma settled_fold (trace : list event) (s : Obs) (p : nat) (st : pstate) :
  initPromise (rt s) = Some p -> heap (rt s) !! p = Some st -> st <> Pending ->
  rt (fold_left step trace s) = rt s.
Proof.
  revert s. induction trace as [|e trace IH]; intros s Hp Hh Hst;
    [reflexivity|].
  cbn [fold_left].
  pose proof (settled_step s e p st Hp Hh Hst) as E.
  rewrite (IH (step s e)); [exact E | | |]; rewrite ?E; assumption.
Qed.

Lemma first_calls (pre : list event) :
  forallb is_call pre = true -> existsb is_call pre = true ->
  rt (run pre)
  = {| conn := false; initPromise := Some 0%nat; heap := [Pending];
       launches := 1 |}.
Proof.
  destruct pre as [|e pre]; simpl; [discriminate|].
  destruct e as [|o]; simpl; [|discriminate].
  intros Hall _. unfold run. simpl.
  rewrite calls_keep_runtime; [reflexivity | exact Hall | simpl; congruence].
Qed.

(** Calls, then the setup ends in a rejection: whatever follows, the
    promise stays rejected with that error. *)
Lemma rejected_run (pre post : list event) (e : string) :
  forallb is_call pre = true -> existsb is_call pre = true ->
  rt (run (pre ++ SetupEnds (Rejected e) :: post))
  = {| conn := false; initPromise := Some 0%nat; heap := [Failed e];
       launches := 1 |}.
Proof.
  intros Hall Hex. unfold run. rewrite fold_left_app. cbn [fold_left].
  fold (run pre). pose proof (first_calls pre Hall Hex) as Hpre.
  assert (E1 : rt (step (run pre) (SetupEnds (Rejected e)))
               = {| conn := false; initPromise := Some 0%nat;
                    heap := [Failed e]; launches := 1 |}).
  { simpl. rewrite Hpre. reflexivity. }
  rewrite (settled_fold post _ 0%nat (Failed e)); rewrite ?E1; simpl;
    congruence.
Qed.

End FlightFacts.

Section InitProperties.
Import JS Catalog Flight FlightFacts.

(** C4.  Whatever the interleaving of calls to [initCatalog] with the end
    of the setup: the setup body is started at most once, and exactly once
    as soon as there is a call; there is one promise per start; every call
    is handed the promise stored in [initPromise], so any two callers hold
    the same promise and observe the same outcome; and if the setup that
    the first calls started ends in a rejection, every caller, earlier or
    later, observes that rejection with that error. *)
Theorem initCatalog_is_single_flight (trace : list event) :
  (launches (rt (run trace)) <= 1)%nat
  /\ length (heap (rt (run trace))) = launches (rt (run trace))
  /\ (existsb is_call trace = true -> launches (rt (run trace)) = 1%nat)
  /\ (forall p, In p (handed (run trace)) ->
        initPromise (rt (run trace)) = Some p)
  /\ (forall p q, In p (handed (run trace)) -> In q (handed (run trace)) ->
        p = q /\ observe (rt (run trace)) p = observe (rt (run trace)) q)
  /\ (forall pre post e,
        trace = pre ++ SetupEnds (Rejected e) :: post ->
        forallb is_call pre = true -> existsb is_call pre = true ->
        forall p, In p (handed (run trace)) ->
                  observe (rt (run trace)) p = Some (Rejected e)).
Proof.
  pose proof (run_single_flight trace) as Inv. unfold single_flight in Inv.
  assert (Same : forall p, In p (handed (run trace)) ->
                           initPromise (rt (run trace)) = Some p).
  { intros p Hp. destruct (initPromise (rt (run trace))) as [p0|].
    - destruct Inv as (-> & _ & _ & Hf).
      rewrite List.Forall_forall in Hf. now rewrite (Hf p Hp).
    - destruct Inv as (E & _). rewrite E in Hp. destruct Hp. }
  split; [|split; [|split; [|split; [exact Same|split]]]].
  - destruct (initPromise (rt (run trace))); lia.
  - destruct (initPromise (rt (run trace))).
    + lia.
    + destruct Inv as (_ & -> & ->). reflexivity.
  - intros Hc. pose proof (fold_call_sets_promise trace start Hc) as Hp.
    fold (run trace) in Hp.
    destruct (initPromise (rt (run trace))); [lia | congruence].
  - intros p q Hp Hq. apply Same in Hp, Hq.
    assert (p = q) by congruence. now subst.
  - intros pre post e -> Hall Hex p Hp. apply Same in Hp.
    rewrite (rejected_run pre post e Hall Hex) in *.
    simpl in Hp. injection Hp as <-. reflexivity.
Qed.

Lemma initCatalog_is_single_flight_witness :
  launches (rt (run [CallInit; CallInit; SetupEnds (Rejected "no worker");
                     CallInit; SetupEnds (Resolved tt)])) = 1%nat
  /\ handed (run [CallInit; CallInit; SetupEnds (Rejected "no worker");
                  CallInit; SetupEnds (Resolved tt)]) = [0; 0; 0]%nat
  /\ forall p,
       In p (handed (run [CallInit; CallInit; SetupEnds (Rejected "no worker");
                          CallInit; SetupEnds (Resolved tt)])) ->
       observe (rt (run [CallInit; CallInit; SetupEnds (Rejected "no worker");
                         CallInit; SetupEnds (Resolved tt)])) p
       = Some (Rejected "no worker").
Proof.
  split; [reflexivity|]. split; [reflexivity|].
  apply (proj2 (proj2 (proj2 (proj2 (proj2
           (initCatalog_is_single_flight
              [CallInit; CallInit; SetupEnds (Rejected "no worker");
               CallInit; SetupEnds (Resolved tt)]))))))
    with (pre := [CallInit; CallInit])
         (post := [CallInit; SetupEnds (Resolved tt)]);
    reflexivity.
Defined.

End InitProperties.

(* ===================================================================== *)
(** * runSearch: which result the feature list shows                      *)
(* ===================================================================== *)

Module AppFacts.
Import JS Catalog App.

Section Runs.
Context {casing : Casing}.

Lemma runSearch_call_features (w : World) (ready : bool) (b : option Bbox)
    (f : Filters) (s : State) :
  features (runSearch_call w ready b f s) = features s.
Proof.
  unfold runSearch_call. destruct b as [b|]; [|reflexivity].
  destruct (negb ready); [reflexivity|].
  now destruct (searchCatalog w (search_args b f) (runtime s)).
Qed.

(** Only the continuation of a search writes the feature list. *)
Lemma step_features (w : World) (s : State) (e : event) :
  is_settle e = false -> features (step w s e) = features s.
Proof.
  destruct e as [b|f| | | |u|k]; cbn [step is_settle]; try reflexivity;
    try discriminate; intros _.
  - destruct (initCatalog (runtime s)) as [p rt1].
    now destruct (observe (finish_setup (setup w) rt1) p) as [[u|e]|].
  - destruct (searchDebounce s) as [[b f]|]; [|reflexivity].
    now rewrite runSearch_call_features.
  - destruct (uploads s !! u) as [[[b f] ready]|]; [|reflexivity].
    now rewrite runSearch_call_features.
Qed.

Lemma settle_features (w : World) (s : State) (k : nat)
    (results : list Feature) :
  inflight s !! k = Some (Resolved results) ->
  features (step w s (SearchSettles k)) = results.
Proof. simpl. unfold runSearch_resume. now intros ->. Qed.

(** A search that settles with an error leaves the list alone. *)
Lemma no_result_step (w : World) (s : State) (e : event) :
  match e with
  | SearchSettles k =>
      match inflight s !! k with
      | Some (Resolved _) => False
      | _ => True
      end
  | _ => True
  end ->
  features (step w s e) = features s.
Proof.
  destruct (is_settle e) eqn:E; [|intros _; now apply step_features].
  destruct e as [b|f| | | |u|k]; try discriminate E.
  cbn [step]. unfold runSearch_resume.
  destruct (inflight s !! k) as [[l|err]|]; [intros [] | reflexivity..].
Qed.

Lemma no_result_features (w : World) (trace : list event) (s : State) :
  no_result w s trace -> features (run w s trace) = features s.
Proof.
  unfold run. revert s. induction trace as [|e trace IH]; intros s H;
    [reflexivity|].
  cbn [no_result] in H. destruct H as [He Ht]. cbn [fold_left].
  rewrite (IH _ Ht). now apply no_result_step.
Qed.

End Runs.

End AppFacts.

Section StaleResults.
Import JS Sql Catalog App AppFacts Samples.

(** C6 (as the code has it).  The feature list shows the result of the
    search that settled with a result last, whatever its place in the
    order of issue: when the search with sequence number [k] settles with
    [results], the list becomes [results] and stays so, through every
    later event and every later search that fails, until another search
    settles with a result.  A new viewport or new filters replace the
    armed debounce timer, so a search that has not started yet is
    superseded, but nothing is done to the searches in flight. *)
Theorem feature_list_shows_last_settled_search {casing : Casing}
    (w : World) (s : State) (before after : list event) (k : nat)
    (results : list Feature) :
  inflight (run w s before) !! k = Some (Resolved results) ->
  no_result w (run w s (before ++ [SearchSettles k])) after ->
  features (run w s (before ++ SearchSettles k :: after)) = results
  /\ (forall b, searchDebounce (step w (run w s before) (MapMoveEnd b))
                = Some (b, filters (run w s before))
                /\ inflight (step w (run w s before) (MapMoveEnd b))
                   = inflight (run w s before))
  /\ (forall f, searchDebounce (step w (run w s before) (FilterChange f))
                = option_map (fun b => (b, f))
                    (viewportBbox (run w s before))
                /\ inflight (step w (run w s before) (FilterChange f))
                   = inflight (run w s before)).
Proof.
  intros Hk Hafter. split; [|split].
  - unfold run in *. rewrite fold_left_app in *. cbn [fold_left] in *.
    fold (run w s before) in *.
    fold (run w (step w (run w s before) (SearchSettles k)) after).
    rewrite (no_result_features w after _ Hafter).
    now apply settle_features.
  - intros b; split; reflexivity.
  - intros f; split; [|reflexivity]. cbn [step arm searchDebounce].
    cbn [viewportBbox filters].
    now destruct (viewportBbox (run w s before)).
Qed.

Lemma feature_list_shows_last_settled_search_witness :
  features (run (world [rowA; rowB]) initial
              (failing_second
               ++ SearchSettles 0 :: [SearchSettles 1; MapMoveEnd far_bbox]))
  = [toFeature rowA].
Proof.
  apply (feature_list_shows_last_settled_search
           (world [rowA; rowB]) initial
           failing_second [SearchSettles 1; MapMoveEnd far_bbox] 0%nat
           [toFeature rowA]).
  - vm_compute. reflexivity.
  - vm_compute. tauto.
Defined.

(** C6 as stated fails.  Search 0 is issued for the first viewport and
    search 1 for the second; search 1 settles first and its features are
    shown; when search 0 settles afterwards, its features replace them. *)
Lemma stale_result_replaces_newer_one :
  issued (run (world [rowA; rowB]) initial two_searches) = 2%nat
  /\ inflight (run (world [rowA; rowB]) initial two_searches) !! 0%nat
     = Some (Resolved [toFeature rowA])
  /\ inflight (run (world [rowA; rowB]) initial two_searches) !! 1%nat
     = Some (Resolved [toFeature rowB])
  /\ features (run (world [rowA; rowB]) initial
                 (two_searches ++ [SearchSettles 1]))
     = [toFeature rowB]
  /\ features (run (world [rowA; rowB]) initial
                 (two_searches ++ [SearchSettles 1; SearchSettles 0]))
     = [toFeature rowA]
  /\ toFeature rowA <> toFeature rowB.
Proof.
  repeat split; try (vm_compute; reflexivity).
  vm_compute. discriminate.
Qed.

End StaleResults.

(* ===================================================================== *)
(** * pollStatus: the bound on polling                                    *)
(* ===================================================================== *)

Module PollFacts.
Import Upload.

Lemma tick_stopped (resp : response) (m : Modal) :
  interval m = false -> tick resp m = m.
Proof. unfold tick. now intros ->. Qed.

Lemma tick_timeout (resp : response) (m : Modal) :
  interval m = true -> (maxPolls < S (pollCount m))%nat ->
  tick resp m
  = {| status := Error; error := timeout_message;
       processingStep := processingStep m; interval := false;
       pollCount := S (pollCount m); fetches := fetches m;
       completions := completions m |}.
Proof.
  intros Hi Hc. unfold tick. rewrite Hi. cbn [negb].
  apply Nat.ltb_lt in Hc. now rewrite Hc.
Qed.

(** A firing within the bound sends one request; if the interval is still
    armed afterwards, status and completions are untouched. *)
Lemma tick_fetch (resp : response) (m : Modal) :
  interval m = true -> (S (pollCount m) <= maxPolls)%nat ->
  fetches (tick resp m) = S (fetches m)
  /\ pollCount (tick resp m) = S (pollCount m)
  /\ (interval (tick resp m) = true ->
      status (tick resp m) = status m
      /\ completions (tick resp m) = completions m)
  /\ (terminal resp = false -> interval (tick resp m) = true).
Proof.
  intros Hi Hc. unfold tick. rewrite Hi. cbn [negb].
  apply Nat.ltb_ge in Hc. rewrite Hc.
  destruct resp as [| |data]; cbn; auto.
  destruct (status_is data "complete"); cbn;
    [repeat split; discriminate|].
  destruct (status_is data "error"); cbn; repeat split; auto; discriminate.
Qed.

Section OneUpload.
Variable id : string.
Variable server : string -> nat -> response.

Let after (n : nat) : Modal := pollStatus id server n.
Let answer (k : nat) : response := server (statusUrl id) k.

Lemma poll_S (k : nat) : after (S k) = tick (answer k) (after k).
Proof. reflexivity. Qed.

(** While the interval is armed, nothing but counting has happened. *)
Lemma poll_armed (n : nat) :
  interval (after n) = true ->
  pollCount (after n) = n /\ fetches (after n) = n
  /\ status (after n) = Processing
  /\ completions (after n) = 0%nat
  /\ (n <= maxPolls)%nat.
Proof.
  induction n as [|k IH]; [unfold maxPolls; simpl; repeat split; lia|].
  rewrite poll_S. destruct (interval (after k)) eqn:Hi.
  - destruct (IH eq_refl) as (Hc & Hf & Hs & Hd & Hk).
    destruct (Nat.lt_ge_cases maxPolls (S k)) as [Hgt | Hle].
    + rewrite tick_timeout by (rewrite ?Hc; auto). discriminate.
    + destruct (tick_fetch (answer k) (after k) Hi) as (F & P & K & _);
        [rewrite Hc; exact Hle|].
      intros Ha. destruct (K Ha) as [Ks Kc].
      rewrite F, P, Ks, Kc, Hc, Hf. auto.
  - rewrite (tick_stopped _ _ Hi). congruence.
Qed.

Lemma poll_fetches (n : nat) :
  (fetches (after n) <= maxPolls)%nat /\ (fetches (after n) <= n)%nat.
Proof.
  induction n as [|k [IH1 IH2]]; [unfold maxPolls; simpl; lia|].
  rewrite poll_S. destruct (interval (after k)) eqn:Hi.
  - destruct (poll_armed k Hi) as (Hc & Hf & _ & _ & Hk).
    destruct (Nat.lt_ge_cases maxPolls (S k)) as [Hgt | Hle].
    + rewrite tick_timeout by (rewrite ?Hc; auto). cbn. lia.
    + destruct (tick_fetch (answer k) (after k) Hi) as (F & _);
        [rewrite Hc; exact Hle|].
      rewrite F, Hf. lia.
  - rewrite (tick_stopped _ _ Hi). lia.
Qed.

Lemma poll_stays_stopped (n k : nat) :
  interval (after n) = false -> after (k + n) = after n.
Proof.
  intros Hn. induction k as [|k IH]; [reflexivity|].
  cbn [Nat.add]. rewrite poll_S, IH. now apply tick_stopped.
Qed.

Lemma poll_stops_by_121 (n : nat) :
  (maxPolls < n)%nat -> interval (after n) = false.
Proof.
  intros Hn. destruct (interval (after n)) eqn:Hi; [|reflexivity].
  destruct (poll_armed n Hi) as (_ & _ & _ & _ & Hle). lia.
Qed.

Lemma poll_waits (n : nat) :
  (forall i, (i < maxPolls)%nat -> terminal (answer i) = false) ->
  (n <= maxPolls)%nat -> interval (after n) = true.
Proof.
  intros Hs. induction n as [|k IH]; intros Hn; [reflexivity|].
  rewrite poll_S.
  assert (Hi : interval (after k) = true) by (apply IH; lia).
  destruct (poll_armed k Hi) as (Hc & _).
  destruct (tick_fetch (answer k) (after k) Hi) as (_ & _ & _ & T);
    [rewrite Hc; exact Hn|].
  apply T, Hs. lia.
Qed.

(** The answers from firing 120 on are never looked at. *)
Lemma poll_reads_first_120 (server' : string -> nat -> response) (n : nat) :
  (forall i, (i < maxPolls)%nat -> server' (statusUrl id) i = answer i) ->
  pollStatus id server' n = after n.
Proof.
  intros Hs. induction n as [|k IH]; [reflexivity|].
  rewrite poll_S. cbn [pollStatus]. rewrite IH.
  destruct (interval (after k)) eqn:Hi.
  - destruct (poll_armed k Hi) as (Hc & _).
    destruct (Nat.lt_ge_cases k maxPolls) as [Hlt | Hge].
    + now rewrite Hs.
    + rewrite !tick_timeout by (rewrite ?Hc; auto; lia). reflexivity.
  - now rewrite !tick_stopped.
Qed.

(** With no final status among the first 120 answers, the modal is in its
    time-out state from firing 121 on. *)
Lemma poll_timed_out (n : nat) :
  (forall i, (i < maxPolls)%nat -> terminal (answer i) = false) ->
  (maxPolls < n)%nat ->
  after n
  = {| status := Error; error := timeout_message;
       processingStep := processingStep (after maxPolls);
       interval := false; pollCount := S maxPolls; fetches := maxPolls;
       completions := 0 |}.
Proof.
  intros Hs Hn.
  pose proof (poll_waits maxPolls Hs (Nat.le_refl _)) as Hi.
  destruct (poll_armed maxPolls Hi) as (Hc & Hf & _ & Hd & _).
  assert (E : after (S maxPolls)
              = {| status := Error; error := timeout_message;
                   processingStep := processingStep (after maxPolls);
                   interval := false; pollCount := S maxPolls;
                   fetches := maxPolls; completions := 0 |}).
  { rewrite (poll_S maxPolls).
    rewrite tick_timeout by (rewrite ?Hc; auto).
    now rewrite Hc, Hf, Hd. }
  replace n with ((n - S maxPolls) + S maxPolls)%nat by lia.
  rewrite poll_stays_stopped; [exact E | now rewrite E].
Qed.

End OneUpload.

End PollFacts.

Section PollingProperties.
Import Upload PollFacts.

(** C8 (as the code has it).  Polling is bounded by the constant
    [maxPolls = 120] written in [pollStatus]: never more than 120 requests
    are sent and the interval is cleared by firing 121 at the latest.  If
    none of the first 120 answers is a final status, firing 121 clears the
    interval and reports the error state with the time-out message, after
    exactly 120 requests and without calling [onUploadComplete]; the modal
    then stays as it is.  The outcome is the client's alone: what the
    status URL answers from firing 120 on, success included, has no part
    in it. *)
Theorem polling_is_bounded_by_120
    (id : string) (server : string -> nat -> response) :
  (forall n, (fetches (pollStatus id server n) <= 120)%nat)
  /\ (forall n, (120 < n)%nat -> interval (pollStatus id server n) = false)
  /\ ((forall i, (i < 120)%nat -> terminal (server (statusUrl id) i) = false) ->
      forall n, (120 < n)%nat ->
        pollStatus id server n
        = {| status := Error; error := timeout_message;
             processingStep := processingStep (pollStatus id server 120);
             interval := false; pollCount := 121; fetches := 120;
             completions := 0 |})
  /\ (forall server' n,
        (forall i, (i < 120)%nat ->
                   server' (statusUrl id) i = server (statusUrl id) i) ->
        pollStatus id server' n = pollStatus id server n).
Proof.
  split; [intros n; apply poll_fetches|].
  split; [intros n; apply poll_stops_by_121|].
  split; [|intros server' n; apply poll_reads_first_120].
  intros Hs n Hn. apply (poll_timed_out id server n Hs Hn).
Qed.

Lemma polling_is_bounded_by_120_witness :
  pollStatus "u-1" late_success 200
  = {| status := Error; error := timeout_message;
       processingStep := processingStep (pollStatus "u-1" late_success 120);
       interval := false; pollCount := 121; fetches := 120;
       completions := 0 |}
  /\ terminal (late_success (statusUrl "u-1") 150) = true.
Proof.
  split; [|reflexivity].
  apply (proj1 (proj2 (proj2 (polling_is_bounded_by_120 "u-1" late_success)))).
  - intros i Hi. unfold late_success.
    destruct (Nat.ltb_spec i 130) as [_ | Hge]; [reflexivity | lia].
  - lia.
Defined.

(** C8 as stated fails on one point: the bound is not the caller's to
    configure.  [pollStatus] takes the upload id and nothing else, and
    whatever id it is given, a status URL that never reports leads to 120
    requests; no call makes it stop after, say, 10 attempts. *)
Lemma bound_is_not_caller_configured :
  (forall id, fetches (pollStatus id silent 200) = 120%nat)
  /\ ~ (exists id, forall server n,
          (fetches (pollStatus id server n) <= 10)%nat).
Proof.
  assert (All : forall id, fetches (pollStatus id silent 200) = 120%nat).
  { intros id. rewrite (poll_timed_out id silent 200); [reflexivity | |].
    - reflexivity.
    - unfold maxPolls. lia. }
  split; [exact All|].
  intros (id & H). specialize (H silent 200%nat). rewrite All in H. lia.
Qed.

End PollingProperties.

(* ===================================================================== *)
(** * Further properties of the catalog module                            *)
(* ===================================================================== *)

Module ApiFacts.
Import JS Sql Catalog Api Spec QueryFacts SearchFacts.

Section Calls.
Context {casing : Casing}.

Lemma NoDup_map_filter {A B} (f : A -> B) (p : A -> bool) (l : list A) :
  List.NoDup (map f l) -> List.NoDup (map f (List.filter p l)).
Proof.
  induction l as [|x l IH]; simpl; intros H; [constructor|].
  inversion H as [|y l' Hx Hl]; subst. destruct (p x); simpl; [|now apply IH].
  constructor; [|now apply IH].
  intros Hin. apply Hx. apply List.in_map_iff in Hin as (z & E & Hz).
  apply List.in_map_iff. exists z. split; [exact E|].
  now apply List.filter_In in Hz.
Qed.

Lemma NoDup_firstn {A} (n : nat) (l : list A) :
  List.NoDup l -> List.NoDup (firstn n l).
Proof.
  intros H. revert n. induction H as [|x l Hx Hl IH]; intros [|n]; simpl;
    try constructor; [|apply IH].
  intros Hin. apply Hx. eapply firstn_In; eauto.
Qed.

Lemma firstn_map {A B} (f : A -> B) (n : nat) (l : list A) :
  firstn n (map f l) = map f (firstn n l).
Proof.
  revert n. induction l as [|x l IH]; intros [|n]; simpl; try reflexivity.
  now rewrite IH.
Qed.

(** The ids of the rows of a query, when those of the table are distinct. *)
Lemma query_rows_NoDup cast (conds : list cond) (n : nat) (table : list Row) :
  List.NoDup (map id table) ->
  List.NoDup
    (map id (LIMIT n (order_by_datetime_desc
                        (List.filter (keeps cast conds) table)))).
Proof.
  intros H. unfold LIMIT. rewrite <- firstn_map. apply NoDup_firstn.
  eapply Permutation_NoDup.
  - apply Permutation_map, order_by_perm.
  - now apply NoDup_map_filter.
Qed.

Lemma ensure_conn_cases (w : World) (rt : Runtime) :
  (exists rt', ensure_conn w rt = (Resolved tt, rt'))
  \/ (exists e rt', ensure_conn w rt = (Rejected e, rt')).
Proof.
  destruct (ensure_conn w rt) as [[[]|e] rt']; [left | right]; eauto.
Qed.

Lemma or_default_nonempty (x : option string) (d : string) :
  d <> "" -> or_default x d <> "".
Proof.
  intros Hd. unfold or_default. destruct x as [s|]; [|exact Hd].
  destruct (truthy_string s) eqn:E; [|exact Hd].
  now apply truthy_string_iff.
Qed.

Lemma conditions_zero_maxGsd (g : Q) (a : SearchParams) :
  (g == 0)%Q ->
  build_conditions (with_maxGsd (Some g) a)
  = build_conditions (with_maxGsd None a).
Proof.
  intros Hg. unfold build_conditions, with_maxGsd.
  cbn [q_bbox q_dateStart q_dateEnd q_platform q_license q_maxGsd q_query].
  replace (truthy_number (Some g)) with false; [reflexivity|].
  simpl. apply Qeq_bool_iff in Hg. now rewrite Hg.
Qed.





(** The module state once the first setup has ended. *)
Lemma ensure_conn_boot (w : World) :
  ensure_conn w boot
  = match setup w with
    | Resolved _ =>
        (Resolved tt,
         {| conn := true; initPromise := Some 0%nat; heap := [Fulfilled];
            launches := 1 |})
    | Rejected e =>
        (Rejected e,
         {| conn := false; initPromise := Some 0%nat; heap := [Failed e];
            launches := 1 |})
    end.
Proof. unfold ensure_conn; simpl. now destruct (setup w). Qed.

Lemma ensure_conn_failed (w : World) (e : string) :
  ensure_conn w {| conn := false; initPromise := Some 0%nat;
                   heap := [Failed e]; launches := 1 |}
  = (Rejected e,
     {| conn := false; initPromise := Some 0%nat; heap := [Failed e];
        launches := 1 |}).
Proof. reflexivity. Qed.

Lemma ensure_conn_connected (w : World) (rt : Runtime) :
  conn rt = true -> ensure_conn w rt = (Resolved tt, rt).
Proof. unfold ensure_conn. now intros ->. Qed.

Lemma initCatalog_promise (rt : Runtime) :
  initPromise (snd (initCatalog rt)) = Some (fst (initCatalog rt)).
Proof. unfold initCatalog. now destruct (initPromise rt) eqn:E. Qed.

Lemma finish_setup_promise (o : outcome unit) (rt : Runtime) :
  initPromise (finish_setup o rt) = initPromise rt.
Proof.
  unfold finish_setup. destruct (initPromise rt) as [p|] eqn:E; [|exact E].
  destruct (heap rt !! p) as [[| |e]|]; try exact E.
  now destruct o.
Qed.

Lemma ensure_conn_settled (w : World) (rt : Runtime) (p : nat) :
  initPromise rt = Some p -> heap rt !! p = Some Fulfilled ->
  ensure_conn w rt = (Resolved tt, rt).
Proof.
  intros Hp Hh. unfold ensure_conn. destruct (conn rt); [reflexivity|].
  unfold initCatalog. rewrite Hp.
  unfold finish_setup. rewrite Hp, Hh.
  unfold observe. now rewrite Hh.
Qed.

(** Obtaining the connection once more after it was obtained changes
    nothing. *)
Lemma ensure_conn_again (w : World) (rt : Runtime) :
  fst (ensure_conn w rt) = Resolved tt ->
  ensure_conn w (snd (ensure_conn w rt))
  = (Resolved tt, snd (ensure_conn w rt)).
Proof.
  unfold ensure_conn at 1 3 4. destruct (conn rt) eqn:C.
  - intros _. simpl. now apply ensure_conn_connected.
  - pose proof (initCatalog_promise rt) as Hp.
    destruct (initCatalog rt) as [p rt1]. simpl in Hp.
    pose proof (finish_setup_promise (setup w) rt1) as Hq. rewrite Hp in Hq.
    set (rt2 := finish_setup (setup w) rt1) in *.
    unfold observe. destruct (heap rt2 !! p) as [[| |e]|] eqn:E; simpl;
      try discriminate.
    intros _. now apply (ensure_conn_settled w rt2 p).
Qed.

Lemma searchCatalog_runtime (w : World) (a : SearchParams) (rt : Runtime) :
  snd (searchCatalog w a rt) = snd (ensure_conn w rt).
Proof.
  unfold searchCatalog. destruct (ensure_conn w rt) as [[u|e] rt']; simpl;
    [|reflexivity]. now destruct (run_query w a).
Qed.

Lemma searchCatalog_needs_conn (w : World) (a : SearchParams) (rt : Runtime)
    (feats : list Feature) :
  fst (searchCatalog w a rt) = Resolved feats ->
  fst (ensure_conn w rt) = Resolved tt.
Proof.
  unfold searchCatalog. destruct (ensure_conn w rt) as [[[]|e] rt']; simpl;
    [reflexivity | discriminate].
Qed.

Section Sessions.
Variable tampered : list Row -> string -> outcome (option Row).
Variable w : World.

(** With a connection at hand, a call leaves the module state alone. *)
Lemma perform_connected (c : call) (rt : Runtime) :
  conn rt = true -> snd (perform tampered w c rt) = rt.
Proof.
  intros Hc. destruct c as [a| |i]; unfold perform.
  - unfold searchCatalog. rewrite (ensure_conn_connected w rt Hc).
    now destruct (run_query w a).
  - unfold getCatalogStats. rewrite (ensure_conn_connected w rt Hc).
    destruct (parquet w) as [table|]; [|reflexivity].
    now destruct (aggregate w table).
  - unfold getItem. rewrite (ensure_conn_connected w rt Hc).
    destruct (parquet w); [|reflexivity].
    destruct (has_quote i); [|reflexivity]. now destruct (tampered _ _).
Qed.

(** Without one, a call ends as obtaining the connection ends. *)
Lemma perform_no_conn (c : call) (rt rt' : Runtime) (e : string) :
  ensure_conn w rt = (Rejected e, rt') ->
  perform tampered w c rt = (Thrown e, rt').
Proof.
  intros H. destruct c as [a| |i]; unfold perform.
  - unfold searchCatalog. now rewrite H.
  - unfold getCatalogStats. now rewrite H.
  - unfold getItem. now rewrite H.
Qed.

Lemma perform_runtime (c : call) (rt : Runtime) :
  snd (perform tampered w c rt) = snd (ensure_conn w rt).
Proof.
  destruct c as [a| |i]; unfold perform.
  - unfold searchCatalog. destruct (ensure_conn w rt) as [[u|e] rt'];
      [|reflexivity]. now destruct (run_query w a).
  - unfold getCatalogStats. destruct (ensure_conn w rt) as [[u|e] rt'];
      [|reflexivity]. destruct (parquet w) as [table|]; [|reflexivity].
    now destruct (aggregate w table).
  - unfold getItem. destruct (ensure_conn w rt) as [[u|e] rt'];
      [|reflexivity]. destruct (parquet w); [|reflexivity].
    destruct (has_quote i); [|reflexivity]. now destruct (tampered _ _).
Qed.

Lemma session_failed (calls : list call) (e : string) :
  session tampered w calls
    {| conn := false; initPromise := Some 0%nat; heap := [Failed e];
       launches := 1 |}
  = (map (fun _ => Thrown e) calls,
     {| conn := false; initPromise := Some 0%nat; heap := [Failed e];
        launches := 1 |}).
Proof.
  induction calls as [|c calls IH]; [reflexivity|].
  cbn [session map].
  rewrite (perform_no_conn c _ _ e (ensure_conn_failed w e)).
  now rewrite IH.
Qed.

Lemma session_connected (calls : list call) (rt : Runtime) :
  conn rt = true -> snd (session tampered w calls rt) = rt.
Proof.
  revert rt. induction calls as [|c calls IH]; intros rt Hc; [reflexivity|].
  cbn [session]. pose proof (perform_connected c rt Hc) as E.
  destruct (perform tampered w c rt) as [r rt1]. simpl in E. subst rt1.
  specialize (IH rt Hc). destruct (session tampered w calls rt) as [rs rt2].
  exact IH.
Qed.
End Sessions.

Lemma find_id_some (table : list Row) (i : string) (r : Row) :
  In r table -> id r = i ->
  exists row, List.find (fun x => String.eqb (id x) i) table = Some row
              /\ In row table /\ id row = i.
Proof.
  intros Hin Hid.
  destruct (List.find (fun x => String.eqb (id x) i) table) as [row|] eqn:F.
  - exists row. split; [reflexivity|].
    apply List.find_some in F as [Hr He]. apply String.eqb_eq in He. now split.
  - exfalso. pose proof (List.find_none _ _ F r Hin) as N. simpl in N.
    rewrite Hid, String.eqb_refl in N. discriminate.
Qed.

End Calls.

End ApiFacts.

Section CatalogExtras.
Import JS Sql Catalog Api Spec Samples Samples2.
Import QueryFacts WhereFacts SearchFacts ApiFacts.

(** X1.  A search never returns more features than its [limit] (200 when
    none is given). *)
Theorem search_returns_at_most_limit {casing : Casing}
    (w : World) (a : SearchParams) (rt : Runtime) (feats : list Feature) :
  fst (searchCatalog w a rt) = Resolved feats ->
  (length feats <= q_limit a)%nat.
Proof.
  intros Hs. destruct (searchCatalog_resolved w a rt feats Hs) as (table & _ & ->).
  rewrite length_map. unfold LIMIT. rewrite length_firstn. lia.
Qed.

Lemma search_returns_at_most_limit_witness :
  (length [toFeature rowA] <= q_limit first_only)%nat.
Proof.
  apply (search_returns_at_most_limit (world [rowA; rowWide]) first_only boot).
  vm_compute; reflexivity.
Defined.

(** X3.  When the ids of the catalog are distinct, so are the ids of the
    features of any search. *)
Theorem search_ids_are_distinct {casing : Casing}
    (w : World) (a : SearchParams) (rt : Runtime)
    (table : list Row) (feats : list Feature) :
  parquet w = Resolved table ->
  List.NoDup (map id table) ->
  fst (searchCatalog w a rt) = Resolved feats ->
  List.NoDup (map (fun f => p_id (properties f)) feats).
Proof.
  intros Ht Hn Hs.
  destruct (searchCatalog_resolved w a rt feats Hs) as (table' & Ht' & ->).
  rewrite Ht in Ht'. injection Ht' as <-.
  rewrite map_map. cbn [toFeature properties p_id].
  now apply query_rows_NoDup.
Qed.

Lemma search_ids_are_distinct_witness :
  List.NoDup (map (fun f => p_id (properties f))
                [toFeature rowB; toFeature rowA; toFeature rowWide]).
Proof.
  apply (search_ids_are_distinct (world [rowA; rowB; rowWide]) defaults boot
           [rowA; rowB; rowWide]).
  - reflexivity.
  - repeat constructor; simpl; intuition discriminate.
  - vm_compute; reflexivity.
Defined.

(** X4.  Widening the query rectangle loses nothing: when the bbox of one
    search lies inside the bbox of another search with the same filters,
    and the wider search comes back with fewer than [limit] features, every
    feature of the narrower search is among them. *)
Theorem wider_bbox_returns_more {casing : Casing}
    (w : World) (a : SearchParams) (rt : Runtime)
    (west1 south1 east1 north1 west2 south2 east2 north2 : Q)
    (feats1 feats2 : list Feature) :
  (west2 <= west1 /\ south2 <= south1 /\ east1 <= east2 /\ north1 <= north2)%Q ->
  fst (searchCatalog w (with_bbox (Some (west1, south1, east1, north1)) a) rt)
  = Resolved feats1 ->
  fst (searchCatalog w (with_bbox (Some (west2, south2, east2, north2)) a) rt)
  = Resolved feats2 ->
  (length feats2 < q_limit a)%nat ->
  forall f, In f feats1 -> In f feats2.
Proof.
  intros (Hw & Hs & He & Hn) H1 H2 Hlen f Hf.
  destruct (searchCatalog_resolved _ _ _ _ H1) as (table & Ht & ->).
  destruct (searchCatalog_resolved _ _ _ _ H2) as (table' & Ht' & ->).
  rewrite Ht in Ht'. injection Ht' as <-.
  apply List.in_map_iff in Hf as (r & <- & Hr).
  apply In_query_rows in Hr as [Hin Hk].
  rewrite length_map in Hlen. cbn [with_bbox q_limit] in *.
  unfold LIMIT in *. rewrite (firstn_short _ _ Hlen).
  apply List.in_map. apply (Permutation_in _ (order_by_perm _)).
  apply List.filter_In. split; [exact Hin|].
  rewrite keeps_with_bbox in *. apply andb_true_iff in Hk as [Ho Hk].
  rewrite Hk, andb_true_r.
  rewrite !andb_true_iff, !Qle_bool_iff in *.
  destruct Ho as [[[O1 O2] O3] O4].
  repeat split; eapply Qle_trans; eauto.
Qed.

Lemma wider_bbox_returns_more_witness :
  In (toFeature rowA)
    (map toFeature
       (LIMIT 200
          (order_by_datetime_desc
             (List.filter
                (keeps cast
                   (build_conditions
                      (with_bbox (Some (-10, -10, 10, 10)%Q) defaults)))
                [rowA; rowB])))).
Proof.
  apply (wider_bbox_returns_more (world [rowA; rowB]) defaults boot
           (-6) (-6) 6 6 (-10) (-10) 10 10 [toFeature rowA]).
  - repeat split; discriminate.
  - vm_compute; reflexivity.
  - vm_compute; reflexivity.
  - vm_compute; lia.
  - now left.
Defined.

(** X5.  A [maxGsd] of zero is not an upper bound of zero: like a missing
    [maxGsd] it adds no condition, and the search behaves as if none had
    been given. *)
Theorem zero_maxGsd_is_no_filter {casing : Casing}
    (w : World) (a : SearchParams) (rt : Runtime) (g : Q) :
  (g == 0)%Q ->
  searchCatalog w (with_maxGsd (Some g) a) rt
  = searchCatalog w (with_maxGsd None a) rt.
Proof.
  intros Hg. unfold searchCatalog, run_query.
  now rewrite (conditions_zero_maxGsd g a Hg).
Qed.

Lemma zero_maxGsd_is_no_filter_witness :
  searchCatalog (world [rowA; rowB]) (with_maxGsd (Some (0 # 5)) one_day) boot
  = searchCatalog (world [rowA; rowB]) (with_maxGsd None one_day) boot.
Proof.
  apply (zero_maxGsd_is_no_filter (world [rowA; rowB]) one_day boot (0 # 5)).
  reflexivity.
Defined.

(** X6.  Whatever the row holds, NULL and empty strings included, the
    title, platform, producer name, provider and license of a returned
    feature are never empty, and the doubled properties agree: provider
    with producer name, date with datetime, thumbnail with thumbnail
    href. *)
Theorem feature_texts_are_never_empty {casing : Casing}
    (w : World) (a : SearchParams) (rt : Runtime)
    (feats : list Feature) (f : Feature) :
  fst (searchCatalog w a rt) = Resolved feats -> In f feats ->
  p_title (properties f) <> "" /\ p_platform (properties f) <> ""
  /\ p_producer_name (properties f) <> "" /\ p_license (properties f) <> ""
  /\ p_provider (properties f) = p_producer_name (properties f)
  /\ p_date (properties f) = p_datetime (properties f)
  /\ p_thumbnail (properties f) = p_thumbnail_href (properties f).
Proof.
  intros Hs Hf.
  destruct (searchCatalog_resolved w a rt feats Hs) as (table & _ & ->).
  apply List.in_map_iff in Hf as (row & <- & _). simpl.
  repeat split; apply or_default_nonempty; discriminate.
Qed.

Lemma feature_texts_are_never_empty_witness :
  p_title (properties (toFeature rowB)) <> ""
  /\ p_platform (properties (toFeature rowB)) <> ""
  /\ p_producer_name (properties (toFeature rowB)) <> ""
  /\ p_license (properties (toFeature rowB)) <> ""
  /\ p_provider (properties (toFeature rowB))
     = p_producer_name (properties (toFeature rowB))
  /\ p_date (properties (toFeature rowB))
     = p_datetime (properties (toFeature rowB))
  /\ p_thumbnail (properties (toFeature rowB))
     = p_thumbnail_href (properties (toFeature rowB)).
Proof.
  apply (feature_texts_are_never_empty (world [rowA; rowB])
           (with_bbox (Some far_bbox) defaults) boot [toFeature rowB]).
  - vm_compute; reflexivity.
  - now left.
Defined.

(** X7.  A failed initialisation is never retried.  When DuckDB-WASM cannot
    be started, every call of [searchCatalog], [getCatalogStats] and
    [getItem], the first and all later ones, rejects with the error of
    that one attempt ([getCatalogStats] too: its zeroed answer covers the
    query only), and the setup body is started once. *)
Theorem failed_init_is_never_retried {casing : Casing}
    (tampered : list Row -> string -> outcome (option Row))
    (w : World) (e : string) (calls : list call) :
  setup w = Rejected e -> calls <> [] ->
  fst (session tampered w calls boot) = map (fun _ => Thrown e) calls
  /\ launches (snd (session tampered w calls boot)) = 1%nat
  /\ conn (snd (session tampered w calls boot)) = false.
Proof.
  intros Hs Hne. destruct calls as [|c calls]; [congruence|].
  cbn [session].
  assert (E : ensure_conn w boot
              = (Rejected e,
                 {| conn := false; initPromise := Some 0%nat;
                    heap := [Failed e]; launches := 1 |}))
    by (rewrite ensure_conn_boot, Hs; reflexivity).
  rewrite (perform_no_conn tampered w c _ _ e E).
  rewrite session_failed. repeat split.
Qed.

Lemma failed_init_is_never_retried_witness :
  fst (session refuse no_engine [Stats; Search defaults; Item "A"] boot)
  = map (fun _ => Thrown "WebAssembly is not available")
      [Stats; Search defaults; Item "A"]
  /\ launches (snd (session refuse no_engine
                      [Stats; Search defaults; Item "A"] boot)) = 1%nat
  /\ conn (snd (session refuse no_engine
                  [Stats; Search defaults; Item "A"] boot)) = false.
Proof.
  apply (failed_init_is_never_retried refuse no_engine
           "WebAssembly is not available").
  - reflexivity.
  - discriminate.
Defined.

(** X8.  The connection is set up once.  When DuckDB-WASM starts, any
    sequence of calls leaves the module with its connection, one promise,
    fulfilled, and a single start of the setup body, however many calls
    were made and whether their queries succeeded or not. *)
Theorem connection_is_set_up_once {casing : Casing}
    (tampered : list Row -> string -> outcome (option Row))
    (w : World) (calls : list call) :
  setup w = Resolved tt -> calls <> [] ->
  snd (session tampered w calls boot)
  = {| conn := true; initPromise := Some 0%nat; heap := [Fulfilled];
       launches := 1 |}.
Proof.
  intros Hs Hne. destruct calls as [|c calls]; [congruence|].
  cbn [session].
  pose proof (perform_runtime tampered w c boot) as E.
  rewrite ensure_conn_boot, Hs in E. simpl in E.
  destruct (perform tampered w c boot) as [r rt1]. simpl in E. subst rt1.
  pose proof (session_connected tampered w calls
                {| conn := true; initPromise := Some 0%nat;
                   heap := [Fulfilled]; launches := 1 |} eq_refl) as E.
  destruct (session tampered w calls _) as [rs rt2]. exact E.
Qed.

Lemma connection_is_set_up_once_witness :
  snd (session refuse no_catalog [Search defaults; Stats; Item "A"] boot)
  = {| conn := true; initPromise := Some 0%nat; heap := [Fulfilled];
       launches := 1 |}.
Proof.
  apply (connection_is_set_up_once refuse no_catalog); [reflexivity|].
  discriminate.
Defined.

(** With a library whose conversion of the summed sizes throws, a readable
    catalog with sizes is answered with the zeroed object. *)
Example stats_zeroed_when_conversion_throws :
  fst (getCatalogStats (broken_arrow [rowA; rowB]) boot) = Resolved zero_stats.
Proof. reflexivity. Qed.



(** X10.  What a search returns can be fetched by id.  For a feature of a
    successful search whose id carries no quote, [getItem] called next
    with that id returns a row of the catalog with that id, not [null];
    and for any id without quote, with the connection at hand, [getItem]
    returns [null] exactly when no row of the catalog has the id. *)
Theorem search_results_can_be_fetched_by_id {casing : Casing}
    (tampered : list Row -> string -> outcome (option Row))
    (w : World) (a : SearchParams) (rt : Runtime)
    (table : list Row) (feats : list Feature) :
  parquet w = Resolved table ->
  fst (searchCatalog w a rt) = Resolved feats ->
  (forall f, In f feats -> has_quote (p_id (properties f)) = false ->
     exists row,
       fst (getItem tampered w (p_id (properties f))
              (snd (searchCatalog w a rt)))
       = Resolved (Some row)
       /\ In row table /\ id row = p_id (properties f))
  /\ (forall i, has_quote i = false ->
        (fst (getItem tampered w i (snd (searchCatalog w a rt)))
         = Resolved None
         <-> forall row, In row table -> id row <> i)).
Proof.
  intros Ht Hs.
  pose proof (searchCatalog_needs_conn w a rt feats Hs) as Hc.
  pose proof (ensure_conn_again w rt Hc) as Ha.
  rewrite <- (searchCatalog_runtime w a rt) in Ha.
  assert (G : forall i, has_quote i = false ->
            fst (getItem tampered w i (snd (searchCatalog w a rt)))
            = Resolved (List.find (fun x => String.eqb (id x) i) table)).
  { intros i Hq. unfold getItem. rewrite Ha, Ht, Hq. reflexivity. }
  split.
  - intros f Hf Hq.
    destruct (searchCatalog_resolved w a rt feats Hs) as (table' & Ht' & E).
    rewrite Ht in Ht'. injection Ht' as <-. subst feats.
    apply List.in_map_iff in Hf as (r & <- & Hr).
    apply In_query_rows in Hr as [Hin _].
    cbn [toFeature properties p_id] in *.
    destruct (find_id_some table (id r) r Hin eq_refl) as (row & F & Hrow & Hid).
    exists row. rewrite (G _ Hq), F. now repeat split.
  - intros i Hq. rewrite (G i Hq). split.
    + intros [= F] row Hin Hid.
      pose proof (List.find_none _ _ F row Hin) as N. simpl in N.
      rewrite Hid, String.eqb_refl in N. discriminate.
    + intros Hall.
      destruct (List.find (fun x => String.eqb (id x) i) table) as [row|] eqn:F;
        [|reflexivity].
      apply List.find_some in F as [Hr He]. apply String.eqb_eq in He.
      now destruct (Hall row Hr).
Qed.

Lemma search_results_can_be_fetched_by_id_witness :
  exists row,
    fst (getItem refuse (world [rowA; rowB]) "A"
           (snd (searchCatalog (world [rowA; rowB]) one_day boot)))
    = Resolved (Some row)
    /\ In row [rowA; rowB] /\ id row = "A".
Proof.
  assert (Hs : fst (searchCatalog (world [rowA; rowB]) one_day boot)
               = Resolved [toFeature rowA]) by (vm_compute; reflexivity).
  apply (proj1 (search_results_can_be_fetched_by_id refuse
                  (world [rowA; rowB]) one_day boot [rowA; rowB]
                  [toFeature rowA] eq_refl Hs) (toFeature rowA)).
  - now left.
  - reflexivity.
Defined.

End CatalogExtras.

(* ===================================================================== *)
(** * Further properties of the page: searches, address bar               *)
(* ===================================================================== *)

Module PageFacts.
Import JS Sql Catalog App Page Spec QueryFacts WhereFacts SearchFacts.

Section Pages.
Context {casing : Casing}.

Lemma get_delete_same (name : string) (p : Url.Params) :
  Url.get name (Url.delete name p) = None.
Proof.
  induction p as [|[k v] p IH]; simpl; [reflexivity|].
  destruct (String.eqb_spec k name) as [E|N]; simpl; [exact IH|].
  destruct (String.eqb_spec k name); [contradiction | exact IH].
Qed.

Lemma get_delete_other (name other : string) (p : Url.Params) :
  other <> name -> Url.get other (Url.delete name p) = Url.get other p.
Proof.
  intros N. induction p as [|[k v] p IH]; simpl; [reflexivity|].
  destruct (String.eqb_spec k name) as [E|Nk]; simpl.
  - subst k. destruct (String.eqb_spec name other); [congruence | exact IH].
  - now rewrite IH.
Qed.

Lemma get_set_same (name value : string) (p : Url.Params) :
  Url.get name (Url.set name value p) = Some value.
Proof.
  induction p as [|[k v] p IH]; simpl; [now rewrite String.eqb_refl|].
  destruct (String.eqb_spec k name) as [E|N]; simpl.
  - subst k. now rewrite String.eqb_refl.
  - destruct (String.eqb_spec k name); [contradiction | exact IH].
Qed.

Lemma get_set_other (name value other : string) (p : Url.Params) :
  other <> name -> Url.get other (Url.set name value p) = Url.get other p.
Proof.
  intros N. induction p as [|[k v] p IH]; simpl.
  - destruct (String.eqb_spec name other); [congruence | reflexivity].
  - destruct (String.eqb_spec k name) as [E|Nk]; simpl.
    + subst k. destruct (String.eqb_spec name other); [congruence|].
      now apply get_delete_other.
    + now rewrite IH.
Qed.

Lemma get_put_same (key value : string) (p : Url.Params) :
  or_default (Url.get key (put key value p)) "" = value.
Proof.
  unfold put. destruct (truthy_string value) eqn:T.
  - rewrite get_set_same. simpl. now rewrite T.
  - rewrite get_delete_same. simpl. unfold truthy_string in T.
    destruct (String.eqb_spec value ""); [congruence | discriminate].
Qed.

Lemma get_put_other (key value other : string) (p : Url.Params) :
  other <> key -> Url.get other (put key value p) = Url.get other p.
Proof.
  intros N. unfold put. destruct (truthy_string value);
    [now apply get_set_other | now apply get_delete_other].
Qed.








Lemma step_never_ready (w : World) (err : string) (s : State) (e : event) :
  setup w = Rejected err -> never_ready err s -> never_ready err (step w s e).
Proof.
  intros Hw (Hr & Hf & Hs & Hi & Hm & Hrt & Hu).
  destruct e as [b|f| | | |u|k]; cbn [step].
  - now repeat split.
  - now repeat split.
  - destruct Hrt as [-> | ->]; cbn; rewrite ?Hw; cbn; repeat split; auto.
  - destruct (searchDebounce s) as [[b f]|]; [|now repeat split].
    unfold runSearch_call; cbn. rewrite Hr; cbn. now repeat split.
  - repeat split; auto. cbn [uploads].
    apply List.Forall_app. split; [exact Hu|].
    constructor; [exact Hr | constructor].
  - destruct (uploads s !! u) as [[[b f] ready]|] eqn:Eu;
      [|now repeat split].
    assert (ready = false) as ->.
    { rewrite List.Forall_forall in Hu.
      apply (Hu (b, f, ready)). apply list_elem_of_In.
      now apply (list_elem_of_lookup_2 _ u). }
    unfold runSearch_call. destruct b; now repeat split.
  - unfold runSearch_resume. rewrite Hm, lookup_empty. now repeat split.
Qed.

Lemma step_flag (w : World) (s : State) (e : event) :
  (isSearching s = true -> inflight s <> ∅) ->
  isSearching (step w s e) = true -> inflight (step w s e) <> ∅.
Proof.
  intros H. destruct e as [b|f| | | |u|k]; cbn [step].
  - exact H.
  - exact H.
  - destruct (initCatalog (runtime s)) as [p rt1].
    now destruct (observe (finish_setup (setup w) rt1) p) as [[u|e]|].
  - destruct (searchDebounce s) as [[b f]|]; [|exact H].
    unfold runSearch_call; cbn.
    destruct (negb (catalogReady s)); [exact H|].
    destruct (searchCatalog w (search_args b f) (runtime s)) as [res rt'].
    cbn. intros _. apply insert_non_empty.
  - exact H.
  - destruct (uploads s !! u) as [[[b f] ready]|]; [|exact H].
    unfold runSearch_call. destruct b as [b|]; [|exact H].
    destruct (negb ready); [exact H|].
    destruct (searchCatalog w (search_args b f) (runtime s)) as [res rt'].
    cbn. intros _. apply insert_non_empty.
  - unfold runSearch_resume. destruct (inflight s !! k); [|exact H].
    cbn. discriminate.
Qed.

(** A burst of viewport and filter changes touches nothing but the
    viewport, the filters and the timer. *)
Lemma burst_keeps (w : World) (burst : list event) (s : State) :
  forallb is_change burst = true ->
  catalogReady (run w s burst) = catalogReady s
  /\ issued (run w s burst) = issued s
  /\ inflight (run w s burst) = inflight s
  /\ runtime (run w s burst) = runtime s
  /\ (burst <> [] ->
      searchDebounce (run w s burst)
      = match viewportBbox (run w s burst) with
        | Some b => Some (b, filters (run w s burst))
        | None => None
        end).
Proof.
  unfold run. revert s.
  induction burst as [|e burst IH] using rev_ind; intros s H.
  - repeat split. congruence.
  - rewrite forallb_app in H. apply andb_true_iff in H as [Hb He].
    rewrite fold_left_app. cbn [fold_left].
    destruct (IH s Hb) as (I1 & I2 & I3 & I4 & _).
    destruct e as [b|f| | | |u|k]; try discriminate; cbn [step arm catalogReady
      issued inflight runtime searchDebounce viewportBbox filters];
      repeat split; assumption.
Qed.

Lemma find_unique_id (features : list Feature) (f : Feature) :
  In f features ->
  List.NoDup (map (fun g => p_id (properties g)) features) ->
  List.find (fun g => String.eqb (p_id (properties g)) (p_id (properties f)))
    features = Some f.
Proof.
  induction features as [|g l IH]; simpl; [tauto|].
  intros Hin Hn. inversion Hn as [|x l' Hx Hl]; subst.
  destruct (String.eqb_spec (p_id (properties g)) (p_id (properties f)))
    as [E|N].
  - destruct Hin as [-> | Hin]; [reflexivity|].
    exfalso. apply Hx. rewrite E.
    apply List.in_map_iff. now exists f.
  - destruct Hin as [-> | Hin]; [congruence | now apply IH].
Qed.


End Pages.

End PageFacts.

Section PageExtras.
Import JS Sql Catalog App Page Spec Samples Samples2.
Import QueryFacts WhereFacts SearchFacts PageFacts.

(** X11.  When DuckDB-WASM cannot be started, the page never searches:
    whatever the user does, [catalogReady] stays false, no call of
    [searchCatalog] is issued, the searching flag stays off and the
    feature list stays empty. *)
Theorem no_engine_no_search {casing : Casing}
    (w : World) (e : string) (trace : list event) :
  setup w = Rejected e ->
  catalogReady (run w initial trace) = false
  /\ issued (run w initial trace) = 0%nat
  /\ isSearching (run w initial trace) = false
  /\ features (run w initial trace) = [].
Proof.
  intros Hw.
  assert (N : never_ready e (run w initial trace)).
  { unfold run.
    assert (G : forall s, never_ready e s ->
                          never_ready e (fold_left (step w) trace s)).
    { induction trace as [|ev trace IH]; intros s H; [exact H|].
      cbn [fold_left]. now apply IH, step_never_ready. }
    apply G. repeat split; [now left | constructor]. }
  destruct N as (Hr & Hf & Hs & Hi & _). now repeat split.
Qed.

Lemma no_engine_no_search_witness :
  catalogReady (run no_engine initial two_searches) = false
  /\ issued (run no_engine initial two_searches) = 0%nat
  /\ isSearching (run no_engine initial two_searches) = false
  /\ features (run no_engine initial two_searches) = [].
Proof.
  apply (no_engine_no_search no_engine "WebAssembly is not available").
  reflexivity.
Defined.

(** X12.  The searching flag is on only while a search is in flight:
    at every moment of every run of the page, [isSearching] true means
    that some call of [searchCatalog] has not settled yet. *)
Theorem searching_flag_means_in_flight {casing : Casing}
    (w : World) (trace : list event) :
  isSearching (run w initial trace) = true ->
  inflight (run w initial trace) <> ∅.
Proof.
  unfold run.
  assert (G : forall s, (isSearching s = true -> inflight s <> ∅) ->
                        isSearching (fold_left (step w) trace s) = true ->
                        inflight (fold_left (step w) trace s) <> ∅).
  { induction trace as [|ev trace IH]; intros s H; [exact H|].
    cbn [fold_left]. apply IH. now apply step_flag. }
  apply G. discriminate.
Qed.

Lemma searching_flag_means_in_flight_witness :
  inflight (run (world [rowA; rowB]) initial two_searches) <> ∅.
Proof.
  apply (searching_flag_means_in_flight (world [rowA; rowB]) two_searches).
  vm_compute; reflexivity.
Defined.

(** X13.  The debounce coalesces.  With the catalog ready, a burst of
    viewport and filter changes followed by one firing of the timer issues
    exactly one search, for the viewport and the filters in force at the
    end of the burst; a further firing without a new change issues
    nothing. *)
Theorem debounce_coalesces_changes {casing : Casing}
    (w : World) (s : State) (burst : list event) (b : Bbox) :
  catalogReady s = true ->
  forallb is_change burst = true -> burst <> [] ->
  viewportBbox (run w s burst) = Some b ->
  issued (run w s (burst ++ [TimerFires])) = S (issued s)
  /\ inflight (run w s (burst ++ [TimerFires])) !! issued s
     = Some (fst (searchCatalog w (search_args b (filters (run w s burst)))
                    (runtime s)))
  /\ run w s (burst ++ [TimerFires; TimerFires])
     = run w s (burst ++ [TimerFires]).
Proof.
  intros Hr Hb Hne Hv.
  destruct (burst_keeps w burst s Hb) as (K1 & K2 & K3 & K4 & K5).
  specialize (K5 Hne). rewrite Hv in K5.
  assert (E : run w s (burst ++ [TimerFires])
              = step w (run w s burst) TimerFires)
    by (unfold run; now rewrite fold_left_app).
  assert (E2 : run w s (burst ++ [TimerFires; TimerFires])
               = step w (step w (run w s burst) TimerFires) TimerFires)
    by (unfold run; now rewrite fold_left_app).
  rewrite E2, E. cbn [step]. rewrite K5.
  unfold runSearch_call. cbn [catalogReady runtime issued inflight].
  rewrite K1, Hr, K2, K3, K4. cbn [negb].
  destruct (searchCatalog w (search_args b (filters (run w s burst)))
              (runtime s)) as [res rt'].
  cbn [issued inflight searchDebounce fst]. repeat split.
  now rewrite lookup_insert_eq.
Qed.

Lemma debounce_coalesces_changes_witness :
  issued (run (world [rowA; rowB])
            (run (world [rowA; rowB]) initial [InitSettles])
            ([MapMoveEnd scenarioA_bbox; MapMoveEnd inner_bbox;
              MapMoveEnd far_bbox] ++ [TimerFires])) = 1%nat
  /\ inflight (run (world [rowA; rowB])
                 (run (world [rowA; rowB]) initial [InitSettles])
                 ([MapMoveEnd scenarioA_bbox; MapMoveEnd inner_bbox;
                   MapMoveEnd far_bbox] ++ [TimerFires])) !! 0%nat
     = Some (Resolved [toFeature rowB]).
Proof.
  pose proof (debounce_coalesces_changes (world [rowA; rowB])
                (run (world [rowA; rowB]) initial [InitSettles])
                [MapMoveEnd scenarioA_bbox; MapMoveEnd inner_bbox;
                 MapMoveEnd far_bbox] far_bbox
                eq_refl eq_refl ltac:(discriminate) eq_refl) as (H1 & H2 & _).
  split; [exact H1|]. etransitivity; [exact H2|]. vm_compute. reflexivity.
Defined.



(** X15.  Filters survive a reload.  After [handleFilterChange(f)] the
    filters a fresh page reads from the address bar are [f] again, empty
    fields included; and every other parameter of the address bar (the map
    view, the selection) reads as before. *)
Theorem filters_survive_reload (f : Filters) (url : Url.Params) :
  initial_filters (handleFilterChange f url) = f
  /\ (forall k, k <> "dateStart" -> k <> "dateEnd" -> k <> "platform" ->
                k <> "license" ->
                Url.get k (handleFilterChange f url) = Url.get k url).
Proof.
  split.
  - destruct f as [ds de pl li]. unfold initial_filters, handleFilterChange.
    cbn [dateStart dateEnd platform license]. f_equal.
    + rewrite !get_put_other by discriminate. apply get_put_same.
    + rewrite !get_put_other by discriminate. apply get_put_same.
    + rewrite !get_put_other by discriminate. apply get_put_same.
    + apply get_put_same.
  - intros k K1 K2 K3 K4. unfold handleFilterChange.
    now rewrite !get_put_other.
Qed.

(** X16.  The selection survives a reload.  After a feature with a
    non-empty id is selected, a fresh page whose first non-empty result
    list holds that feature, with distinct ids, selects it again; the
    selection in the address bar leaves the filters alone; and once
    restored, later result lists no longer touch the selection. *)
Theorem selection_survives_reload
    (f : Feature) (features later : list Feature)
    (st : Selection) (url : Url.Params) :
  p_id (properties f) <> "" -> In f features ->
  List.NoDup (map (fun g => p_id (properties g)) features) ->
  selectedFeature
    (restore_selection (snd (handleSelectFeature (Some f) (st, url)))
       features fresh) = Some f
  /\ initial_filters (snd (handleSelectFeature (Some f) (st, url)))
     = initial_filters url
  /\ restore_selection (snd (handleSelectFeature (Some f) (st, url))) later
       (restore_selection (snd (handleSelectFeature (Some f) (st, url)))
          features fresh)
     = restore_selection (snd (handleSelectFeature (Some f) (st, url)))
         features fresh.
Proof.
  intros Hid Hin Hn. cbn [handleSelectFeature snd updateUrlSelection].
  assert (R : restore_selection
                (Url.set "selected_id" (p_id (properties f)) url)
                features fresh
              = {| selectedFeature := Some f;
                   initialUrlSelectionDone := true |}).
  { unfold restore_selection. destruct features as [|g l]; [destruct Hin|].
    cbn [fresh initialUrlSelectionDone selectedFeature].
    rewrite get_set_same.
    apply truthy_string_iff in Hid. rewrite Hid.
    now rewrite (find_unique_id (g :: l) f Hin Hn). }
  rewrite R. split; [reflexivity|]. split.
  - unfold initial_filters. now rewrite !get_set_other by discriminate.
  - unfold restore_selection. now destruct later.
Qed.

Lemma selection_survives_reload_witness :
  selectedFeature
    (restore_selection
       (snd (handleSelectFeature (Some (toFeature rowA))
               (fresh, [("dateStart", "2024-06-01")])))
       [toFeature rowB; toFeature rowA] fresh) = Some (toFeature rowA).
Proof.
  apply (selection_survives_reload (toFeature rowA)
           [toFeature rowB; toFeature rowA] [] fresh
           [("dateStart", "2024-06-01")]).
  - discriminate.
  - right; now left.
  - repeat constructor; simpl; intuition discriminate.
Defined.

End PageExtras.

(* ===================================================================== *)
(** * Further properties of the upload dialog                             *)
(* ===================================================================== *)

Module UploadFacts.
Import JS Upload UploadForm PollFacts.

Section OneUpload.
Variable id : string.
Variable server : string -> nat -> response.

Let after (n : nat) : Modal := pollStatus id server n.
Let answer (k : nat) : response := server (statusUrl id) k.

Lemma poll_armed_error (n : nat) :
  interval (after n) = true -> error (after n) = "".
Proof.
  induction n as [|k IH]; [reflexivity|].
  change (after (S k)) with (tick (answer k) (after k)).
  destruct (interval (after k)) eqn:Hi.
  - specialize (IH eq_refl). unfold tick. rewrite Hi. cbn [negb].
    destruct (Nat.ltb maxPolls (S (pollCount (after k)))); cbn;
      [discriminate|].
    destruct (answer k) as [| |data]; cbn; try (intros _; exact IH).
    destruct (status_is data "complete"); cbn; [discriminate|].
    destruct (status_is data "error"); cbn; [discriminate|].
    intros _; exact IH.
  - rewrite (tick_stopped _ _ Hi). congruence.
Qed.

Lemma poll_waits_until (k n : nat) :
  (forall i, (i < k)%nat -> terminal (answer i) = false) ->
  (n <= k)%nat -> (n <= maxPolls)%nat -> interval (after n) = true.
Proof.
  intros Hs. induction n as [|j IH]; intros Hn Hm; [reflexivity|].
  change (after (S j)) with (tick (answer j) (after j)).
  assert (Hi : interval (after j) = true) by (apply IH; lia).
  destruct (poll_armed id server j Hi) as (Hc & _).
  destruct (tick_fetch (answer j) (after j) Hi) as (_ & _ & _ & T);
    [unfold after; rewrite Hc; exact Hm|].
  apply T, Hs. lia.
Qed.

(** Answered in turn, the first final status among the first 120 answers
    ends polling. *)
Lemma poll_first_final (k n : nat) (data : StatusDoc) :
  (k < 120)%nat ->
  (forall i, (i < k)%nat -> terminal (answer i) = false) ->
  answer k = Ok data -> terminal (Ok data) = true ->
  (k < n)%nat ->
  after n
  = if status_is data "complete" then
      {| status := Complete; error := ""; processingStep := Some "done";
         interval := false; pollCount := S k; fetches := S k;
         completions := 1 |}
    else
      {| status := Error;
         error := or_default (d_error data) "Processing failed";
         processingStep := show_step data (after k);
         interval := false; pollCount := S k; fetches := S k;
         completions := 0 |}.
Proof.
  unfold after, answer. intros Hk Hs Hd Ht Hn.
  assert (Hi : interval (pollStatus id server k) = true)
    by (apply (poll_waits_until k k Hs); unfold maxPolls; lia).
  destruct (poll_armed id server k Hi) as (Hc & Hf & Hst & Hcm & _).
  pose proof (poll_armed_error k Hi) as He. unfold after in He.
  assert (E : pollStatus id server (S k)
              = if status_is data "complete" then
                  {| status := Complete; error := "";
                     processingStep := Some "done";
                     interval := false; pollCount := S k; fetches := S k;
                     completions := 1 |}
                else
                  {| status := Error;
                     error := or_default (d_error data) "Processing failed";
                     processingStep := show_step data (pollStatus id server k);
                     interval := false; pollCount := S k; fetches := S k;
                     completions := 0 |}).
  { cbn [pollStatus]. rewrite Hd. unfold tick. rewrite Hi, Hc. cbn [negb].
    replace (Nat.ltb maxPolls (S k)) with false
      by (symmetry; apply Nat.ltb_ge; unfold maxPolls; lia).
    cbn in Ht. destruct (status_is data "complete").
    - now rewrite He, Hf, Hcm.
    - cbn in Ht. rewrite Ht. now rewrite Hf, Hcm. }
  replace n with ((n - S k) + S k)%nat by lia.
  rewrite (poll_stays_stopped id server (S k) (n - S k)); [exact E|].
  rewrite E. now destruct (status_is data "complete").
Qed.
End OneUpload.

End UploadFacts.

Module PollingFacts.
Import JS Upload Polling PollFacts.

(** One firing answered at once is a firing followed, when it sent a
    request, by the handling of the answer. *)
Lemma tick_fire_resume (resp : response) (m : Modal) :
  tick resp m
  = if interval m && Nat.leb (S (pollCount m)) maxPolls
    then resume resp (fire m) else fire m.
Proof.
  unfold tick, fire. destruct (interval m) eqn:Hi; cbn [negb andb];
    [|reflexivity].
  destruct (Nat.ltb_spec maxPolls (S (pollCount m))) as [Hgt | Hle].
  - destruct (Nat.leb_spec (S (pollCount m)) maxPolls); [lia | reflexivity].
  - destruct (Nat.leb_spec (S (pollCount m)) maxPolls); [|lia].
    destruct resp as [| |data]; reflexivity.
Qed.

Lemma fire_fetches (m : Modal) :
  fetches (fire m)
  = if interval m && Nat.leb (S (pollCount m)) maxPolls
    then S (fetches m) else fetches m.
Proof.
  unfold fire. destruct (interval m); cbn [negb andb]; [|reflexivity].
  destruct (Nat.ltb_spec maxPolls (S (pollCount m)));
    destruct (Nat.leb_spec (S (pollCount m)) maxPolls); try lia; reflexivity.
Qed.

Lemma resume_keeps (resp : response) (m : Modal) :
  fetches (resume resp m) = fetches m
  /\ pollCount (resume resp m) = pollCount m
  /\ (completions m <= completions (resume resp m) <= S (completions m))%nat.
Proof.
  destruct resp as [| |data]; cbn; try (repeat split; lia).
  destruct (status_is data "complete"); cbn; [repeat split; lia|].
  destruct (status_is data "error"); cbn; repeat split; lia.
Qed.

Lemma run_snoc (trace : list event) (e : event) :
  run (trace ++ [e]) = step (run trace) e.
Proof. unfold run. now rewrite fold_left_app. Qed.

(** Answered in turn, the interleaved run is the run of [pollStatus]. *)
Lemma run_turns (id : string) (server : string -> nat -> response)
    (n : nat) :
  modal (run (turns (server (statusUrl id)) n)) = pollStatus id server n
  /\ answered (run (turns (server (statusUrl id)) n))
     = fetches (pollStatus id server n).
Proof.
  induction n as [|k [IHm IHa]]; [now split|].
  cbn [turns pollStatus].
  change [Fires; Answers (server (statusUrl id) k)]
    with ([Fires] ++ [Answers (server (statusUrl id) k)]).
  rewrite app_assoc, !run_snoc.
  destruct (run (turns (server (statusUrl id)) k)) as [m a].
  cbn [modal answered] in IHm, IHa. subst m a.
  cbn [step modal answered].
  rewrite tick_fire_resume, fire_fetches.
  destruct (interval (pollStatus id server k)
            && Nat.leb (S (pollCount (pollStatus id server k))) maxPolls)
    eqn:E.
  - destruct (Nat.ltb_spec (fetches (pollStatus id server k))
                (S (fetches (pollStatus id server k)))); [|lia].
    cbn [modal answered]. split; [reflexivity|].
    destruct (resume_keeps (server (statusUrl id) k)
                (fire (pollStatus id server k))) as (F & _).
    now rewrite F, fire_fetches, E.
  - destruct (Nat.ltb_spec (fetches (pollStatus id server k))
                (fetches (pollStatus id server k))); [lia|].
    cbn [modal answered]. split; [reflexivity|].
    now rewrite fire_fetches, E.
Qed.

Lemma in_turn_app (s : State) (t1 t2 : list event) :
  in_turn s (t1 ++ t2) <-> in_turn s t1 /\ in_turn (fold_left step t1 s) t2.
Proof.
  revert s. induction t1 as [|e t1 IH]; intros s; cbn [app in_turn fold_left].
  - tauto.
  - rewrite IH. tauto.
Qed.

Lemma turns_in_turn (id : string) (server : string -> nat -> response)
    (n : nat) :
  in_turn start (turns (server (statusUrl id)) n).
Proof.
  induction n as [|k IH]; [exact I|].
  cbn [turns]. apply in_turn_app. split; [exact IH|].
  fold (run (turns (server (statusUrl id)) k)).
  destruct (run_turns id server k) as [Hm Ha].
  cbn [in_turn]. split; [unfold pending; rewrite Hm, Ha; lia|].
  split; [exact I | exact I].
Qed.

Lemma step_sound (s : State) (e : event) : sound s -> sound (step s e).
Proof.
  intros H. destruct s as [m a]. pose proof H as (H1 & H2 & H3 & H4 & H5).
  cbn [modal answered] in H1, H2, H3, H4, H5.
  destruct e as [|resp]; cbn [step].
  - unfold fire. cbn [modal answered].
    destruct (interval m) eqn:Hi; cbn [negb]; [|exact H].
    unfold sound.
    destruct (Nat.ltb_spec maxPolls (S (pollCount m))) as [Hgt | Hle];
      cbn; rewrite ?Hi.
    + repeat split; try lia; discriminate.
    + repeat split; try lia; now apply H5.
  - cbn [modal answered].
    destruct (Nat.ltb_spec a (fetches m)) as [Hlt | Hge]; [|exact H].
    unfold sound. cbn [modal answered].
    destruct resp as [| |data]; cbn [resume];
      try (repeat split; try lia; now apply H5).
    destruct (status_is data "complete"); cbn;
      [repeat split; try lia; discriminate|].
    destruct (status_is data "error"); cbn;
      [repeat split; try lia; discriminate|].
    repeat split; try lia; now apply H5.
Qed.

Lemma run_sound (trace : list event) : sound (run trace).
Proof.
  unfold run.
  assert (G : forall s, sound s -> sound (fold_left step trace s)).
  { induction trace as [|e trace IH]; intros s H; [exact H|].
    cbn [fold_left]. now apply IH, step_sound. }
  apply G. unfold sound, maxPolls. cbn. repeat split; try lia; auto.
Qed.

(** [onUploadComplete] is called once for each handled answer that
    reports ['complete']. *)
Lemma completions_bound (trace : list event) (s : State) :
  (completions (modal (fold_left step trace s))
   <= completions (modal s) + length (List.filter reports_complete trace))%nat.
Proof.
  revert s. induction trace as [|e trace IH]; intros s; [cbn; lia|].
  cbn [fold_left List.filter]. specialize (IH (step s e)).
  assert (Hs : (completions (modal (step s e))
                <= completions (modal s)
                   + (if reports_complete e then 1 else 0))%nat).
  { destruct e as [|resp]; cbn [step reports_complete].
    - cbn [modal]. unfold fire.
      destruct (interval (modal s)); cbn [negb]; [|lia].
      destruct (Nat.ltb maxPolls (S (pollCount (modal s))));
        cbn [completions]; lia.
    - destruct (Nat.ltb (answered s) (fetches (modal s)));
        [|destruct resp as [| |d]; try lia; destruct (status_is d _); lia].
      cbn [modal]. destruct resp as [| |data]; cbn; try lia.
      destruct (status_is data "complete"); cbn; [lia|].
      destruct (status_is data "error"); cbn; lia. }
  destruct (reports_complete e); cbn [length]; lia.
Qed.

Lemma step_orderly (s : State) (e : event) :
  (answered s <= fetches (modal s))%nat ->
  match e with Fires => pending s = 0%nat | Answers _ => True end ->
  orderly s -> orderly (step s e).
Proof.
  intros Ha He H. destruct s as [m a].
  destruct e as [|resp]; cbn [step modal answered].
  - unfold orderly, pending in *. cbn [modal answered] in *. unfold fire.
    destruct H as [(Hi & Hs & Hc & Hp) | [(Hi & Hs & Hc & Hp)
                                        | (Hi & Hs & Hc & Hd & Hp)]];
      rewrite Hi; cbn [negb].
    + destruct (Nat.ltb maxPolls (S (pollCount m)));
        cbn [interval status completions fetches processingStep].
      * right; left. repeat split; auto.
      * left. repeat split; auto. lia.
    + right; left. repeat split; auto.
    + right; right. repeat split; auto.
  - cbn [modal answered] in Ha.
    destruct (Nat.ltb_spec a (fetches m)) as [Hlt | Hge]; [|exact H].
    unfold orderly, pending in *. cbn [modal answered] in *.
    destruct H as [(Hi & Hs & Hc & Hp) | [(Hi & Hs & Hc & Hp)
                                        | (Hi & Hs & Hc & Hd & Hp)]];
      try lia.
    destruct resp as [| |data]; cbn [resume].
    + left. repeat split; auto. lia.
    + left. repeat split; auto. lia.
    + destruct (status_is data "complete");
        cbn [interval status completions fetches processingStep].
      * right; right. repeat split; auto; lia.
      * destruct (status_is data "error");
          cbn [interval status completions fetches processingStep].
        -- right; left. repeat split; auto; lia.
        -- left. repeat split; auto. lia.
Qed.

Lemma run_orderly (trace : list event) :
  in_turn start trace -> orderly (run trace).
Proof.
  unfold run.
  assert (G : forall s, sound s -> orderly s -> in_turn s trace ->
                        orderly (fold_left step trace s)).
  { induction trace as [|e trace IH]; intros s Hs Ho Ht; [exact Ho|].
    cbn [fold_left]. cbn [in_turn] in Ht. destruct Ht as [He Ht].
    apply IH; [now apply step_sound | | exact Ht].
    apply step_orderly; [apply Hs | exact He | exact Ho]. }
  intros Ht. apply G; [apply (run_sound []) | | exact Ht].
  left. cbn. repeat split. lia.
Qed.

End PollingFacts.

Section PollingExtras.
Import JS Upload UploadForm Polling PollFacts UploadFacts PollingFacts.

(** X17.  How often [onUploadComplete] is called.  In every run of the
    polling, with status requests that may overlap and be answered late,
    at most 120 requests are sent, the interval is armed exactly while the
    status is ['processing'], and [onUploadComplete] is called at most
    once for each answer reporting ['complete'].  When every request is
    answered before the interval fires again, it is called at most once,
    and it has been called exactly when the modal shows the complete
    state, which then comes with the step ['done'].  Without that
    condition it can be called twice: two requests under way that are both
    answered ['complete'] both call it. *)
Theorem upload_completes_at_most_once (trace : list event) :
  (fetches (modal (run trace)) <= 120)%nat
  /\ (interval (modal (run trace)) = true
      <-> status (modal (run trace)) = Processing)
  /\ (completions (modal (run trace))
      <= length (List.filter reports_complete trace))%nat
  /\ (in_turn start trace ->
      (completions (modal (run trace)) <= 1)%nat
      /\ (completions (modal (run trace)) = 1%nat
          <-> status (modal (run trace)) = Complete)
      /\ (status (modal (run trace)) = Complete ->
          processingStep (modal (run trace)) = Some "done"))
  /\ completions
       (modal (run [Fires; Fires; Answers finished; Answers finished]))
     = 2%nat.
Proof.
  destruct (run_sound trace) as (_ & H2 & _ & _ & H5).
  split; [exact H2|]. split; [exact H5|].
  split; [apply (completions_bound trace start)|].
  split; [|reflexivity].
  intros Ht.
  destruct (run_orderly trace Ht)
    as [(Hi & Hs & Hc & _) | [(Hi & Hs & Hc & _) | (Hi & Hs & Hc & Hd & _)]];
    rewrite Hc, Hs; repeat split; try lia; try discriminate; auto.
Qed.

Lemma upload_completes_at_most_once_witness :
  (completions
     (modal (run [Fires; Answers Throws; Fires; Answers finished; Fires]))
   <= 1)%nat
  /\ (completions
        (modal (run [Fires; Answers Throws; Fires; Answers finished; Fires]))
      = 1%nat
      <-> status
            (modal (run [Fires; Answers Throws; Fires; Answers finished;
                         Fires]))
          = Complete)
  /\ (status
        (modal (run [Fires; Answers Throws; Fires; Answers finished; Fires]))
      = Complete ->
      processingStep
        (modal (run [Fires; Answers Throws; Fires; Answers finished; Fires]))
      = Some "done").
Proof.
  apply (proj2 (proj2 (proj2 (upload_completes_at_most_once
           [Fires; Answers Throws; Fires; Answers finished; Fires])))).
  cbn. repeat split; reflexivity.
Defined.

(** X18.  The first final status decides, when every status request is
    answered before the interval fires again.  If the status URL first
    answers with status ['complete'] or ['error'] at firing [k] of the
    first 120, polling stops there, after [k + 1] requests: on
    ['complete'] the modal shows the complete state with step ['done'] and
    [onUploadComplete] has been called once; on ['error'] it shows the
    error state with the reported message, or ['Processing failed'] when
    none is reported.  Later firings change nothing. *)
Theorem first_final_status_ends_polling
    (id : string) (server : string -> nat -> response)
    (k n : nat) (data : StatusDoc) :
  (k < 120)%nat ->
  (forall i, (i < k)%nat -> terminal (server (statusUrl id) i) = false) ->
  server (statusUrl id) k = Ok data -> terminal (Ok data) = true ->
  (k < n)%nat ->
  in_turn start (turns (server (statusUrl id)) n)
  /\ modal (run (turns (server (statusUrl id)) n))
     = if status_is data "complete" then
         {| status := Complete; error := ""; processingStep := Some "done";
            interval := false; pollCount := S k; fetches := S k;
            completions := 1 |}
       else
         {| status := Error;
            error := or_default (d_error data) "Processing failed";
            processingStep :=
              show_step data (modal (run (turns (server (statusUrl id)) k)));
            interval := false; pollCount := S k; fetches := S k;
            completions := 0 |}.
Proof.
  intros Hk Hs Hd Ht Hn. split; [apply turns_in_turn|].
  rewrite (proj1 (run_turns id server n)), (proj1 (run_turns id server k)).
  now apply poll_first_final.
Qed.

Lemma first_final_status_ends_polling_witness :
  modal (run (turns (fun i => late_success (statusUrl "u-1") (i + 100)) 200))
  = {| status := Complete; error := ""; processingStep := Some "done";
       interval := false; pollCount := 31; fetches := 31;
       completions := 1 |}.
Proof.
  apply (first_final_status_ends_polling "u-1"
           (fun url i => late_success url (i + 100)) 30 200
           {| d_step := Some "done"; d_status := Some "complete";
              d_error := None |}).
  - lia.
  - intros i Hi. unfold late_success.
    destruct (Nat.ltb_spec (i + 100) 130) as [_ | Hge]; [reflexivity | lia].
  - reflexivity.
  - reflexivity.
  - lia.
Defined.

End PollingExtras.

Module FormFacts.
Import JS Upload UploadForm TextFacts.

Lemma chars_fold_ascii (s : string) :
  list_ascii_of_string (fold_ascii s) = map lower_ascii (list_ascii_of_string s).
Proof. induction s as [|c s IH]; simpl; [reflexivity | now rewrite IH]. Qed.

Lemma starts_ci_iff (pattern text : list ascii) :
  starts_ci pattern text = true
  <-> exists pre rest, text = pre ++ rest /\ map lower_ascii pre = pattern.
Proof.
  revert text. induction pattern as [|p pattern IH]; intros text; simpl.
  - split; [intros _; now exists [], text|reflexivity].
  - destruct text as [|c text].
    + split; [discriminate|]. intros (pre & rest & E & H).
      destruct pre; [discriminate H | discriminate E].
    + rewrite andb_true_iff, IH. split.
      * intros [Hc (pre & rest & -> & <-)]. apply Ascii.eqb_eq in Hc.
        exists (c :: pre), rest. split; [reflexivity|]. simpl. now rewrite Hc.
      * intros (pre & rest & E & H). destruct pre as [|d pre]; [discriminate H|].
        simpl in E, H. injection E as -> ->. injection H as Hd Hp.
        split; [now apply Ascii.eqb_eq|]. now exists pre, rest.
Qed.

(** A name read backwards starts with an extension read backwards exactly
    when the name ends with it. *)
Lemma ends_ci_iff (ext name : string) :
  starts_ci (rev (list_ascii_of_string ext)) (rev (list_ascii_of_string name))
  = true
  <-> exists stem tail, name = (stem ++ tail)%string /\ fold_ascii tail = ext.
Proof.
  rewrite starts_ci_iff. split.
  - intros (pre & rest & E & H).
    exists (string_of_list_ascii (rev rest)), (string_of_list_ascii (rev pre)).
    split.
    + rewrite <- (string_of_list_ascii_of_string name).
      rewrite <- (rev_involutive (list_ascii_of_string name)), E, rev_app_distr.
      generalize (rev rest) (rev pre). clear.
      intros l1 l2. induction l1 as [|c l1 IH]; simpl; [reflexivity|].
      now rewrite IH.
    + rewrite <- (string_of_list_ascii_of_string ext).
      rewrite <- (string_of_list_ascii_of_string (fold_ascii _)).
      f_equal. rewrite chars_fold_ascii, list_ascii_of_string_of_list_ascii.
      rewrite map_rev, H. apply rev_involutive.
  - intros (stem & tail & -> & H).
    exists (rev (list_ascii_of_string tail)), (rev (list_ascii_of_string stem)).
    split.
    + rewrite <- rev_app_distr. f_equal.
      clear. induction stem as [|c stem IH]; simpl; [reflexivity|].
      now rewrite IH.
    + rewrite map_rev, <- chars_fold_ascii, H. reflexivity.
Qed.

Lemma length_fold_ascii (s : string) :
  length (list_ascii_of_string (fold_ascii s))
  = length (list_ascii_of_string s).
Proof. rewrite chars_fold_ascii. apply length_map. Qed.

(** Cutting a tail of known length off a name. *)
Lemma cut_tail (stem tail : string) (n : nat) :
  length (list_ascii_of_string tail) = n ->
  string_of_list_ascii
    (firstn (length (list_ascii_of_string (stem ++ tail)%string) - n)
       (list_ascii_of_string (stem ++ tail)%string)) = stem.
Proof.
  intros Hn. rewrite chars_app, length_app, Hn.
  replace (length (list_ascii_of_string stem) + n - n)%nat
    with (length (list_ascii_of_string stem) + 0)%nat by lia.
  rewrite firstn_app_2. simpl. rewrite app_nil_r.
  apply string_of_list_ascii_of_string.
Qed.

Lemma drag_invariant (events : list drag_event) (d : Drag) :
  (0 <= dragCount d)%Z -> isDragging d = (0 <? dragCount d)%Z ->
  nested (dragCount d) events = true ->
  (0 <= dragCount (fold_left drag_step events d))%Z
  /\ isDragging (fold_left drag_step events d)
     = (0 <? dragCount (fold_left drag_step events d))%Z.
Proof.
  revert d. induction events as [|e events IH]; intros d H0 Hd Hn;
    [now split|].
  cbn [fold_left]. destruct e; cbn [nested] in Hn.
  - apply IH; cbn; [lia | | exact Hn].
    symmetry. apply Z.ltb_lt. lia.
  - apply andb_true_iff in Hn as [Hpos Hn]. apply Z.ltb_lt in Hpos.
    apply IH; cbn; [lia | | exact Hn].
    destruct (Z.eqb_spec (dragCount d - 1) 0) as [E|N].
    + rewrite E. reflexivity.
    + rewrite Hd. destruct (Z.ltb_spec 0 (dragCount d)); [|lia].
      symmetry. apply Z.ltb_lt. lia.
  - apply IH; cbn; [lia | reflexivity | exact Hn].
Qed.

End FormFacts.

Section FormExtras.
Import JS Upload UploadForm FormFacts QueryFacts Samples2.

(** X19.  The file name test of the drop zone.  [/\.tiff?$/i] accepts
    exactly the names that end with [.tif] or [.tiff], in any letter case;
    for an accepted name, the title proposed is the name without that
    ending; a name that is not accepted is left whole; and a dropped file
    with such a name changes neither the chosen file nor the title. *)
Theorem drop_zone_takes_tiff_names (name : string) :
  (is_tiff name = true
   <-> exists stem tail,
         name = (stem ++ tail)%string
         /\ (fold_ascii tail = ".tif" \/ fold_ascii tail = ".tiff"))
  /\ (is_tiff name = true ->
      exists tail, name = (strip_tiff name ++ tail)%string
                   /\ (fold_ascii tail = ".tif" \/ fold_ascii tail = ".tiff"))
  /\ (is_tiff name = false -> strip_tiff name = name)
  /\ (is_tiff name = false ->
      forall others st,
        file (handleDrop (name :: others) st) = file st
        /\ title (handleDrop (name :: others) st) = title st).
Proof.
  unfold is_tiff, strip_tiff, tiff_extension.
  pose proof (ends_ci_iff ".tiff" name) as H5.
  pose proof (ends_ci_iff ".tif" name) as H4.
  destruct (starts_ci (rev (list_ascii_of_string ".tiff"))
              (rev (list_ascii_of_string name))) eqn:E5.
  - destruct (proj1 H5 eq_refl) as (stem & tail & -> & Ht).
    split; [|split; [|split]]; try discriminate.
    + split; [intros _; exists stem, tail; auto | reflexivity].
    + intros _. exists tail. split; [|now right].
      rewrite (cut_tail stem tail 5); [reflexivity|].
      rewrite <- length_fold_ascii, Ht. reflexivity.
  - destruct (starts_ci (rev (list_ascii_of_string ".tif"))
                (rev (list_ascii_of_string name))) eqn:E4.
    + destruct (proj1 H4 eq_refl) as (stem & tail & -> & Ht).
      split; [|split; [|split]]; try discriminate.
      * split; [intros _; exists stem, tail; auto | reflexivity].
      * intros _. exists tail. split; [|now left].
        rewrite (cut_tail stem tail 4); [reflexivity|].
        rewrite <- length_fold_ascii, Ht. reflexivity.
    + split; [|split; [|split]]; try discriminate.
      * split; [discriminate|].
        intros (stem & tail & -> & [Ht | Ht]); exfalso.
        -- assert (false = true) by (apply H4; eauto). discriminate.
        -- assert (false = true) by (apply H5; eauto). discriminate.
      * intros _. rewrite Nat.sub_0_r, firstn_all.
        apply string_of_list_ascii_of_string.
      * intros _ others st. unfold handleDrop, is_tiff, tiff_extension.
        rewrite E5, E4. now split.
Qed.

Lemma drop_zone_takes_tiff_names_witness :
  exists tail, "harbour.TIF" = (strip_tiff "harbour.TIF" ++ tail)%string
               /\ (fold_ascii tail = ".tif" \/ fold_ascii tail = ".tiff").
Proof.
  apply (proj1 (proj2 (drop_zone_takes_tiff_names "harbour.TIF"))).
  reflexivity.
Defined.

(** X20.  The highlight of the drop zone follows the pointer.  As long as
    every leave closes an earlier enter, after any sequence of drag
    enters, drag leaves and drops the zone is highlighted exactly when the
    pointer is still over it, that is when more enters than leaves came
    since the start or the last drop. *)
Theorem drag_highlight_follows_pointer (events : list drag_event) :
  nested 0 events = true ->
  (0 <= dragCount (drag_run events))%Z
  /\ isDragging (drag_run events) = (0 <? dragCount (drag_run events))%Z.
Proof.
  intros Hn. unfold drag_run. apply drag_invariant; cbn; [lia | reflexivity|].
  exact Hn.
Qed.

Lemma drag_highlight_follows_pointer_witness :
  (0 <= dragCount (drag_run [DragEnter; DragEnter; DragLeave; DragLeave;
                              DragEnter; Drop; DragEnter]))%Z
  /\ isDragging (drag_run [DragEnter; DragEnter; DragLeave; DragLeave;
                           DragEnter; Drop; DragEnter])
     = (0 <? dragCount (drag_run [DragEnter; DragEnter; DragLeave; DragLeave;
                                  DragEnter; Drop; DragEnter]))%Z.
Proof.
  apply (drag_highlight_follows_pointer
           [DragEnter; DragEnter; DragLeave; DragLeave; DragEnter; Drop;
            DragEnter]).
  reflexivity.
Defined.

End FormExtras.

Module StepFacts.
Import JS Upload UploadForm.

(** Where [findIndex] finds a key in a list without repeated keys. *)
Lemma findIndex_found (key : string) (steps : list (string * string))
    (base : Z) (i : nat) (s : string * string) :
  (0 <= base)%Z ->
  List.NoDup (map fst steps) -> nth_error steps i = Some s ->
  (String.eqb (fst s) key = true
   <-> findIndex key steps base = (base + Z.of_nat i)%Z).
Proof.
  revert base i. induction steps as [|t steps IH]; intros base i Hb Hnd Hi.
  - destruct i; discriminate Hi.
  - assert (Hlow : forall k b, (b <= findIndex k steps b)%Z
                               \/ findIndex k steps b = (-1)%Z).
    { clear. induction steps as [|u steps IH]; intros k b; cbn; [now right|].
      destruct (String.eqb (fst u) k); [left; lia|].
      destruct (IH k (b + 1)%Z); [left; lia | now right]. }
    cbn [map] in Hnd. apply List.NoDup_cons_iff in Hnd as [Hnot Hnd].
    cbn [findIndex]. destruct i as [|i]; cbn [nth_error] in Hi.
    + injection Hi as ->. destruct (String.eqb (fst s) key) eqn:E.
      * split; intros _; [lia | reflexivity].
      * split; [discriminate|]. intros H. exfalso.
        destruct (Hlow key (base + 1)%Z) as [G|G]; lia.
    + destruct (String.eqb (fst t) key) eqn:E.
      * apply String.eqb_eq in E. split.
        -- intros H. apply String.eqb_eq in H. exfalso. apply Hnot.
           rewrite E, <- H. apply List.in_map. eapply nth_error_In, Hi.
        -- lia.
      * rewrite (IH (base + 1)%Z i ltac:(lia) Hnd Hi). lia.
Qed.

Lemma findIndex_range (key : string) (steps : list (string * string))
    (base : Z) :
  findIndex key steps base = (-1)%Z
  \/ (base <= findIndex key steps base < base + Z.of_nat (length steps))%Z.
Proof.
  revert base. induction steps as [|u steps IH]; intros base; cbn [findIndex];
    [now left|].
  destruct (String.eqb (fst u) key); [right; cbn [length]; lia|].
  destruct (IH (base + 1)%Z); [now left | right; cbn [length]; lia].
Qed.

Lemma findIndex_missing (key : string) (steps : list (string * string))
    (base : Z) :
  (0 <= base)%Z ->
  (findIndex key steps base = (-1)%Z <-> ~ In key (map fst steps)).
Proof.
  revert base. induction steps as [|u steps IH]; intros base Hb;
    cbn [findIndex map].
  - split; [intros _ [] | reflexivity].
  - destruct (String.eqb (fst u) key) eqn:E.
    + apply String.eqb_eq in E. split; [lia|]. intros H. exfalso. apply H.
      now left.
    + apply String.eqb_neq in E. rewrite (IH (base + 1)%Z) by lia.
      split; [intros H [G|G]; [now apply E | now apply H]|].
      intros H G. apply H. now right.
Qed.

Lemma steps_NoDup : List.NoDup (map fst PROCESSING_STEPS).
Proof.
  cbn. repeat (apply List.NoDup_cons;
               [cbn; intros H; repeat (destruct H as [H|H]; [discriminate H|]);
                exact H|]).
  apply List.NoDup_nil.
Qed.

End StepFacts.

Section SubmitExtras.
Import JS Upload UploadForm QueryFacts FormFacts StepFacts Samples2.

(** X21.  Submitting the form.  Status polling starts only for a file that
    was stored: starting from a form that is not polling, [handleUpload]
    ends polling upload [id] exactly when a file is chosen, the trimmed
    title and the trimmed API key are not empty, the API URL is configured,
    the API answered with [id] and a presigned URL, and the PUT of the file
    ended with a 2xx status.  It then leaves the modal as [pollStatus]
    expects it: status ['processing'], no error, no step; and it sent two
    requests, the one for the presigned URL (with the trimmed title) and
    the PUT of the chosen file to that URL.  When it does not end polling,
    either it sent nothing and left the status as it was (a required field
    or the API URL is missing), or the status is ['error']. *)
Theorem polling_starts_only_after_the_file_is_stored
    (trim : string -> string) (api : string) (auth : auth_response)
    (put : put_response) (fm : Form) :
  f_polling fm = None ->
  (forall id,
     f_polling (handleUpload trim api auth put fm) = Some id
     <-> exists name url code,
           f_file fm = Some name
           /\ trim (f_title fm) <> "" /\ trim (f_apiKey fm) <> ""
           /\ api <> ""
           /\ auth = AuthOk id url
           /\ put = PutLoaded code /\ (200 <= code < 300)%nat
           /\ f_sent (handleUpload trim api auth put fm)
              = f_sent fm ++ [GetUpload api (trim (f_title fm))
                                (f_platform fm) (f_license fm) (f_apiKey fm);
                              PutFile url name]
           /\ f_uploadId (handleUpload trim api auth put fm) = Some id)
  /\ (forall id,
        f_polling (handleUpload trim api auth put fm) = Some id ->
        f_status (handleUpload trim api auth put fm) = status armed
        /\ f_error (handleUpload trim api auth put fm) = error armed
        /\ f_processingStep (handleUpload trim api auth put fm)
           = processingStep armed)
  /\ (f_polling (handleUpload trim api auth put fm) = None ->
      (f_sent (handleUpload trim api auth put fm) = f_sent fm
       /\ f_status (handleUpload trim api auth put fm) = f_status fm
       /\ f_error (handleUpload trim api auth put fm) <> "")
      \/ f_status (handleUpload trim api auth put fm) = Error).
Proof.
  intros Hp. unfold handleUpload.
  destruct (f_file fm) as [name|] eqn:Hf.
  2:{ cbn. rewrite Hp. split; [|split].
      - intros id. split; [discriminate|]. intros (? & ? & ? & H & _).
        discriminate H.
      - discriminate.
      - intros _. left. repeat split. discriminate. }
  destruct (truthy_string (trim (f_title fm))) eqn:Ht; cbn [negb orb].
  2:{ cbn. rewrite Hp. split; [|split].
      - intros id. split; [discriminate|].
        intros (? & ? & ? & _ & H & _). apply truthy_string_iff in H.
        congruence.
      - discriminate.
      - intros _. left. repeat split. discriminate. }
  destruct (truthy_string (trim (f_apiKey fm))) eqn:Hk; cbn [negb].
  2:{ cbn. rewrite Hp. split; [|split].
      - intros id. split; [discriminate|].
        intros (? & ? & ? & _ & _ & H & _). apply truthy_string_iff in H.
        congruence.
      - discriminate.
      - intros _. left. repeat split. discriminate. }
  destruct (truthy_string api) eqn:Ha; cbn [negb].
  2:{ cbn. rewrite Hp. split; [|split].
      - intros id. split; [discriminate|].
        intros (? & ? & ? & _ & _ & _ & H & _). apply truthy_string_iff in H.
        congruence.
      - discriminate.
      - intros _. left. repeat split. discriminate. }
  apply truthy_string_iff in Ht, Hk, Ha.
  destruct auth as [message | code body | uid url].
  - cbn. rewrite Hp. split; [|split].
    + intros id. split; [discriminate|].
      intros (? & ? & ? & _ & _ & _ & _ & H & _). discriminate H.
    + discriminate.
    + intros _. now right.
  - cbn. rewrite Hp. split; [|split].
    + intros id. split; [discriminate|].
      intros (? & ? & ? & _ & _ & _ & _ & H & _). discriminate H.
    + discriminate.
    + intros _. now right.
  - destruct put as [code|].
    + destruct ((200 <=? code)%nat && (code <? 300)%nat) eqn:Hc.
      * apply andb_true_iff in Hc as [H1 H2].
        apply Nat.leb_le in H1. apply Nat.ltb_lt in H2.
        cbn. split; [|split].
        -- intros id. split.
           ++ intros [= <-]. exists name, url, code. repeat split; auto.
           ++ intros (? & ? & ? & _ & _ & _ & _ & [= -> _] & _). reflexivity.
        -- intros id _. repeat split.
        -- discriminate.
      * cbn. rewrite Hp. split; [|split].
        -- intros id. split; [discriminate|].
           intros (? & ? & c & _ & _ & _ & _ & _ & [= <-] & [H1 H2] & _).
           apply Nat.leb_le in H1. apply Nat.ltb_lt in H2.
           rewrite H1, H2 in Hc. discriminate Hc.
        -- discriminate.
        -- intros _. now right.
    + cbn. rewrite Hp. split; [|split].
      * intros id. split; [discriminate|].
        intros (? & ? & ? & _ & _ & _ & _ & _ & H & _). discriminate H.
      * discriminate.
      * intros _. now right.
Qed.

Lemma polling_starts_only_after_the_file_is_stored_witness :
  f_polling (handleUpload trim_ascii "https://api.example" 
               (AuthOk "u-42" "https://s3.example/put") (PutLoaded 200)
               filled) = Some "u-42"
  /\ f_status (handleUpload trim_ascii "https://api.example" 
                 (AuthOk "u-42" "https://s3.example/put") (PutLoaded 200)
                 filled) = Processing.
Proof.
  assert (H : f_polling filled = None) by reflexivity.
  pose proof (polling_starts_only_after_the_file_is_stored trim_ascii
                "https://api.example"
                (AuthOk "u-42" "https://s3.example/put") (PutLoaded 200)
                filled H) as (_ & Hs & _).
  split; [reflexivity|]. exact (proj1 (Hs "u-42" eq_refl)).
Defined.

(** X22.  The list of pipeline steps in the modal.  For every step of the
    list, exactly one of done, active and pending holds; a step is active
    exactly when it is the current one, every earlier step being done and
    every later one pending.  When the reported step is missing, empty or
    not one of the seven keys, no step is done or active. *)
Theorem each_step_is_done_active_or_pending
    (reported : option string) (i : nat) :
  (i < length PROCESSING_STEPS)%nat ->
  (isActive reported i = true <-> currentStepIndex reported = Z.of_nat i)
  /\ (isDone reported i = true <-> (Z.of_nat i < currentStepIndex reported)%Z)
  /\ (isPending reported i = true
      <-> (currentStepIndex reported < Z.of_nat i)%Z)
  /\ (isDone reported i = true /\ isActive reported i = false
        /\ isPending reported i = false
      \/ isDone reported i = false /\ isActive reported i = true
           /\ isPending reported i = false
      \/ isDone reported i = false /\ isActive reported i = false
           /\ isPending reported i = true)
  /\ ((forall key, reported = Some key -> ~ In key (map fst PROCESSING_STEPS))
      -> isDone reported i = false /\ isActive reported i = false).
Proof.
  intros Hi.
  assert (Hact : isActive reported i = true
                 <-> currentStepIndex reported = Z.of_nat i).
  { unfold isActive, currentStepIndex.
    destruct (nth_error PROCESSING_STEPS i) as [s|] eqn:Hn;
      [|apply nth_error_None in Hn; lia].
    destruct reported as [key|]; [|split; [discriminate | lia]].
    pose proof (findIndex_found key PROCESSING_STEPS 0 i s ltac:(lia)
                  steps_NoDup Hn) as Hfound.
    rewrite Z.add_0_l in Hfound.
    destruct (truthy_string key) eqn:Hk; [exact Hfound|].
    split; [|lia]. intros H. apply String.eqb_eq in H. exfalso.
    unfold truthy_string in Hk. apply negb_false_iff, String.eqb_eq in Hk.
    subst key. apply nth_error_In in Hn. revert Hn H. clear. cbn.
    intros H E. repeat (destruct H as [H|H]; [subst s; discriminate E|]).
    exact H. }
  assert (Hdone : isDone reported i = true
                  <-> (Z.of_nat i < currentStepIndex reported)%Z)
    by (unfold isDone; apply Z.ltb_lt).
  assert (Hpend : isPending reported i = true
                  <-> (currentStepIndex reported < Z.of_nat i)%Z)
    by (unfold isPending; apply Z.ltb_lt).
  split; [exact Hact|]. split; [exact Hdone|]. split; [exact Hpend|].
  split.
  - destruct (isDone reported i) eqn:Ed, (isActive reported i) eqn:Ea,
      (isPending reported i) eqn:Ep; try tauto; exfalso.
    + pose proof (proj1 Hact eq_refl). pose proof (proj1 Hdone eq_refl). lia.
    + pose proof (proj1 Hact eq_refl). pose proof (proj1 Hdone eq_refl). lia.
    + pose proof (proj1 Hpend eq_refl). pose proof (proj1 Hdone eq_refl). lia.
    + pose proof (proj1 Hact eq_refl). pose proof (proj1 Hpend eq_refl). lia.
    + destruct (Z.lt_total (Z.of_nat i) (currentStepIndex reported))
        as [H|[H|H]].
      * apply Hdone in H. discriminate H.
      * symmetry in H. apply Hact in H. discriminate H.
      * apply Hpend in H. discriminate H.
  - intros Hunknown.
    assert (Hc : currentStepIndex reported = (-1)%Z).
    { unfold currentStepIndex. destruct reported as [key|]; [|reflexivity].
      destruct (truthy_string key); [|reflexivity].
      apply findIndex_missing; [lia|]. now apply Hunknown. }
    split.
    + destruct (isDone reported i); [|reflexivity].
      pose proof (proj1 Hdone eq_refl). lia.
    + destruct (isActive reported i); [|reflexivity].
      pose proof (proj1 Hact eq_refl). lia.
Qed.

Lemma each_step_is_done_active_or_pending_witness :
  isActive (Some "converting") 2 = true
  <-> currentStepIndex (Some "converting") = 2%Z.
Proof.
  apply (each_step_is_done_active_or_pending (Some "converting") 2).
  cbn. lia.
Defined.

End SubmitExtras.

(* ===================================================================== *)
(** * Properties of the sidebar and the map click                         *)
(* ===================================================================== *)

Module SidebarFacts.
Import JS Catalog Sidebar.

Lemma findIndex_In (id : string) (features : list Feature) (base : Z) :
  (exists f, In f features /\ p_id (properties f) = id) ->
  exists i f,
    findIndex id features base = (base + Z.of_nat i)%Z
    /\ nth_error features i = Some f /\ p_id (properties f) = id.
Proof.
  revert base. induction features as [|g features IH]; intros base (f & Hin & Hid).
  - destruct Hin.
  - cbn [findIndex]. destruct (String.eqb_spec (p_id (properties g)) id) as [E|N].
    + exists 0%nat, g. repeat split; [lia | assumption].
    + destruct Hin as [-> | Hin]; [contradiction|].
      destruct (IH (base + 1)%Z (ex_intro _ f (conj Hin Hid)))
        as (i & f' & Hi & Hn & Hf).
      exists (S i), f'. repeat split; [lia | assumption | assumption].
Qed.

Lemma slice0_firstn {A : Type} (l : list A) (count : Z) :
  (0 <= count)%Z -> slice0 l count = firstn (Z.to_nat count) l.
Proof.
  intros H. unfold slice0. destruct (Z.ltb_spec count 0); [lia | reflexivity].
Qed.

Lemma firstn_more {A : Type} (a b : nat) (l : list A) :
  (a <= b)%nat ->
  firstn b l = firstn a l ++ firstn (b - a) (skipn a l).
Proof.
  intros H. rewrite <- (firstn_skipn a l) at 1.
  rewrite firstn_app, length_firstn.
  destruct (Nat.le_gt_cases a (length l)) as [Hl|Hl].
  - rewrite Nat.min_l by exact Hl. f_equal.
    apply firstn_all2. rewrite length_firstn. lia.
  - rewrite Nat.min_r by lia.
    rewrite (skipn_all2 l) by lia. rewrite !firstn_nil, !app_nil_r.
    rewrite (firstn_all2 (n := a) l) by lia.
    apply firstn_all2. lia.
Qed.

Lemma act_nonneg (st : State) (a : action) :
  (0 <= visibleCount st)%Z -> (0 <= visibleCount (act st a))%Z.
Proof.
  intros H. destruct a as [features | features [sel|] | features]; cbn.
  - unfold ids_effect. destruct (negb _); cbn; [unfold ITEMS_PER_PAGE; lia | exact H].
  - destruct (Z.leb_spec (visibleCount st)
                (findIndex (p_id (properties sel)) features 0)); cbn; lia.
  - exact H.
  - unfold ITEMS_PER_PAGE. lia.
Qed.

End SidebarFacts.

Section SidebarExtras.
Import JS Catalog Sidebar SidebarFacts.

(** X23.  The card of the selected feature is rendered.  When the selected
    feature is in the list, the selection effect leaves the sidebar with a
    visible part that holds the card flagged as selected, whatever the
    number of visible cards was; it never hides a card; and running it
    again changes nothing. *)
Theorem selected_card_is_rendered
    (features : list Feature) (sel : Feature) (st : State) :
  (exists f, In f features
             /\ p_id (properties f) = p_id (properties sel)) ->
  (exists f,
     In f (visibleFeatures features
             (selection_effect features (Some sel) st))
     /\ isSelected (Some sel) f = true)
  /\ (visibleCount st
      <= visibleCount (selection_effect features (Some sel) st))%Z
  /\ selection_effect features (Some sel)
       (selection_effect features (Some sel) st)
     = selection_effect features (Some sel) st.
Proof.
  intros Hin.
  destruct (findIndex_In (p_id (properties sel)) features 0 Hin)
    as (i & f & Hi & Hn & Hf).
  rewrite Z.add_0_l in Hi.
  assert (Hsel : isSelected (Some sel) f = true)
    by (cbn; rewrite Hf; apply String.eqb_refl).
  unfold selection_effect, visibleFeatures. rewrite Hi.
  destruct (Z.leb_spec (visibleCount st) (Z.of_nat i)) as [Hle|Hgt]; cbn.
  - destruct (Z.leb_spec (Z.of_nat i + 5) (Z.of_nat i)); [lia|].
    split; [|split; [lia | reflexivity]].
    exists f. split; [|exact Hsel].
    rewrite slice0_firstn by lia.
    apply (nth_error_In _ i). rewrite nth_error_firstn.
    destruct (Nat.ltb_spec i (Z.to_nat (Z.of_nat i + 5))); [exact Hn | lia].
  - destruct (Z.leb_spec (visibleCount st) (Z.of_nat i)); [lia|].
    split; [|split; [lia | reflexivity]].
    exists f. split; [|exact Hsel].
    rewrite slice0_firstn by lia.
    apply (nth_error_In _ i). rewrite nth_error_firstn.
    destruct (Nat.ltb_spec i (Z.to_nat (visibleCount st))); [exact Hn | lia].
Qed.

Lemma selected_card_is_rendered_witness :
  exists f,
    In f (visibleFeatures
            (map toFeature (repeat Samples.rowA 12 ++ [Samples.rowB]))
            (selection_effect
               (map toFeature (repeat Samples.rowA 12 ++ [Samples.rowB]))
               (Some (toFeature Samples.rowB)) initial))
    /\ isSelected (Some (toFeature Samples.rowB)) f = true.
Proof.
  apply (selected_card_is_rendered
           (map toFeature (repeat Samples.rowA 12 ++ [Samples.rowB]))
           (toFeature Samples.rowB) initial).
  exists (toFeature Samples.rowB). split; [|reflexivity].
  apply List.in_map, List.in_or_app. right. now left.
Defined.

(** X24.  Load More shows more.  While the button is shown, that is while
    fewer cards are visible than there are features, a click keeps the
    cards already visible, in place, and adds the next ten, or all that
    remain when these are fewer: at least one. *)
Theorem load_more_extends_the_list (features : list Feature) (st : State) :
  (0 <= visibleCount st < Z.of_nat (length features))%Z ->
  exists more,
    visibleFeatures features (handleLoadMore features st)
    = visibleFeatures features st ++ more
    /\ Z.of_nat (length more)
       = Z.min ITEMS_PER_PAGE
           (Z.of_nat (length features) - visibleCount st)
    /\ more <> []
    /\ (visibleCount (handleLoadMore features st)
        <= Z.of_nat (length features))%Z.
Proof.
  intros [H0 Hlt]. unfold visibleFeatures, handleLoadMore, ITEMS_PER_PAGE.
  cbn [visibleCount].
  set (n := Z.of_nat (length features)) in *.
  set (v := visibleCount st) in *.
  rewrite !slice0_firstn by lia.
  rewrite (firstn_more (Z.to_nat v) (Z.to_nat (Z.min (v + 10) n)) features)
    by lia.
  set (more := firstn (Z.to_nat (Z.min (v + 10) n) - Z.to_nat v)
                 (skipn (Z.to_nat v) features)).
  assert (Hlen : length more
                 = (Z.to_nat (Z.min (v + 10) n) - Z.to_nat v)%nat).
  { unfold more. rewrite length_firstn, length_skipn. subst n. lia. }
  exists more. split; [reflexivity|]. split; [lia|]. split; [|lia].
  intros E. rewrite E in Hlen. cbn in Hlen. lia.
Qed.

Lemma load_more_extends_the_list_witness :
  exists more,
    visibleFeatures (map toFeature (repeat Samples.rowA 12))
      (handleLoadMore (map toFeature (repeat Samples.rowA 12)) initial)
    = visibleFeatures (map toFeature (repeat Samples.rowA 12)) initial
      ++ more
    /\ Z.of_nat (length more)
       = Z.min ITEMS_PER_PAGE
           (Z.of_nat (length (map toFeature (repeat Samples.rowA 12)))
            - visibleCount initial)
    /\ more <> []
    /\ (visibleCount
          (handleLoadMore (map toFeature (repeat Samples.rowA 12)) initial)
        <= Z.of_nat (length (map toFeature (repeat Samples.rowA 12))))%Z.
Proof.
  apply (load_more_extends_the_list
           (map toFeature (repeat Samples.rowA 12)) initial).
  vm_compute. split; [discriminate | reflexivity].
Defined.

(** X25.  The number of visible cards is never negative.  Whatever effects
    ran and however often Load More was clicked, with whatever lists of
    features, [visibleCount] is at least zero, so that
    [features.slice(0, visibleCount)] is always the first [visibleCount]
    features, never a list cut from its end. *)
Theorem visible_cards_are_a_prefix
    (actions : list action) (features : list Feature) :
  (0 <= visibleCount (run actions))%Z
  /\ visibleFeatures features (run actions)
     = firstn (Z.to_nat (visibleCount (run actions))) features.
Proof.
  assert (H : (0 <= visibleCount (run actions))%Z).
  { unfold run.
    assert (G : forall st, (0 <= visibleCount st)%Z ->
                  (0 <= visibleCount (fold_left act actions st))%Z).
    { induction actions as [|a actions IH]; intros st Hst; [exact Hst|].
      cbn [fold_left]. apply IH. now apply act_nonneg. }
    apply G. cbn. unfold ITEMS_PER_PAGE. lia. }
  split; [exact H|]. unfold visibleFeatures. now apply slice0_firstn.
Qed.

End SidebarExtras.

Module ClickFacts.
Import JS Catalog MapView.

Lemma has_iff (id : string) (uniqueMap : list (string * candidate)) :
  has id uniqueMap = true <-> In id (map fst uniqueMap).
Proof.
  unfold has. rewrite List.existsb_exists, List.in_map_iff. split.
  - intros (kv & Hin & E). apply String.eqb_eq in E. now exists kv.
  - intros (kv & E & Hin). exists kv. split; [exact Hin|].
    now apply String.eqb_eq.
Qed.

Lemma dedupe_tidy (features : list Feature) (all hits : list Hit)
    (uniqueMap : list (string * candidate)) :
  (forall h, In h hits -> In h all) ->
  tidy features all uniqueMap -> tidy features all (dedupe features hits uniqueMap).
Proof.
  revert uniqueMap. induction hits as [|h hits IH]; intros um Hsub Ht;
    [exact Ht|].
  cbn [dedupe].
  assert (Hsub' : forall h', In h' hits -> In h' all)
    by (intros h' H; apply Hsub; now right).
  destruct (h_id h) as [id|] eqn:Hid; [|now apply IH].
  destruct (truthy_string id) eqn:Htr; cbn [andb]; [|now apply IH].
  destruct (has id um) eqn:Hhas; cbn [negb]; [now apply IH|].
  apply IH; [exact Hsub'|]. destruct Ht as [Hnd Hall]. split.
  - rewrite map_app. cbn [map fst].
    apply List.NoDup_app; [exact Hnd | | ].
    + apply List.NoDup_cons; [intros [] | apply List.NoDup_nil].
    + intros x Hx [<- | []].
      apply has_iff in Hx. congruence.
  - apply List.Forall_app. split; [exact Hall|].
    apply List.Forall_cons; [|apply List.Forall_nil]. cbn [fst snd].
    assert (Hne : id <> "").
    { intros ->. discriminate Htr. }
    destruct (List.find _ features) as [f|] eqn:Hfind.
    + apply List.find_some in Hfind as [Hin E]. apply String.eqb_eq in E.
      cbn. rewrite E. repeat split; assumption.
    + cbn. repeat split; [exact Hid | exact Hne | apply Hsub; now left |].
      intros f Hin E.
      pose proof (List.find_none _ _ Hfind f Hin) as Hn. cbn in Hn.
      apply String.eqb_neq in Hn. contradiction.
Qed.

Lemma dedupe_keys (features : list Feature) (hits : list Hit)
    (uniqueMap : list (string * candidate)) (id : string) :
  In id (map fst (dedupe features hits uniqueMap))
  <-> In id (map fst uniqueMap)
      \/ (id <> "" /\ exists h, In h hits /\ h_id h = Some id).
Proof.
  revert uniqueMap. induction hits as [|h hits IH]; intros um; cbn [dedupe].
  - split; [now left|]. intros [H | (_ & h & [] & _)]. exact H.
  - assert (Hskip : h_id h <> Some id \/ id = "" \/ In id (map fst um) ->
              (In id (map fst um)
               \/ (id <> "" /\ exists h', In h' hits /\ h_id h' = Some id))
              <-> (In id (map fst um)
                   \/ (id <> ""
                       /\ exists h', In h' (h :: hits) /\ h_id h' = Some id))).
    { intros Hc. split.
      - intros [H | (Hne & h' & Hin & E)]; [now left|].
        right. split; [exact Hne|]. exists h'. split; [now right | exact E].
      - intros [H | (Hne & h' & [<- | Hin] & E)]; [now left | |].
        + destruct Hc as [Hc | [Hc | Hc]]; [contradiction | contradiction|].
          now left.
        + right. split; [exact Hne|]. now exists h'. }
    destruct (h_id h) as [x|] eqn:Hid.
    2:{ rewrite IH. apply Hskip. left. discriminate. }
    destruct (truthy_string x) eqn:Htr; cbn [andb].
    2:{ rewrite IH. unfold truthy_string in Htr.
        apply negb_false_iff, String.eqb_eq in Htr. subst x.
        apply Hskip. destruct (String.eqb_spec id "") as [E|N];
          [right; now left | left; congruence]. }
    destruct (has x um) eqn:Hhas; cbn [negb].
    { rewrite IH. apply has_iff in Hhas. apply Hskip.
      destruct (String.eqb_spec id x) as [E|N];
        [right; right; now rewrite E | left; congruence]. }
    rewrite IH, map_app, List.in_app_iff. cbn [map fst In].
    assert (Hne : x <> "") by (intros ->; discriminate Htr).
    split.
    + intros [[H | [<- | []]] | (Hn & h' & Hin & E)].
      * now left.
      * right. split; [exact Hne|]. exists h. split; [now left | exact Hid].
      * right. split; [exact Hn|]. exists h'. split; [now right | exact E].
    + intros [H | (Hn & h' & [<- | Hin] & E)].
      * left. now left.
      * left. right. left. congruence.
      * right. split; [exact Hn|]. now exists h'.
Qed.

Lemma NoDup_map_Some {A : Type} (l : list A) :
  List.NoDup l -> List.NoDup (map Some l).
Proof.
  induction 1 as [|x l Hx Hnd IH]; cbn; constructor; [|exact IH].
  intros H. apply List.in_map_iff in H as (y & [= <-] & Hy). contradiction.
Qed.

Lemma tidy_ids (features : list Feature) (hits : list Hit)
    (uniqueMap : list (string * candidate)) :
  tidy features hits uniqueMap ->
  map candidate_id (map snd uniqueMap) = map Some (map fst uniqueMap).
Proof.
  intros [_ Hall]. induction Hall as [|kv um (E & _) _ IH]; cbn;
    [reflexivity|]. now rewrite E, IH.
Qed.

End ClickFacts.

Section ClickExtras.
Import JS Catalog MapView ClickFacts.

(** X27.  A click on the map offers each image once.  The candidates
    gathered from the features under the pointer carry pairwise different
    ids, namely every non-empty id found under the pointer; a candidate is
    a feature of the current search result, or the rendered feature when
    the result holds none with its id.  The click deselects exactly when
    nothing under the pointer carries an id, and it selects at once only
    when everything identified under the pointer is the same image. *)
Theorem click_offers_each_image_once
    (features : list Feature) (hits : list Hit) :
  List.NoDup (map candidate_id (uniqueFeatures features hits))
  /\ (forall id,
        In (Some id) (map candidate_id (uniqueFeatures features hits))
        <-> id <> "" /\ exists h, In h hits /\ h_id h = Some id)
  /\ (forall c, In c (uniqueFeatures features hits) ->
        match c with
        | FromResults f => In f features
        | Rendered h =>
            In h hits
            /\ forall f, In f features ->
                 Some (p_id (properties f)) <> h_id h
        end)
  /\ (click features hits = Deselect
      <-> forall h, In h hits -> h_id h = None \/ h_id h = Some "")
  /\ (forall c, click features hits = Select c ->
        forall h id, In h hits -> h_id h = Some id -> id <> "" ->
          candidate_id c = Some id).
Proof.
  assert (Ht : tidy features hits (dedupe features hits [])).
  { apply dedupe_tidy; [auto|]. split; [apply List.NoDup_nil | constructor]. }
  pose proof (tidy_ids _ _ _ Ht) as Hids.
  assert (Hkeys : forall id,
            In (Some id) (map candidate_id (uniqueFeatures features hits))
            <-> id <> "" /\ exists h, In h hits /\ h_id h = Some id).
  { intros id. unfold uniqueFeatures. rewrite Hids.
    rewrite List.in_map_iff. split.
    - intros (x & [= ->] & Hx). apply dedupe_keys in Hx as [[] | Hx].
      exact Hx.
    - intros Hx. exists id. split; [reflexivity|]. apply dedupe_keys.
      now right. }
  split; [|split; [exact Hkeys|split; [|split]]].
  - unfold uniqueFeatures. rewrite Hids. apply NoDup_map_Some, Ht.
  - intros c Hc. unfold uniqueFeatures in Hc.
    apply List.in_map_iff in Hc as (kv & <- & Hkv).
    destruct Ht as [_ Hall]. rewrite List.Forall_forall in Hall.
    destruct (Hall kv Hkv) as (E & _ & Hfrom).
    destruct (snd kv) as [f|h]; [exact Hfrom|].
    destruct Hfrom as [Hin Hno]. split; [exact Hin|].
    intros f Hf. cbn in E. rewrite E. intros [= G]. now apply (Hno f Hf).
  - unfold click. split.
    + intros Hd h Hin.
      destruct (uniqueFeatures features hits) as [|c [|c' rest]] eqn:Hu;
        try discriminate Hd.
      destruct (h_id h) as [id|] eqn:Hid; [|now left]. right.
      destruct (String.eqb_spec id "") as [->|N]; [reflexivity|].
      exfalso. assert (G : In (Some id) (map candidate_id [])) by
        (apply Hkeys; split; [exact N | now exists h]).
      destruct G.
    + intros Hnone.
      destruct (uniqueFeatures features hits) as [|c rest] eqn:Hu;
        [reflexivity|]. exfalso.
      destruct Ht as [_ Hall]. unfold uniqueFeatures in Hu.
      destruct (dedupe features hits []) as [|kv um] eqn:Hd;
        [discriminate Hu|].
      inversion Hall as [|? ? (E & Hne & _) _]; subst.
      assert (G : In (fst kv) (map fst (dedupe features hits [])))
        by (rewrite Hd; now left).
      apply dedupe_keys in G as [[] | (_ & h & Hin & Hid)].
      destruct (Hnone h Hin) as [H | H]; rewrite Hid in H;
        [discriminate H | injection H as H; contradiction].
  - intros c Hsel h id Hin Hid Hne. unfold click in Hsel.
    destruct (uniqueFeatures features hits) as [|c0 [|c1 rest]] eqn:Hu;
      try discriminate Hsel.
    injection Hsel as ->.
    assert (G : In (Some id) (map candidate_id [c]))
      by (apply Hkeys; split; [exact Hne | now exists h]).
    destruct G as [G | []]. exact G.
Qed.

End ClickExtras.
